(** * Identity reconciliation: the contact-cluster resolution of
      [src/services/identify.service.ts], with the normalizers of
      [src/utils/normalization.ts] and the [Contact] table of the Prisma
      schema.

    The table is a list of rows in the store's own order; that order is what
    an unordered [findMany] returns and what decides between rows of equal
    [createdAt] under [orderBy: { createdAt: "asc" }].  Time stamps are
    integers (milliseconds).  A transaction is a function from the committed
    table to either a new table and a response, or a failure (nothing is
    committed then).  Concurrent requests are seen by one call only through
    the failures they cause, so every attempt of the call reads, next to the
    clock, which failure (if any) the store raises in the transaction and
    whether the re-query after a conflict fails. *)

From Stdlib Require Import ZArith List String Ascii Bool Lia.
From Stdlib Require Import DecimalString DecimalPos Permutation.
Import ListNotations.
Local Open Scope string_scope.
Local Open Scope Z_scope.

(* ------------------------------------------------------------------ *)
(** ** Values arriving in a request body *)

Module Normalization.

(** [Number.isSafeInteger]: the integers every one of which a JS number
    holds exactly, up to [Number.MAX_SAFE_INTEGER] = 2^53 - 1 in absolute
    value.  On these [Number.prototype.toString] prints the plain decimal
    digits; beyond them integers are rounded, and from 1e21 on the print is
    in exponent form. *)
Definition MAX_SAFE_INTEGER : Z := 9007199254740991.

Definition isSafeInteger (n : Z) : bool := Z.abs n <=? MAX_SAFE_INTEGER.

(** The values a JSON body can put under [email] or [phoneNumber].  A
    string is a sequence of code units below 256 (the Latin-1 part of
    UTF-16); a number is a safe integer, and carries the evidence. *)
Inductive JsValue : Type :=
| JsNull
| JsUndefined
| JsString (s : string)
| JsNumber (n : Z) (safe : isSafeInteger n = true)
| JsBoolean (b : bool).

(** [String.prototype.trim] on code units below 256: TAB, LF, VT, FF, CR,
    space and the no-break space. *)
Definition isWhiteSpace (c : ascii) : bool :=
  let n := nat_of_ascii c in
  ((9 <=? n)%nat && (n <=? 13)%nat) || (n =? 32)%nat || (n =? 160)%nat.

Fixpoint trimStart (s : string) : string :=
  match s with
  | String c t => if isWhiteSpace c then trimStart t else s
  | EmptyString => EmptyString
  end.

Fixpoint trimEnd (s : string) : string :=
  match s with
  | String c t =>
      match trimEnd t with
      | EmptyString => if isWhiteSpace c then EmptyString else String c EmptyString
      | t' => String c t'
      end
  | EmptyString => EmptyString
  end.

Definition trim (s : string) : string := trimEnd (trimStart s).

(** [String.prototype.toLowerCase] on code units below 256: the letters
    A-Z, and the Latin-1 capitals U+00C0-U+00DE other than the
    multiplication sign U+00D7, move up by 32; every other code unit has no
    lower-case mapping and stays. *)
Definition isUpperCase (c : ascii) : bool :=
  let n := nat_of_ascii c in
  ((65 <=? n)%nat && (n <=? 90)%nat) ||
  ((192 <=? n)%nat && (n <=? 222)%nat && negb (n =? 215)%nat).

Definition lowerChar (c : ascii) : ascii :=
  if isUpperCase c then ascii_of_nat (nat_of_ascii c + 32) else c.

Fixpoint toLowerCase (s : string) : string :=
  match s with
  | String c t => String (lowerChar c) (toLowerCase t)
  | EmptyString => EmptyString
  end.

Definition isDigit (c : ascii) : bool :=
  let n := nat_of_ascii c in ((48 <=? n)%nat && (n <=? 57)%nat)%bool.

(** [s.replace(/\D/g, "")] *)
Fixpoint stripNonDigits (s : string) : string :=
  match s with
  | String c t => if isDigit c then String c (stripNonDigits t) else stripNonDigits t
  | EmptyString => EmptyString
  end.

(** The decimal digits of an integer, with a leading minus sign when it is
    negative. *)
Definition decimal (n : Z) : string := NilZero.string_of_int (Z.to_int n).

(** [v.toString()] for a value that is neither [null] nor [undefined]
    (on those two the call throws; the normalizer never reaches it). *)
Definition toString (v : JsValue) : string :=
  match v with
  | JsString s => s
  | JsNumber n _ => decimal n
  | JsBoolean true => "true"
  | JsBoolean false => "false"
  | JsNull => "null"
  | JsUndefined => "undefined"
  end.

Definition emptyToNull (s : string) : option string :=
  if (s =? "")%string then None else Some s.

Definition normalizeEmail (email : JsValue) : option string :=
  match email with
  | JsString s => emptyToNull (toLowerCase (trim s))
  | _ => None
  end.

Definition normalizePhone (phone : JsValue) : option string :=
  match phone with
  | JsNull | JsUndefined => None
  | _ => emptyToNull (stripNonDigits (toString phone))
  end.

End Normalization.
Export Normalization.

(* ------------------------------------------------------------------ *)
(** ** The Contact table *)

Inductive LinkPrecedence : Type := primary | secondary.

Record Contact : Type := mkContact {
  id : Z;
  phoneNumber : option string;
  email : option string;
  linkedId : option Z;
  linkPrecedence : LinkPrecedence;
  createdAt : Z;
  updatedAt : Z;
  deletedAt : option Z
}.

(** The rows in store order and the next value of the [autoincrement]
    sequence. *)
Record Db : Type := mkDb {
  rows : list Contact;
  nextId : Z
}.

Record Response : Type := mkResponse {
  primaryContactId : Z;
  emails : list string;
  phoneNumbers : list string;
  secondaryContactIds : list Z
}.

(** What a call can throw. [PrismaError code] is a failure of the store
    carrying [e.code]; ["P2002"] is the unique-constraint violation. *)
Inductive Failure : Type :=
| PrismaError (code : string)
| TypeError
| InputError (message : string)
| DatabaseError (message : string).

Definition P2002 : Failure := PrismaError "P2002".

Definition isP2002 (e : Failure) : bool :=
  match e with
  | PrismaError code => (code =? "P2002")%string
  | _ => false
  end.

Inductive Result (A : Type) : Type :=
| Ok (a : A)
| Err (e : Failure).
Arguments Ok {A} a.
Arguments Err {A} e.

Definition bind {A B : Type} (r : Result A) (k : A -> Result B) : Result B :=
  match r with
  | Ok a => k a
  | Err e => Err e
  end.

Notation "x <- r ;; k" := (bind r (fun x => k))
  (at level 61, r at next level, right associativity).

(* ------------------------------------------------------------------ *)
(** ** Small JavaScript idioms *)

(** [!!s] for a value that is a string or [null]. *)
Definition truthy (s : option string) : bool :=
  match s with
  | Some v => negb (v =? "")%string
  | None => false
  end.

(** [!!n] for a value that is a number or [null]. *)
Definition truthyId (n : option Z) : bool :=
  match n with
  | Some v => negb (v =? 0)
  | None => false
  end.

(** [field === v] for a nullable column and a string [v]. *)
Definition fieldEquals (field : option string) (v : string) : bool :=
  match field with
  | Some x => (x =? v)%string
  | None => false
  end.

Definition isNull {A : Type} (o : option A) : bool :=
  match o with
  | Some _ => false
  | None => true
  end.

(** [{ in: ids }] on a number. *)
Definition inIds (x : Z) (ids : list Z) : bool := existsb (Z.eqb x) ids.

(** [{ in: ids }] on a nullable number: [null] is in no list. *)
Definition linkedIn (l : option Z) (ids : list Z) : bool :=
  match l with
  | Some x => inIds x ids
  | None => false
  end.

(** [Array.from(new Set(l))]: first occurrences, in order. *)
Fixpoint uniqueIds (l : list Z) : list Z :=
  match l with
  | [] => []
  | x :: t => x :: filter (fun y => negb (y =? x)) (uniqueIds t)
  end.

Fixpoint uniqueStrings (l : list string) : list string :=
  match l with
  | [] => []
  | x :: t => x :: filter (fun y => negb (y =? x)%string) (uniqueStrings t)
  end.

(** [l.filter(x => !!x)] on nullable strings. *)
Fixpoint truthyStrings (l : list (option string)) : list string :=
  match l with
  | [] => []
  | Some v :: t => if (v =? "")%string then truthyStrings t else v :: truthyStrings t
  | None :: t => truthyStrings t
  end.

(* ------------------------------------------------------------------ *)
(** ** Queries and updates of the store *)

(** [orderBy: { createdAt: "asc" }]: rows of equal [createdAt] stay in store
    order. *)
Fixpoint insertByCreatedAt (c : Contact) (l : list Contact) : list Contact :=
  match l with
  | [] => [c]
  | x :: t => if createdAt c <=? createdAt x then c :: x :: t
              else x :: insertByCreatedAt c t
  end.

Fixpoint orderByCreatedAt (l : list Contact) : list Contact :=
  match l with
  | [] => []
  | c :: t => insertByCreatedAt c (orderByCreatedAt t)
  end.

(** The [OR] list of step 1, after [.filter(Boolean)]. *)
Definition matchClauses (em ph : option string) : list (Contact -> bool) :=
  (match em with
   | Some e => if truthy em then [fun c => fieldEquals (email c) e] else []
   | None => []
   end) ++
  (match ph with
   | Some p => if truthy ph then [fun c => fieldEquals (phoneNumber c) p] else []
   | None => []
   end).

Definition anyClause (clauses : list (Contact -> bool)) (c : Contact) : bool :=
  existsb (fun clause => clause c) clauses.

(** Step 1: [findMany({ where: { deletedAt: null, OR: [...] } })]. *)
Definition findMatches (em ph : option string) (rs : list Contact) : list Contact :=
  filter (fun c => isNull (deletedAt c) && anyClause (matchClauses em ph) c) rs.

(** The schema's [@@unique([email, phoneNumber])]: a pair with a [NULL] in it
    never conflicts; the constraint does not look at [deletedAt]. *)
Definition uniqueViolation (rs : list Contact) (em ph : option string) : bool :=
  match em, ph with
  | Some e, Some p =>
      existsb (fun c => fieldEquals (email c) e && fieldEquals (phoneNumber c) p) rs
  | _, _ => false
  end.

(** [contact.create({ data })]: the id comes from the sequence, [createdAt]
    and [updatedAt] from the clock, [deletedAt] stays null. *)
Definition create (now : Z) (em ph : option string) (prec : LinkPrecedence)
    (lid : option Z) (db : Db) : Result (Db * Contact) :=
  if uniqueViolation (rows db) em ph then Err P2002
  else
    let c := mkContact (nextId db) ph em lid prec now now None in
    Ok (mkDb (rows db ++ [c]) (nextId db + 1), c).

(** Step 3: the id a matched row stands for. *)
Definition candidatePrimaryId (m : Contact) : Z :=
  match linkPrecedence m, linkedId m with
  | secondary, Some l => if truthyId (linkedId m) then l else id m
  | _, _ => id m
  end.

(** Step 4: [findMany({ where: { id: { in } }, orderBy: createdAt asc })]. *)
Definition findPrimaryRecords (ids : list Z) (rs : list Contact) : list Contact :=
  orderByCreatedAt (filter (fun c => inIds (id c) ids) rs).

(** Step 5a: [updateMany({ where: { linkedId: { in } }, data })]. *)
Definition relinkRow (otherPrimaryIds : list Z) (pid now : Z) (c : Contact) : Contact :=
  if linkedIn (linkedId c) otherPrimaryIds
  then mkContact (id c) (phoneNumber c) (email c) (Some pid) (linkPrecedence c)
                 (createdAt c) now (deletedAt c)
  else c.

Definition relinkChildren (otherPrimaryIds : list Z) (pid now : Z)
    (rs : list Contact) : list Contact :=
  map (relinkRow otherPrimaryIds pid now) rs.

(** Step 5b: [updateMany({ where: { id: { in } }, data })]. *)
Definition demoteRow (otherPrimaryIds : list Z) (pid now : Z) (c : Contact) : Contact :=
  if inIds (id c) otherPrimaryIds
  then mkContact (id c) (phoneNumber c) (email c) (Some pid) secondary
                 (createdAt c) now (deletedAt c)
  else c.

Definition demotePrimaries (otherPrimaryIds : list Z) (pid now : Z)
    (rs : list Contact) : list Contact :=
  map (demoteRow otherPrimaryIds pid now) rs.

(** Step 5 as a whole: nothing happens when there is no other primary. *)
Definition mergeRows (otherPrimaryIds : list Z) (pid now : Z)
    (rs : list Contact) : list Contact :=
  match otherPrimaryIds with
  | [] => rs
  | _ :: _ =>
      demotePrimaries otherPrimaryIds pid now
        (relinkChildren otherPrimaryIds pid now rs)
  end.

(** Step 6 and [fetchContactCluster]: non-deleted roots and their children. *)
Definition findCluster (rootIds : list Z) (rs : list Contact) : list Contact :=
  filter (fun c => isNull (deletedAt c) &&
                   (inIds (id c) rootIds || linkedIn (linkedId c) rootIds)) rs.

Definition fetchContactCluster (primaryId : Z) (rs : list Contact) : list Contact :=
  findCluster [primaryId] rs.

Definition buildResponse (primaryId : Z) (chain : list Contact) : Result Response :=
  match find (fun c => id c =? primaryId) chain with
  | None => Err TypeError
  | Some p =>
      let secondaries := filter (fun c => negb (id c =? primaryId)) chain in
      Ok (mkResponse primaryId
            (uniqueStrings (truthyStrings (email p :: map email secondaries)))
            (uniqueStrings (truthyStrings (phoneNumber p :: map phoneNumber secondaries)))
            (map id secondaries))
  end.

(* ------------------------------------------------------------------ *)
(** ** The transaction body of [processContact] *)

(** [a === b] on nullable strings. *)
Definition strictEq (a b : option string) : bool :=
  match a, b with
  | Some x, Some y => (x =? y)%string
  | None, None => true
  | _, _ => false
  end.

(** [email && cluster.some((c) => c.email === email)] as a boolean. *)
Definition hasEmail (em : option string) (cluster : list Contact) : bool :=
  truthy em && existsb (fun c => strictEq (email c) em) cluster.

Definition hasPhone (ph : option string) (cluster : list Contact) : bool :=
  truthy ph && existsb (fun c => strictEq (phoneNumber c) ph) cluster.

Definition needEmailLink (em : option string) (cluster : list Contact) : bool :=
  truthy em && negb (hasEmail em cluster).

Definition needPhoneLink (ph : option string) (cluster : list Contact) : bool :=
  truthy ph && negb (hasPhone ph cluster).

(** [create] of a secondary under [pid], [cluster.push(sec)], then the
    response. *)
Definition attachSecondary (now : Z) (em ph : option string) (pid : Z)
    (cluster : list Contact) (db : Db) : Result (Db * Response) :=
  created <- create now em ph secondary (Some pid) db ;;
  r <- buildResponse pid (cluster ++ [snd created]) ;;
  Ok (fst created, r).

(** Steps 7 and 8: the new-information decision. *)
Definition decideNewInformation (now : Z) (em ph : option string) (pid : Z)
    (cluster : list Contact) (db : Db) : Result (Db * Response) :=
  if truthy em && negb (truthy ph) then
    attachSecondary now em None pid cluster db
  else if truthy ph && negb (truthy em) then
    attachSecondary now None ph pid cluster db
  else if needEmailLink em cluster || needPhoneLink ph cluster then
    attachSecondary now
      (if needEmailLink em cluster then em else None)
      (if needPhoneLink ph cluster then ph else None)
      pid cluster db
  else
    r <- buildResponse pid cluster ;;
    Ok (db, r).

Definition transaction (now : Z) (em ph : option string) (db : Db)
    : Result (Db * Response) :=
  match findMatches em ph (rows db) with
  | [] =>
      created <- create now em ph primary None db ;;
      r <- buildResponse (id (snd created)) [snd created] ;;
      Ok (fst created, r)
  | matches =>
      let candidatePrimaryIds := map candidatePrimaryId matches in
      let uniquePrimaryIds := uniqueIds candidatePrimaryIds in
      match findPrimaryRecords uniquePrimaryIds (rows db) with
      | [] => Err TypeError
      | p :: otherPrimaries =>
          let otherPrimaryIds := map id otherPrimaries in
          let db1 := mkDb (mergeRows otherPrimaryIds (id p) now (rows db)) (nextId db) in
          let rootIds := id p :: otherPrimaryIds in
          let cluster := findCluster rootIds (rows db1) in
          decideNewInformation now em ph (id p) cluster db1
      end
  end.

(* ------------------------------------------------------------------ *)
(** ** The conflict and retry envelope *)

(** What one attempt meets: the clock, a failure the store raises inside the
    transaction (a lost race shows as [Some P2002]), and whether the re-query
    of the [catch] block throws. *)
Record Attempt : Type := mkAttempt {
  clock : Z;
  txFault : option Failure;
  requeryFault : bool
}.

Definition quiet (now : Z) : Attempt := mkAttempt now None false.

Definition runTransaction (a : Attempt) (em ph : option string) (db : Db)
    : Result (Db * Response) :=
  match txFault a with
  | Some f => Err f
  | None => transaction (clock a) em ph db
  end.

(** The [OR] list of the re-query, after [.filter(Boolean)]. *)
Definition requeryClauses (em ph : option string) : list (Contact -> bool) :=
  (if truthy em && truthy ph
   then [fun c => strictEq (email c) em && strictEq (phoneNumber c) ph] else []) ++
  (if truthy em then [fun c => strictEq (email c) em] else []) ++
  (if truthy ph then [fun c => strictEq (phoneNumber c) ph] else []).

(** [findFirst({ where: { deletedAt: null, OR }, orderBy: createdAt asc })]. *)
Definition findFirstExisting (em ph : option string) (rs : list Contact)
    : option Contact :=
  hd_error (orderByCreatedAt
    (filter (fun c => isNull (deletedAt c) && anyClause (requeryClauses em ph) c) rs)).

(** The inner [try] of the [catch] block: [Some r] when it returns [r],
    [None] when nothing is found or anything in it throws. *)
Definition requery (a : Attempt) (em ph : option string) (db : Db)
    : option Response :=
  if requeryFault a then None
  else
    match findFirstExisting em ph (rows db) with
    | None => None
    | Some existing =>
        let truePrimaryId :=
          match linkPrecedence existing with
          | primary => Some (id existing)
          | secondary => linkedId existing
          end in
        match truePrimaryId with
        | None => None
        | Some t =>
            match buildResponse t (fetchContactCluster t (rows db)) with
            | Ok r => Some r
            | Err _ => None
            end
        end
    end.

(** A finished call: what it returned or threw, the table it left, and how
    many times it ran the transaction. *)
Record Run : Type := mkRun {
  outcome : Result Response;
  final : Db;
  attempts : nat
}.

Definition again (r : Run) : Run :=
  mkRun (outcome r) (final r) (S (attempts r)).

(** [processContact(rawEmail, rawPhone, maxRetries)]; [env k] is what the
    [k]-th attempt meets, counted from the caller's first one. *)
Fixpoint processContact (maxRetries : nat) (env : nat -> Attempt) (k : nat)
    (db : Db) (rawEmail rawPhone : JsValue) {struct maxRetries} : Run :=
  let em := normalizeEmail rawEmail in
  let ph := normalizePhone rawPhone in
  if negb (truthy em) && negb (truthy ph) then
    mkRun (Err (InputError "email or phoneNumber required")) db 0
  else
    match runTransaction (env k) em ph db with
    | Ok (db', r) => mkRun (Ok r) db' 1
    | Err e =>
        if isP2002 e then
          match maxRetries with
          | S m =>
              match requery (env k) em ph db with
              | Some r => mkRun (Ok r) db 1
              | None => again (processContact m env (S k) db rawEmail rawPhone)
              end
          | O => mkRun (Err (DatabaseError "Failed to resolve contact conflict")) db 1
          end
        else mkRun (Err e) db 1
    end.

(** The default of the [maxRetries] parameter. *)
Definition defaultMaxRetries : nat := 3.

(** The controller, once validation has passed:
    [const { email = null, phoneNumber = null } = req.body] and
    [processContact(email, phoneNumber?.toString() ?? null)]. *)
Definition emailArgument (email : JsValue) : JsValue :=
  match email with
  | JsUndefined => JsNull
  | v => v
  end.

Definition phoneArgument (phoneNumber : JsValue) : JsValue :=
  match phoneNumber with
  | JsNull | JsUndefined => JsNull
  | v => JsString (toString v)
  end.

Definition identify (env : nat -> Attempt) (db : Db) (email phoneNumber : JsValue)
    : Run :=
  processContact defaultMaxRetries env 0 db (emailArgument email) (phoneArgument phoneNumber).

(* ------------------------------------------------------------------ *)
(** ** Invariants of the table *)

(** The data-model invariants: ids are distinct and were drawn from the
    sequence, which starts above zero, a secondary has a link, and a link leads to a row that is
    there and is a primary. *)
Record WellFormed (db : Db) : Prop := mkWellFormed {
  wf_next : 0 < nextId db;
  wf_nodup : NoDup (map id (rows db));
  wf_ids : forall c, In c (rows db) -> 0 < id c < nextId db;
  wf_secondary : forall c, In c (rows db) ->
      linkPrecedence c = secondary -> linkedId c <> None;
  wf_link : forall c l, In c (rows db) -> linkedId c = Some l ->
      exists t, In t (rows db) /\ id t = l /\ linkPrecedence t = primary
}.

(** The flattening invariant: no link leads to a secondary. *)
Definition Flat (rs : list Contact) : Prop :=
  forall c t, In c rs -> In t rs -> linkedId c = Some (id t) ->
    linkPrecedence t = primary.

(** No live row hangs under a soft-deleted one. *)
Definition PrimariesLive (rs : list Contact) : Prop :=
  forall c t, In c rs -> In t rs -> deletedAt c = None ->
    linkedId c = Some (id t) -> deletedAt t = None.

Definition isPrimary (c : Contact) : bool :=
  match linkPrecedence c with
  | primary => true
  | secondary => false
  end.

Fixpoint distinctIds (l : list Z) : bool :=
  match l with
  | [] => true
  | x :: t => negb (inIds x t) && distinctIds t
  end.

(** The same invariants as checks that run. *)
Definition wellFormedb (db : Db) : bool :=
  (0 <? nextId db) &&
  distinctIds (map id (rows db)) &&
  forallb (fun c => (0 <? id c) && (id c <? nextId db)) (rows db) &&
  forallb (fun c => isPrimary c || negb (isNull (linkedId c))) (rows db) &&
  forallb (fun c => match linkedId c with
                    | Some l => existsb (fun t => (id t =? l) && isPrimary t) (rows db)
                    | None => true
                    end) (rows db).

Definition primariesLiveb (rs : list Contact) : bool :=
  forallb (fun c =>
    negb (isNull (deletedAt c)) ||
    forallb (fun t => negb (linkedIn (linkedId c) [id t]) || isNull (deletedAt t)) rs) rs.

(* ------------------------------------------------------------------ *)
(** ** Views of the transaction *)

(** Every row is no younger than the rows before it. *)
Fixpoint ascending (l : list Contact) : Prop :=
  match l with
  | [] => True
  | p :: t => (forall c, In c t -> createdAt p <= createdAt c) /\ ascending t
  end.

(** Steps 5a and 5b as they act on one row. *)
Definition mergeRow (otherPrimaryIds : list Z) (pid now : Z) (c : Contact) : Contact :=
  demoteRow otherPrimaryIds pid now (relinkRow otherPrimaryIds pid now c).

(** The values the transaction computes on its way, named. *)
Definition candidateIdsOf (em ph : option string) (db : Db) : list Z :=
  uniqueIds (map candidatePrimaryId (findMatches em ph (rows db))).

Definition primaryRecordsOf (em ph : option string) (db : Db) : list Contact :=
  findPrimaryRecords (candidateIdsOf em ph db) (rows db).

Definition mergedRowsOf (now : Z) (em ph : option string) (db : Db) : list Contact :=
  match primaryRecordsOf em ph db with
  | [] => rows db
  | p :: others => mergeRows (map id others) (id p) now (rows db)
  end.

Definition clusterOf (now : Z) (em ph : option string) (db : Db) : list Contact :=
  findCluster (map id (primaryRecordsOf em ph db)) (mergedRowsOf now em ph db).

(** The row a request adds under the primary [pid]. *)
Definition newSecondary (db : Db) (now : Z) (em ph : option string) (pid : Z)
    : Contact :=
  mkContact (nextId db) ph em (Some pid) secondary now now None.

(** The row a request without a match adds. *)
Definition newPrimary (db : Db) (now : Z) (em ph : option string) : Contact :=
  mkContact (nextId db) ph em None primary now now None.

(** The values of a response list for one nullable column. *)
Definition presentValues (o : option string) : list string :=
  match o with
  | Some v => [v]
  | None => []
  end.

(** What the three clauses of the re-query amount to: the row has the email
    or the phone of the request. *)
Definition requeryMatch (em ph : option string) (c : Contact) : bool :=
  (truthy em && strictEq (email c) em) || (truthy ph && strictEq (phoneNumber c) ph).

(** A table in which every match of the request stands for the one live
    primary [p]. *)
Record Settled (em ph : option string) (db : Db) (p : Contact) : Prop := mkSettled {
  st_row : In p (rows db);
  st_primary : linkPrecedence p = primary;
  st_live : deletedAt p = None;
  st_matched : findMatches em ph (rows db) <> [];
  st_candidate : forall m, In m (findMatches em ph (rows db)) ->
                           candidatePrimaryId m = id p
}.

(** The columns the merge can touch, with the soft-delete marker. *)
Definition rowView (c : Contact) :=
  (id c, linkPrecedence c, linkedId c, updatedAt c, deletedAt c).

(* ------------------------------------------------------------------ *)
(** ** The readings of the spec that the code departs from *)

(** The spec's reading of "oldest, ties by id ascending": is [a] before
    [b]? *)
Definition seniorTo (a b : Contact) : bool :=
  (createdAt a <? createdAt b) ||
  ((createdAt a =? createdAt b) && (id a <=? id b)).

(** The candidate the spec's words select: the one senior to all. *)
Definition specTruePrimary (candidates : list Contact) : option Contact :=
  find (fun a => forallb (seniorTo a) candidates) candidates.

(** The oldest live row that passes [f]. *)
Definition oldestLive (f : Contact -> bool) (rs : list Contact) : option Contact :=
  hd_error (orderByCreatedAt (filter (fun c => isNull (deletedAt c) && f c) rs)).

(** The spec's reading of the re-query: the oldest live row with the full
    pair; failing that, the oldest with the email; failing that, the oldest
    with the phone. *)
Definition specFindExisting (em ph : option string) (rs : list Contact)
    : option Contact :=
  match oldestLive (fun c => truthy em && truthy ph &&
                             strictEq (email c) em && strictEq (phoneNumber c) ph) rs with
  | Some c => Some c
  | None =>
      match oldestLive (fun c => truthy em && strictEq (email c) em) rs with
      | Some c => Some c
      | None => oldestLive (fun c => truthy ph && strictEq (phoneNumber c) ph) rs
      end
  end.

(* ------------------------------------------------------------------ *)
(** ** Tables and attempts of the concrete cases *)

(** Two primaries created in the same millisecond; the store holds the row
    with the larger id first. *)
Definition tieDb : Db :=
  mkDb [ mkContact 2 (Some "222") (Some "a@x.io") None primary 10 10 None;
         mkContact 1 (Some "111") (Some "b@x.io") None primary 10 10 None ] 3.

(** A soft-deleted row that still holds the pair of the request. *)
Definition deletedTwinDb : Db :=
  mkDb [ mkContact 1 (Some "123456") (Some "lorraine@hillvalley.edu") None
           primary 10 10 (Some 20) ] 2.

(** Two clusters that share an email; the younger row holds the pair of the
    request. *)
Definition sharedEmailDb : Db :=
  mkDb [ mkContact 1 (Some "999") (Some "doc@hillvalley.edu") None primary 10 10 None;
         mkContact 2 (Some "111") (Some "doc@hillvalley.edu") None primary 20 20 None ] 3.

(** The first attempt loses a race to a concurrent request; later attempts
    meet nothing. *)
Definition lostRace (k : nat) : Attempt :=
  match k with
  | O => mkAttempt 30 (Some P2002) false
  | S _ => quiet 40
  end.

(** The first attempt loses a race and its re-query fails as well (the
    connection drops); the second attempt meets nothing. *)
Definition brokenRequery (k : nat) : Attempt :=
  match k with
  | O => mkAttempt 30 (Some P2002) true
  | S _ => quiet 40
  end.

(** A live primary, and a soft-deleted primary that still has a live
    child. *)
Definition deletedPrimaryDb : Db :=
  mkDb [ mkContact 1 (Some "111") (Some "marty@hillvalley.edu") None primary 10 10 None;
         mkContact 2 (Some "222") (Some "biff@hillvalley.edu") None primary 20 20 (Some 25);
         mkContact 3 (Some "333") (Some "george@hillvalley.edu") (Some 2) secondary 22 22 None
       ] 4.

(** Two live primaries; the younger one has a soft-deleted child. *)
Definition deletedChildDb : Db :=
  mkDb [ mkContact 1 (Some "111") (Some "marty@hillvalley.edu") None primary 10 10 None;
         mkContact 2 (Some "222") (Some "biff@hillvalley.edu") None primary 20 20 None;
         mkContact 3 (Some "333") (Some "george@hillvalley.edu") (Some 2) secondary 22 22
           (Some 25) ] 4.

(** A soft-deleted primary whose only live row is its child. *)
Definition orphanDb : Db :=
  mkDb [ mkContact 1 (Some "111") (Some "doc@hillvalley.edu") None primary 10 10 (Some 25);
         mkContact 2 (Some "222") (Some "emmett@hillvalley.edu") (Some 1) secondary 22 22 None
       ] 3.

(** Soft-deletion comes from outside the service, which never writes the
    column: [deletedAt] of the row with the given id is set, or cleared
    again. *)
Definition setDeletedAt (i : Z) (d : option Z) (db : Db) : Db :=
  mkDb (map (fun c => if id c =? i
                      then mkContact (id c) (phoneNumber c) (email c) (linkedId c)
                                     (linkPrecedence c) (createdAt c) (updatedAt c) d
                      else c) (rows db))
       (nextId db).

(** A primary and the secondary that a second sighting of its email left
    under it; the primary was soft-deleted afterwards. *)
Definition strandedDb : Db :=
  mkDb [ mkContact 1 (Some "111") (Some "doc@hillvalley.edu") None primary 10 10 (Some 25);
         mkContact 2 None (Some "doc@hillvalley.edu") (Some 1) secondary 22 22 None
       ] 3.

(** Two clusters: George with one phone, Biff with another. *)
Definition hillValleyDb : Db :=
  mkDb [ mkContact 1 (Some "919191") (Some "george@hillvalley.edu") None primary 10 10 None;
         mkContact 2 (Some "717171") (Some "biffsucks@hillvalley.edu") None primary 20 20 None
       ] 3.

(** Two clusters, the younger one with a child: George alone, Biff with a
    second phone. *)
Definition familyDb : Db :=
  mkDb [ mkContact 1 (Some "919191") (Some "george@hillvalley.edu") None primary 10 10 None;
         mkContact 2 (Some "717171") (Some "biffsucks@hillvalley.edu") None primary 20 20 None;
         mkContact 3 (Some "555000") None (Some 2) secondary 30 30 None
       ] 4.

(** Attempts that meet no failure. *)
Definition calm : nat -> Attempt := fun k => quiet (100 + Z.of_nat k).

(** Every attempt loses its race and every re-query fails. *)
Definition stormy : nat -> Attempt := fun _ => mkAttempt 5 (Some P2002) true.

(* ------------------------------------------------------------------ *)
(** ** More invariants, and tables reached by serving requests *)

(** No row is soft-deleted. *)
Definition AllLive (rs : list Contact) : Prop :=
  forall c, In c rs -> deletedAt c = None.

(** A row is no older than the row its link names. *)
Definition Senior (rs : list Contact) : Prop :=
  forall c t, In c rs -> In t rs -> linkedId c = Some (id t) ->
    createdAt t <= createdAt c.

(** The columns no call ever rewrites. *)
Definition identityOf (c : Contact) :=
  (id c, email c, phoneNumber c, createdAt c, deletedAt c).

(** A row after a call, next to the row it was: the same identity, and
    still a secondary if it was one. *)
Definition keptAs (c c' : Contact) : Prop :=
  identityOf c' = identityOf c /\
  (linkPrecedence c = secondary -> linkPrecedence c' = secondary).

(** The table before the first request: no row, the sequence at 1. *)
Definition emptyTable : Db := mkDb [] 1.

(** The two requests that come before the soft-deletion in [strandedDb]. *)
Definition beforeStrandedDb : Db :=
  final (identify (fun _ => quiet 22)
           (final (identify (fun _ => quiet 10) emptyTable
                     (JsString "doc@hillvalley.edu") (JsString "111")))
           (JsString "doc@hillvalley.edu") JsNull).

(** One request as the controller receives it, with what its attempts
    meet. *)
Record Request : Type := mkRequest {
  reqEnv : nat -> Attempt;
  reqEmail : JsValue;
  reqPhone : JsValue
}.

(** The table after a sequence of requests, served one after the other. *)
Fixpoint serve (reqs : list Request) (db : Db) : Db :=
  match reqs with
  | [] => db
  | q :: t => serve t (final (identify (reqEnv q) db (reqEmail q) (reqPhone q)))
  end.

(* ------------------------------------------------------------------ *)
(** ** Predicates on strings *)

(** Every character of [s] passes [f]. *)
Fixpoint allChars (f : ascii -> bool) (s : string) : bool :=
  match s with
  | String c t => f c && allChars f t
  | EmptyString => true
  end.

(** A letter A-Z. *)
Definition isUpper (c : ascii) : bool :=
  let n := nat_of_ascii c in ((65 <=? n)%nat && (n <=? 90)%nat)%bool.

(** The first and the last character of a string, if any. *)
Definition firstChar (s : string) : option ascii :=
  match s with
  | String c _ => Some c
  | EmptyString => None
  end.

Fixpoint lastChar (s : string) : option ascii :=
  match s with
  | String c EmptyString => Some c
  | String _ t => lastChar t
  | EmptyString => None
  end.

Definition notWhiteSpace (o : option ascii) : bool :=
  match o with
  | Some c => negb (isWhiteSpace c)
  | None => true
  end.

(** Some character of [s] passes [f]. *)
Fixpoint anyChar (f : ascii -> bool) (s : string) : bool :=
  match s with
  | String c t => f c || anyChar f t
  | EmptyString => false
  end.

(* ------------------------------------------------------------------ *)
(** ** Regular expressions of [src/utils/validation.ts] *)

(** The fragment the file uses: character classes, sequence, repetition.
    [ReAlt] and [ReNone] only arise in derivatives. *)
Inductive Regex : Type :=
| ReNone
| ReEmpty
| ReClass (f : ascii -> bool)
| ReSeq (a b : Regex)
| ReAlt (a b : Regex)
| ReStar (a : Regex).

(** The strings a regular expression stands for. *)
Inductive lang : Regex -> string -> Prop :=
| lang_empty : lang ReEmpty ""
| lang_class f c : f c = true -> lang (ReClass f) (String c "")
| lang_seq a b s t : lang a s -> lang b t -> lang (ReSeq a b) (s ++ t)
| lang_alt_l a b s : lang a s -> lang (ReAlt a b) s
| lang_alt_r a b s : lang b s -> lang (ReAlt a b) s
| lang_star_nil a : lang (ReStar a) ""
| lang_star_cons a s t : lang a s -> lang (ReStar a) t -> lang (ReStar a) (s ++ t).

Fixpoint nullable (r : Regex) : bool :=
  match r with
  | ReNone => false
  | ReEmpty => true
  | ReClass _ => false
  | ReSeq a b => nullable a && nullable b
  | ReAlt a b => nullable a || nullable b
  | ReStar _ => true
  end.

(** What is left of [r] once [c] has been read. *)
Fixpoint derive (c : ascii) (r : Regex) : Regex :=
  match r with
  | ReNone => ReNone
  | ReEmpty => ReNone
  | ReClass f => if f c then ReEmpty else ReNone
  | ReSeq a b =>
      ReAlt (ReSeq (derive c a) b) (if nullable a then derive c b else ReNone)
  | ReAlt a b => ReAlt (derive c a) (derive c b)
  | ReStar a => ReSeq (derive c a) (ReStar a)
  end.

(** [/^r$/.test(s)] *)
Fixpoint matchesAll (r : Regex) (s : string) : bool :=
  match s with
  | EmptyString => nullable r
  | String c t => matchesAll (derive c r) t
  end.

(** [r+] *)
Definition rePlus (r : Regex) : Regex := ReSeq r (ReStar r).

Definition isChar (ch c : ascii) : bool := Ascii.eqb c ch.

(** [[^\s@]] *)
Definition notSpaceNorAt (c : ascii) : bool :=
  negb (isWhiteSpace c) && negb (isChar "@" c).

(** [/^[^\s@]+@[^\s@]+\.[^\s@]+$/] *)
Definition emailRegex : Regex :=
  ReSeq (rePlus (ReClass notSpaceNorAt))
    (ReSeq (ReClass (isChar "@"))
       (ReSeq (rePlus (ReClass notSpaceNorAt))
          (ReSeq (ReClass (isChar "."))
             (rePlus (ReClass notSpaceNorAt))))).

(** A part of an address: not empty, no white space, no [@]. *)
Definition addressPart (s : string) : Prop :=
  s <> "" /\ allChars notSpaceNorAt s = true.

(** [/\d/], which [test] may match anywhere in the string. *)
Definition digitSomewhere : Regex :=
  ReSeq (ReStar (ReClass (fun _ => true)))
    (ReSeq (ReClass isDigit) (ReStar (ReClass (fun _ => true)))).

(* ------------------------------------------------------------------ *)
(** ** Validation and the controller *)

(** [req.body ?? {}] with its two keys; a missing key reads [undefined]. *)
Record Body : Type := mkBody {
  bodyEmail : JsValue;
  bodyPhoneNumber : JsValue
}.

(** [!!v] *)
Definition jsTruthy (v : JsValue) : bool :=
  match v with
  | JsNull | JsUndefined => false
  | JsString s => negb (s =? "")%string
  | JsNumber n _ => negb (n =? 0)
  | JsBoolean b => b
  end.

(** The email block of [validateIdentifyRequest]: the message it returns,
    if any. *)
Definition validateEmail (email : JsValue) : option string :=
  match email with
  | JsUndefined => None
  | JsString s =>
      let trimmed := trim s in
      if (trimmed =? "")%string then Some "email cannot be empty"
      else if matchesAll emailRegex trimmed then None
      else Some "email is not a valid address"
  | _ => Some "email must be a string"
  end.

(** The phone block; [null.toString()] throws. *)
Definition validatePhone (phoneNumber : JsValue) : Result (option string) :=
  match phoneNumber with
  | JsUndefined => Ok None
  | JsNull => Err TypeError
  | v =>
      let pnString := trim (toString v) in
      if (pnString =? "")%string then Ok (Some "phoneNumber cannot be empty")
      else if matchesAll digitSomewhere pnString then Ok None
      else Ok (Some "phoneNumber must contain at least one digit")
  end.

Definition validateIdentifyRequest (body : Body) : Result (option string) :=
  if negb (jsTruthy (bodyEmail body)) && negb (jsTruthy (bodyPhoneNumber body))
  then Ok (Some "Either email or phoneNumber is required")
  else
    match validateEmail (bodyEmail body) with
    | Some message => Ok (Some message)
    | None => validatePhone (bodyPhoneNumber body)
    end.

(** What the controller does with the request: answer, or hand the error to
    the global handler of [src/index.ts]. *)
Inductive Reply : Type :=
| Reply200 (contact : Response)
| Reply400 (error : string)
| Reply503
| PassedOn (e : Failure).

(** The status the client sees; the global handler answers 500. *)
Definition statusOf (a : Reply) : Z :=
  match a with
  | Reply200 _ => 200
  | Reply400 _ => 400
  | Reply503 => 503
  | PassedOn _ => 500
  end.

(** The controller [identify] as a whole: validation, the call, and the
    mapping of what it catches. *)
Definition identifyHandler (env : nat -> Attempt) (db : Db) (body : Body)
    : Reply * Db :=
  match validateIdentifyRequest body with
  | Err e => (PassedOn e, db)
  | Ok (Some error) => (Reply400 error, db)
  | Ok None =>
      let run := identify env db (bodyEmail body) (bodyPhoneNumber body) in
      (match outcome run with
       | Ok contact => Reply200 contact
       | Err (DatabaseError _) => Reply503
       | Err e => PassedOn e
       end, final run)
  end.

(* ------------------------------------------------------------------ *)
(** ** Elementary facts *)

Lemma inIds_In (x : Z) (l : list Z) : inIds x l = true <-> In x l.
Proof.
  unfold inIds. rewrite existsb_exists. split.
  - intros [y [Hy Heq]]. apply Z.eqb_eq in Heq. now subst.
  - intros H. exists x. split; [assumption | apply Z.eqb_refl].
Qed.

Lemma inIds_false (x : Z) (l : list Z) : inIds x l = false <-> ~ In x l.
Proof.
  rewrite <- inIds_In. destruct (inIds x l); split; congruence.
Qed.

Lemma linkedIn_In (o : option Z) (l : list Z) :
  linkedIn o l = true <-> exists x, o = Some x /\ In x l.
Proof.
  destruct o as [x|]; simpl.
  - rewrite inIds_In. split.
    + intros H. now exists x.
    + intros [y [Hy Hin]]. now inversion Hy; subst.
  - split; [discriminate | intros [y [Hy _]]; discriminate].
Qed.

Lemma uniqueIds_In (x : Z) (l : list Z) : In x (uniqueIds l) <-> In x l.
Proof.
  induction l as [|y t IH]; simpl; [tauto|].
  rewrite filter_In, IH. split.
  - intros [H | [H _]]; auto.
  - intros [H | H]; auto.
    destruct (Z.eq_dec y x) as [E | NE]; [now left | right].
    split; [assumption|]. apply negb_true_iff, Z.eqb_neq. congruence.
Qed.

Lemma distinctIds_NoDup (l : list Z) : distinctIds l = true -> NoDup l.
Proof.
  induction l as [|x t IH]; simpl; intros H; constructor.
  - apply andb_true_iff in H. destruct H as [H _].
    apply negb_true_iff in H. now apply inIds_false.
  - apply andb_true_iff in H. tauto.
Qed.

Lemma insertByCreatedAt_perm (c : Contact) (l : list Contact) :
  Permutation (insertByCreatedAt c l) (c :: l).
Proof.
  induction l as [|x t IH]; simpl; [reflexivity|].
  destruct (createdAt c <=? createdAt x); [reflexivity|].
  rewrite IH. apply perm_swap.
Qed.

Lemma orderByCreatedAt_perm (l : list Contact) :
  Permutation (orderByCreatedAt l) l.
Proof.
  induction l as [|c t IH]; simpl; [reflexivity|].
  rewrite insertByCreatedAt_perm. now constructor.
Qed.

Lemma orderByCreatedAt_In (c : Contact) (l : list Contact) :
  In c (orderByCreatedAt l) <-> In c l.
Proof.
  split; apply Permutation_in;
    [apply orderByCreatedAt_perm | symmetry; apply orderByCreatedAt_perm].
Qed.

Lemma insertByCreatedAt_ascending (c : Contact) (l : list Contact) :
  ascending l -> ascending (insertByCreatedAt c l).
Proof.
  induction l as [|x t IH]; simpl; intros H.
  - split; [intros ? []| exact I].
  - destruct H as [Hx Ht].
    destruct (createdAt c <=? createdAt x) eqn:E.
    + apply Z.leb_le in E. simpl. repeat split; auto.
      intros d [<- | Hd]; [assumption|]. specialize (Hx d Hd). lia.
    + apply Z.leb_gt in E. simpl. split; [|auto].
      intros d Hd.
      apply (Permutation_in _ (insertByCreatedAt_perm c t)) in Hd.
      destruct Hd as [<- | Hd]; [lia | auto].
Qed.

Lemma orderByCreatedAt_ascending (l : list Contact) :
  ascending (orderByCreatedAt l).
Proof.
  induction l as [|c t IH]; simpl; [exact I|].
  now apply insertByCreatedAt_ascending.
Qed.

Lemma orderByCreatedAt_head (l : list Contact) (p : Contact) (t : list Contact) :
  orderByCreatedAt l = p :: t ->
  forall c, In c l -> createdAt p <= createdAt c.
Proof.
  intros E c Hc. pose proof (orderByCreatedAt_ascending l) as A.
  apply orderByCreatedAt_In in Hc. rewrite E in A, Hc.
  destruct A as [A _]. destruct Hc as [<- | Hc]; [lia | auto].
Qed.

Lemma wellFormedb_sound (db : Db) : wellFormedb db = true -> WellFormed db.
Proof.
  unfold wellFormedb. rewrite !andb_true_iff, !forallb_forall.
  intros [[[[Hn Hd] Hi] Hs] Hl]. constructor.
  - now apply Z.ltb_lt.
  - now apply distinctIds_NoDup.
  - intros c Hc. specialize (Hi c Hc). apply andb_true_iff in Hi.
    destruct Hi as [H1 H2]. apply Z.ltb_lt in H1, H2. lia.
  - intros c Hc Hsec. specialize (Hs c Hc). unfold isPrimary in Hs.
    rewrite Hsec in Hs. simpl in Hs. destruct (linkedId c); [discriminate | discriminate].
  - intros c l Hc Hlink. specialize (Hl c Hc). rewrite Hlink in Hl.
    apply existsb_exists in Hl. destruct Hl as [t [Ht Hp]].
    apply andb_true_iff in Hp. destruct Hp as [Hid Hp]. apply Z.eqb_eq in Hid.
    exists t. repeat split; try assumption.
    unfold isPrimary in Hp. destruct (linkPrecedence t); [reflexivity | discriminate].
Qed.

Lemma primariesLiveb_sound (rs : list Contact) :
  primariesLiveb rs = true -> PrimariesLive rs.
Proof.
  unfold primariesLiveb. rewrite forallb_forall.
  intros H c t Hc Ht Hlive Hlink. specialize (H c Hc).
  rewrite Hlive in H. simpl in H. rewrite forallb_forall in H.
  specialize (H t Ht). rewrite Hlink in H. simpl in H.
  rewrite Z.eqb_refl in H. simpl in H.
  destruct (deletedAt t); [discriminate | reflexivity].
Qed.

(** In a well-formed table an id names one row. *)
Lemma same_id_same_row (rs : list Contact) (a b : Contact) :
  NoDup (map id rs) -> In a rs -> In b rs -> id a = id b -> a = b.
Proof.
  induction rs as [|x t IH]; simpl; intros Hnd Ha Hb E; [contradiction|].
  inversion Hnd as [|? ? Hx Ht]; subst.
  destruct Ha as [<- | Ha], Hb as [<- | Hb]; auto.
  - exfalso. apply Hx. rewrite E. now apply in_map.
  - exfalso. apply Hx. rewrite <- E. now apply in_map.
Qed.

Lemma wellFormed_flat (db : Db) : WellFormed db -> Flat (rows db).
Proof.
  intros WF c t Hc Ht Hlink.
  destruct (wf_link db WF c (id t) Hc Hlink) as [u [Hu [Hid Hp]]].
  now rewrite (same_id_same_row (rows db) t u (wf_nodup db WF) Ht Hu (eq_sym Hid)).
Qed.

(* ------------------------------------------------------------------ *)
(** ** The two bulk updates, row by row *)

Lemma mergeRows_map (oids : list Z) (pid now : Z) (rs : list Contact) :
  mergeRows oids pid now rs = map (mergeRow oids pid now) rs.
Proof.
  unfold mergeRows, demotePrimaries, relinkChildren.
  destruct oids as [|o oids'].
  - rewrite <- (map_id rs) at 1. apply map_ext. intros c.
    unfold mergeRow, demoteRow, relinkRow. simpl.
    now destruct (linkedId c).
  - now rewrite map_map.
Qed.

Lemma mergeRow_id oids pid now c : id (mergeRow oids pid now c) = id c.
Proof.
  unfold mergeRow, demoteRow, relinkRow.
  destruct (linkedIn (linkedId c) oids); simpl; destruct (inIds (id c) oids); reflexivity.
Qed.

Lemma mergeRow_email oids pid now c : email (mergeRow oids pid now c) = email c.
Proof.
  unfold mergeRow, demoteRow, relinkRow.
  destruct (linkedIn (linkedId c) oids); simpl; destruct (inIds (id c) oids); reflexivity.
Qed.

Lemma mergeRow_phoneNumber oids pid now c :
  phoneNumber (mergeRow oids pid now c) = phoneNumber c.
Proof.
  unfold mergeRow, demoteRow, relinkRow.
  destruct (linkedIn (linkedId c) oids); simpl; destruct (inIds (id c) oids); reflexivity.
Qed.

Lemma mergeRow_deletedAt oids pid now c :
  deletedAt (mergeRow oids pid now c) = deletedAt c.
Proof.
  unfold mergeRow, demoteRow, relinkRow.
  destruct (linkedIn (linkedId c) oids); simpl; destruct (inIds (id c) oids); reflexivity.
Qed.

Lemma mergeRow_createdAt oids pid now c :
  createdAt (mergeRow oids pid now c) = createdAt c.
Proof.
  unfold mergeRow, demoteRow, relinkRow.
  destruct (linkedIn (linkedId c) oids); simpl; destruct (inIds (id c) oids); reflexivity.
Qed.

Lemma mergeRow_linkPrecedence oids pid now c :
  linkPrecedence (mergeRow oids pid now c) =
  if inIds (id c) oids then secondary else linkPrecedence c.
Proof.
  unfold mergeRow, demoteRow, relinkRow.
  destruct (linkedIn (linkedId c) oids); simpl; destruct (inIds (id c) oids); reflexivity.
Qed.

Lemma mergeRow_linkedId oids pid now c :
  linkedId (mergeRow oids pid now c) =
  if inIds (id c) oids || linkedIn (linkedId c) oids then Some pid else linkedId c.
Proof.
  unfold mergeRow, demoteRow, relinkRow.
  destruct (linkedIn (linkedId c) oids); simpl; destruct (inIds (id c) oids); reflexivity.
Qed.

Lemma mergeRows_ids oids pid now rs :
  map id (mergeRows oids pid now rs) = map id rs.
Proof.
  rewrite mergeRows_map, map_map. apply map_ext. intros c. apply mergeRow_id.
Qed.

(* ------------------------------------------------------------------ *)
(** ** The matched path, step by step *)

Lemma transaction_matched now em ph db p others :
  findMatches em ph (rows db) <> [] ->
  primaryRecordsOf em ph db = p :: others ->
  transaction now em ph db =
  decideNewInformation now em ph (id p) (clusterOf now em ph db)
    (mkDb (mergedRowsOf now em ph db) (nextId db)).
Proof.
  intros Hm Hp. unfold transaction, clusterOf, mergedRowsOf.
  unfold primaryRecordsOf, candidateIdsOf in *.
  destruct (findMatches em ph (rows db)) as [|m ms]; [congruence|].
  now rewrite Hp.
Qed.

Lemma findMatches_In em ph rs m :
  In m (findMatches em ph rs) <->
  In m rs /\ deletedAt m = None /\ anyClause (matchClauses em ph) m = true.
Proof.
  unfold findMatches. rewrite filter_In, andb_true_iff.
  destruct (deletedAt m); simpl; intuition congruence.
Qed.

Lemma findPrimaryRecords_In ids rs c :
  In c (findPrimaryRecords ids rs) <-> In c rs /\ In (id c) ids.
Proof.
  unfold findPrimaryRecords.
  now rewrite orderByCreatedAt_In, filter_In, inIds_In.
Qed.

Lemma findCluster_In rootIds rs c :
  In c (findCluster rootIds rs) <->
  In c rs /\ deletedAt c = None /\
  (In (id c) rootIds \/ exists l, linkedId c = Some l /\ In l rootIds).
Proof.
  unfold findCluster.
  rewrite filter_In, andb_true_iff, orb_true_iff, inIds_In, linkedIn_In.
  destruct (deletedAt c); simpl; intuition congruence.
Qed.

Lemma candidatePrimaryId_cases (m : Contact) :
  (linkPrecedence m = secondary /\ linkedId m = Some (candidatePrimaryId m) /\
   candidatePrimaryId m <> 0) \/
  (candidatePrimaryId m = id m /\
   (linkPrecedence m = primary \/ linkedId m = None \/ linkedId m = Some 0)).
Proof.
  unfold candidatePrimaryId.
  destruct (linkPrecedence m); [right; auto|].
  destruct (linkedId m) as [l|]; [|right; auto]. simpl.
  destruct (Z.eqb_spec l 0); simpl; [right; subst; auto | left; auto].
Qed.

(** In a well-formed table the id a row stands for is the id of a primary
    that is there. *)
Lemma candidate_primary (db : Db) (m : Contact) :
  WellFormed db -> In m (rows db) ->
  exists t, In t (rows db) /\ id t = candidatePrimaryId m /\
            linkPrecedence t = primary /\
            (t = m \/ linkedId m = Some (id t)).
Proof.
  intros WF Hm.
  destruct (candidatePrimaryId_cases m) as [[Hs [Hl Hnz]] | [Hc Hk]].
  - destruct (wf_link db WF m _ Hm Hl) as [t [Ht [Hid Hp]]].
    exists t. repeat split; auto. right. now rewrite Hid.
  - destruct (linkPrecedence m) eqn:Hprec.
    + exists m. repeat split; auto.
    + exfalso. destruct Hk as [Hk | [Hk | Hk]]; [discriminate | |].
      * now apply (wf_secondary db WF m Hm Hprec).
      * destruct (wf_link db WF m 0 Hm Hk) as [t [Ht [Hid _]]].
        pose proof (wf_ids db WF t Ht). lia.
Qed.

Lemma NoDup_ids_filter (f : Contact -> bool) (rs : list Contact) :
  NoDup (map id rs) -> NoDup (map id (filter f rs)).
Proof.
  induction rs as [|c t IH]; simpl; intros H; [constructor|].
  inversion H as [|? ? Hc Ht]; subst.
  destruct (f c); simpl; [constructor|]; auto.
  intros Hin. apply Hc. apply in_map_iff in Hin. destruct Hin as [x [Hx Hin]].
  apply filter_In in Hin. apply in_map_iff. exists x. tauto.
Qed.

Lemma findPrimaryRecords_NoDup ids rs :
  NoDup (map id rs) -> NoDup (map id (findPrimaryRecords ids rs)).
Proof.
  intros H. unfold findPrimaryRecords.
  eapply Permutation_NoDup.
  - apply Permutation_map. symmetry. apply orderByCreatedAt_perm.
  - now apply NoDup_ids_filter.
Qed.

(** What steps 3 and 4 find in a well-formed table that has a match. *)
Lemma primaryRecords_shape em ph db :
  WellFormed db -> findMatches em ph (rows db) <> [] ->
  exists p others,
    primaryRecordsOf em ph db = p :: others /\
    In p (rows db) /\ linkPrecedence p = primary /\
    ~ In (id p) (map id others).
Proof.
  intros WF Hm.
  destruct (findMatches em ph (rows db)) as [|m ms] eqn:E; [congruence|].
  assert (Hin : In m (findMatches em ph (rows db))) by (rewrite E; now left).
  pose proof Hin as Hrow. apply findMatches_In in Hrow. destruct Hrow as [Hrow _].
  destruct (candidate_primary db m WF Hrow) as [t [Ht [Hid _]]].
  assert (Hrec : In t (primaryRecordsOf em ph db)).
  { apply findPrimaryRecords_In. split; [assumption|].
    apply uniqueIds_In. rewrite Hid. now apply in_map. }
  destruct (primaryRecordsOf em ph db) as [|p others] eqn:R; [contradiction|].
  exists p, others. split; [reflexivity|].
  assert (Hp : In p (primaryRecordsOf em ph db)) by (rewrite R; now left).
  apply findPrimaryRecords_In in Hp. destruct Hp as [Hp Hcand].
  split; [assumption|]. split.
  - apply uniqueIds_In, in_map_iff in Hcand. destruct Hcand as [x [Hx Hxin]].
    rewrite E in Hxin. fold (In x (m :: ms)) in Hxin. rewrite <- E in Hxin.
    apply findMatches_In in Hxin. destruct Hxin as [Hxrow _].
    destruct (candidate_primary db x WF Hxrow) as [u [Hu [Huid [Hprim _]]]].
    rewrite (same_id_same_row (rows db) p u (wf_nodup db WF) Hp Hu); [assumption|].
    congruence.
  - pose proof (findPrimaryRecords_NoDup (candidateIdsOf em ph db) (rows db)
                  (wf_nodup db WF)) as ND.
    fold (primaryRecordsOf em ph db) in ND. rewrite R in ND. simpl in ND.
    now inversion ND.
Qed.

(** Every row of [primaryRecordsOf] is a row of the table that some match
    stands for. *)
Lemma primaryRecords_In em ph db c :
  In c (primaryRecordsOf em ph db) <->
  In c (rows db) /\
  exists m, In m (findMatches em ph (rows db)) /\ candidatePrimaryId m = id c.
Proof.
  unfold primaryRecordsOf, candidateIdsOf.
  rewrite findPrimaryRecords_In, uniqueIds_In, in_map_iff.
  split; intros [H [m [H1 H2]]]; (split; [assumption | exists m; tauto]).
Qed.

(* ------------------------------------------------------------------ *)
(** ** When the transaction goes through *)

Lemma emptyToNull_truthy (s : string) :
  truthy (emptyToNull s) = negb (isNull (emptyToNull s)).
Proof.
  unfold emptyToNull. destruct (s =? "")%string eqn:E; simpl; [reflexivity|].
  now rewrite E.
Qed.

Lemma normalizeEmail_truthy (v : JsValue) :
  truthy (normalizeEmail v) = negb (isNull (normalizeEmail v)).
Proof. destruct v; simpl; try reflexivity. apply emptyToNull_truthy. Qed.

Lemma normalizePhone_truthy (v : JsValue) :
  truthy (normalizePhone v) = negb (isNull (normalizePhone v)).
Proof. destruct v; simpl; try reflexivity; apply emptyToNull_truthy. Qed.

(** With one identifier present the guard at the top of [processContact]
    lets the call through. *)
Lemma guard_passes (em ph : option string) :
  truthy em || truthy ph = true -> negb (truthy em) && negb (truthy ph) = false.
Proof. destruct (truthy em), (truthy ph); simpl; congruence. Qed.

Lemma some_identifier (rawEmail rawPhone : JsValue) :
  normalizeEmail rawEmail <> None \/ normalizePhone rawPhone <> None ->
  truthy (normalizeEmail rawEmail) || truthy (normalizePhone rawPhone) = true.
Proof.
  rewrite normalizeEmail_truthy, normalizePhone_truthy.
  intros [H | H]; destruct (normalizeEmail rawEmail), (normalizePhone rawPhone);
    simpl; congruence.
Qed.

Lemma buildResponse_found (pid : Z) (chain : list Contact) :
  (exists c, In c chain /\ id c = pid) ->
  exists r, buildResponse pid chain = Ok r /\
            primaryContactId r = pid /\
            secondaryContactIds r =
              map id (filter (fun c => negb (id c =? pid)) chain).
Proof.
  intros [c [Hc Hid]]. unfold buildResponse.
  destruct (find (fun c0 => id c0 =? pid) chain) as [p|] eqn:F.
  - eexists. repeat split.
  - exfalso. pose proof (find_none _ _ F c Hc) as H. simpl in H.
    apply Z.eqb_neq in H. contradiction.
Qed.

(** A row with an empty column never meets the unique constraint. *)
Lemma create_partial now em ph prec lid db :
  em = None \/ ph = None ->
  create now em ph prec lid db =
  Ok (mkDb (rows db ++ [mkContact (nextId db) ph em lid prec now now None])
           (nextId db + 1),
      mkContact (nextId db) ph em lid prec now now None).
Proof.
  intros H. unfold create.
  replace (uniqueViolation (rows db) em ph) with false; [reflexivity|].
  destruct H; subst; [reflexivity | now destruct em].
Qed.

Lemma attachSecondary_partial now em ph pid cluster db :
  (exists c, In c cluster /\ id c = pid) ->
  em = None \/ ph = None ->
  exists r,
    attachSecondary now em ph pid cluster db =
    Ok (mkDb (rows db ++ [mkContact (nextId db) ph em (Some pid) secondary now now None])
             (nextId db + 1), r) /\
    primaryContactId r = pid.
Proof.
  intros [c [Hc Hid]] Hpart. unfold attachSecondary.
  rewrite (create_partial _ _ _ _ _ _ Hpart). simpl.
  destruct (buildResponse_found pid
              (cluster ++ [mkContact (nextId db) ph em (Some pid) secondary now now None]))
    as [r [Hr [Hp _]]].
  { exists c. split; [apply in_or_app; now left | assumption]. }
  rewrite Hr. simpl. now exists r.
Qed.

(** The true primary of a match is live when no live row hangs under a
    deleted one. *)
Lemma primaryRecords_live em ph db c :
  WellFormed db -> PrimariesLive (rows db) ->
  In c (primaryRecordsOf em ph db) -> deletedAt c = None.
Proof.
  intros WF Live Hc. apply primaryRecords_In in Hc.
  destruct Hc as [Hrow [m [Hm Hcand]]].
  apply findMatches_In in Hm. destruct Hm as [Hmrow [Hlive _]].
  destruct (candidate_primary db m WF Hmrow) as [t [Ht [Hid [_ Hrel]]]].
  assert (t = c) as ->.
  { apply (same_id_same_row (rows db)); auto using wf_nodup. congruence. }
  destruct Hrel as [-> | Hlink]; [assumption|].
  now apply (Live m c).
Qed.

Lemma mergedRowsOf_eq now em ph db p others :
  primaryRecordsOf em ph db = p :: others ->
  mergedRowsOf now em ph db = map (mergeRow (map id others) (id p) now) (rows db).
Proof.
  intros R. unfold mergedRowsOf. rewrite R. apply mergeRows_map.
Qed.

Lemma mergedRowsOf_ids now em ph db :
  map id (mergedRowsOf now em ph db) = map id (rows db).
Proof.
  unfold mergedRowsOf. destruct (primaryRecordsOf em ph db); [reflexivity|].
  apply mergeRows_ids.
Qed.

(** The true primary is in the cluster that step 6 fetches. *)
Lemma primary_in_cluster now em ph db p others :
  WellFormed db -> PrimariesLive (rows db) ->
  primaryRecordsOf em ph db = p :: others ->
  exists c, In c (clusterOf now em ph db) /\ id c = id p.
Proof.
  intros WF Live R.
  assert (Hp : In p (primaryRecordsOf em ph db)) by (rewrite R; now left).
  pose proof (primaryRecords_live em ph db p WF Live Hp) as Hlive.
  apply primaryRecords_In in Hp. destruct Hp as [Hrow _].
  exists (mergeRow (map id others) (id p) now p). split; [|apply mergeRow_id].
  unfold clusterOf. apply findCluster_In. split; [|split].
  - rewrite (mergedRowsOf_eq now em ph db p others R). now apply in_map.
  - now rewrite mergeRow_deletedAt.
  - left. rewrite mergeRow_id, R. now left.
Qed.

Lemma processContact_committed n env k db rawEmail rawPhone db' r :
  truthy (normalizeEmail rawEmail) || truthy (normalizePhone rawPhone) = true ->
  txFault (env k) = None ->
  transaction (clock (env k)) (normalizeEmail rawEmail) (normalizePhone rawPhone) db
    = Ok (db', r) ->
  processContact n env k db rawEmail rawPhone = mkRun (Ok r) db' 1.
Proof.
  intros Ht Hq Htx.
  pose proof (guard_passes _ _ Ht) as G.
  destruct n; simpl; rewrite G; unfold runTransaction; rewrite Hq, Htx; reflexivity.
Qed.

(* ------------------------------------------------------------------ *)
(** ** The new-information decision *)

(** The single-identifier branch on a well-formed table with no live row
    under a soft-deleted one: a request with exactly one identifier that
    matches an existing cluster always creates exactly one new secondary,
    carrying that identifier alone and linked to the true primary, whether or
    not the value is already in the cluster. *)
Theorem single_identifier_always_attaches :
  forall n env k db rawEmail rawPhone,
    WellFormed db -> PrimariesLive (rows db) ->
    txFault (env k) = None ->
    (normalizeEmail rawEmail <> None /\ normalizePhone rawPhone = None) \/
    (normalizeEmail rawEmail = None /\ normalizePhone rawPhone <> None) ->
    findMatches (normalizeEmail rawEmail) (normalizePhone rawPhone) (rows db) <> [] ->
    let em := normalizeEmail rawEmail in
    let ph := normalizePhone rawPhone in
    let now := clock (env k) in
    exists p others r,
      primaryRecordsOf em ph db = p :: others /\
      processContact n env k db rawEmail rawPhone =
        mkRun (Ok r)
              (mkDb (mergedRowsOf now em ph db ++ [newSecondary db now em ph (id p)])
                    (nextId db + 1)) 1 /\
      primaryContactId r = id p /\
      map id (mergedRowsOf now em ph db) = map id (rows db).
Proof.
  intros n env k db rawEmail rawPhone WF Live Hq Hone Hm em ph now.
  destruct (primaryRecords_shape em ph db WF Hm) as [p [others [R _]]].
  destruct (primary_in_cluster now em ph db p others WF Live R) as [c Hc].
  pose proof (normalizeEmail_truthy rawEmail) as Te.
  pose proof (normalizePhone_truthy rawPhone) as Tp.
  fold em in Te. fold ph in Tp.
  assert (Hpart : em = None \/ ph = None) by (destruct Hone; tauto).
  destruct (attachSecondary_partial now em ph (id p) (clusterOf now em ph db)
              (mkDb (mergedRowsOf now em ph db) (nextId db))
              (ex_intro _ c Hc) Hpart) as [r [Hr Hpid]].
  exists p, others, r. split; [exact R|]. split; [|split].
  - apply processContact_committed; auto.
    + fold em ph. rewrite Te, Tp.
      destruct Hone as [[H1 H2] | [H1 H2]]; fold em in H1; fold ph in H2;
        destruct em, ph; simpl; congruence.
    + fold em ph now. rewrite (transaction_matched now em ph db p others Hm R).
      unfold decideNewInformation. rewrite Te, Tp.
      destruct Hone as [[H1 H2] | [H1 H2]]; fold em in H1; fold ph in H2.
      * destruct em as [e|]; [|congruence]. rewrite H2 in *. simpl. exact Hr.
      * destruct ph as [q|]; [|congruence]. rewrite H1 in *. simpl. exact Hr.
  - exact Hpid.
  - apply mergedRowsOf_ids.
Qed.

(** A matched row is in the cluster that step 6 fetches. *)
Lemma match_in_cluster now em ph db p others m :
  WellFormed db ->
  primaryRecordsOf em ph db = p :: others ->
  In m (findMatches em ph (rows db)) ->
  In (mergeRow (map id others) (id p) now m) (clusterOf now em ph db).
Proof.
  intros WF R Hm. pose proof Hm as Hm'.
  apply findMatches_In in Hm'. destruct Hm' as [Hrow [Hlive _]].
  destruct (candidate_primary db m WF Hrow) as [t [Ht [Hid [_ Hrel]]]].
  assert (Hroot : In (id t) (map id (primaryRecordsOf em ph db))).
  { apply in_map. apply primaryRecords_In. split; [assumption|]. now exists m. }
  unfold clusterOf. apply findCluster_In. split; [|split].
  - rewrite (mergedRowsOf_eq now em ph db p others R). now apply in_map.
  - now rewrite mergeRow_deletedAt.
  - destruct Hrel as [-> | Hlink]; [left; now rewrite mergeRow_id|].
    right. rewrite mergeRow_linkedId.
    destruct (inIds (id m) (map id others) || linkedIn (linkedId m) (map id others)).
    + exists (id p). split; [reflexivity|]. rewrite R. now left.
    + exists (id t). now split.
Qed.

Lemma anyClause_matchClauses em ph c :
  anyClause (matchClauses em ph) c = true ->
  (truthy em = true /\ strictEq (email c) em = true) \/
  (truthy ph = true /\ strictEq (phoneNumber c) ph = true).
Proof.
  unfold anyClause, matchClauses. rewrite existsb_app, orb_true_iff.
  intros [H | H]; [left | right].
  - destruct em as [e|]; [|discriminate]. destruct (truthy (Some e)); [|discriminate].
    simpl in H. rewrite orb_false_r in H. split; [reflexivity|].
    unfold fieldEquals in H. unfold strictEq. now destruct (email c).
  - destruct ph as [q|]; [|discriminate]. destruct (truthy (Some q)); [|discriminate].
    simpl in H. rewrite orb_false_r in H. split; [reflexivity|].
    unfold fieldEquals in H. unfold strictEq. now destruct (phoneNumber c).
Qed.

(** With a match in a well-formed table, one of the two values is already in
    the cluster. *)
Lemma cluster_has_one now em ph db :
  WellFormed db -> findMatches em ph (rows db) <> [] ->
  hasEmail em (clusterOf now em ph db) || hasPhone ph (clusterOf now em ph db) = true.
Proof.
  intros WF Hm.
  destruct (primaryRecords_shape em ph db WF Hm) as [p [others [R _]]].
  destruct (findMatches em ph (rows db)) as [|m ms] eqn:E; [congruence|].
  assert (Hin : In m (findMatches em ph (rows db))) by (rewrite E; now left).
  pose proof (match_in_cluster now em ph db p others m WF R Hin) as Hc.
  apply findMatches_In in Hin. destruct Hin as [_ [_ Hany]].
  apply orb_true_iff. unfold hasEmail, hasPhone.
  destruct (anyClause_matchClauses em ph m Hany) as [[Ht He] | [Ht Hp]]; [left | right];
    rewrite Ht; simpl; apply existsb_exists;
    exists (mergeRow (map id others) (id p) now m); (split; [assumption|]).
  - now rewrite mergeRow_email.
  - now rewrite mergeRow_phoneNumber.
Qed.

(** The new-information decision on a well-formed table with no live row
    under a soft-deleted one: for a request with both identifiers that
    matches an existing cluster, nothing is created when both values are
    already in the consolidated cluster; otherwise exactly one secondary is
    created, linked to the true primary, with only the values that were
    missing (the column of the value already there is left null). *)
Theorem both_identifiers_only_new_information :
  forall n env k db rawEmail rawPhone,
    WellFormed db -> PrimariesLive (rows db) ->
    txFault (env k) = None ->
    normalizeEmail rawEmail <> None -> normalizePhone rawPhone <> None ->
    findMatches (normalizeEmail rawEmail) (normalizePhone rawPhone) (rows db) <> [] ->
    let em := normalizeEmail rawEmail in
    let ph := normalizePhone rawPhone in
    let now := clock (env k) in
    let cluster := clusterOf now em ph db in
    exists p others r,
      primaryRecordsOf em ph db = p :: others /\
      primaryContactId r = id p /\
      map id (mergedRowsOf now em ph db) = map id (rows db) /\
      processContact n env k db rawEmail rawPhone =
        if hasEmail em cluster && hasPhone ph cluster
        then mkRun (Ok r) (mkDb (mergedRowsOf now em ph db) (nextId db)) 1
        else mkRun (Ok r)
               (mkDb (mergedRowsOf now em ph db ++
                      [newSecondary db now
                         (if hasEmail em cluster then None else em)
                         (if hasPhone ph cluster then None else ph)
                         (id p)])
                     (nextId db + 1)) 1.
Proof.
  intros n env k db rawEmail rawPhone WF Live Hq He Hp Hm em ph now cluster.
  destruct (primaryRecords_shape em ph db WF Hm) as [p [others [R _]]].
  destruct (primary_in_cluster now em ph db p others WF Live R) as [c Hc].
  pose proof (normalizeEmail_truthy rawEmail) as Te.
  pose proof (normalizePhone_truthy rawPhone) as Tp.
  pose proof (cluster_has_one now em ph db WF Hm) as Hone.
  fold em in Te, He. fold ph in Tp, Hp. fold cluster in Hone, Hc.
  assert (Te' : truthy em = true) by (rewrite Te; now destruct em).
  assert (Tp' : truthy ph = true) by (rewrite Tp; now destruct ph).
  assert (Htx : transaction now em ph db =
                decideNewInformation now em ph (id p) cluster
                  (mkDb (mergedRowsOf now em ph db) (nextId db)))
    by (apply (transaction_matched now em ph db p others Hm R)).
  unfold decideNewInformation, needEmailLink, needPhoneLink in Htx.
  rewrite Te', Tp' in Htx. simpl in Htx.
  destruct (hasEmail em cluster) eqn:HE, (hasPhone ph cluster) eqn:HP;
    simpl in Htx; try discriminate.
  - destruct (buildResponse_found (id p) cluster (ex_intro _ c Hc)) as [r [Hr [Hpid _]]].
    rewrite Hr in Htx. simpl in Htx.
    exists p, others, r. repeat split; auto using mergedRowsOf_ids.
    apply processContact_committed; auto. fold em. now rewrite Te'.
  - destruct (attachSecondary_partial now None ph (id p) cluster
                (mkDb (mergedRowsOf now em ph db) (nextId db))
                (ex_intro _ c Hc) (or_introl eq_refl)) as [r [Hr Hpid]].
    rewrite Hr in Htx.
    exists p, others, r. repeat split; auto using mergedRowsOf_ids.
    apply processContact_committed; auto. fold em. now rewrite Te'.
  - destruct (attachSecondary_partial now em None (id p) cluster
                (mkDb (mergedRowsOf now em ph db) (nextId db))
                (ex_intro _ c Hc) (or_intror eq_refl)) as [r [Hr Hpid]].
    rewrite Hr in Htx.
    exists p, others, r. repeat split; auto using mergedRowsOf_ids.
    apply processContact_committed; auto. fold em. now rewrite Te'.
Qed.

(* ------------------------------------------------------------------ *)
(** ** The primary resolver and the merge *)

(** On the matched path of a well-formed table the transaction commits the
    merged rows, with at most one new secondary under the true primary. *)
Lemma matched_transaction_commits now em ph db p others :
  WellFormed db -> PrimariesLive (rows db) ->
  truthy em || truthy ph = true ->
  findMatches em ph (rows db) <> [] ->
  primaryRecordsOf em ph db = p :: others ->
  exists r extra next,
    transaction now em ph db =
      Ok (mkDb (mergedRowsOf now em ph db ++ extra) next, r) /\
    primaryContactId r = id p /\
    (extra = [] /\ next = nextId db \/
     exists e q, extra = [newSecondary db now e q (id p)] /\ next = nextId db + 1).
Proof.
  intros WF Live Ht Hm R.
  destruct (primary_in_cluster now em ph db p others WF Live R) as [c Hc].
  pose proof (cluster_has_one now em ph db WF Hm) as Hone.
  rewrite (transaction_matched now em ph db p others Hm R).
  set (cluster := clusterOf now em ph db) in *.
  set (db1 := mkDb (mergedRowsOf now em ph db) (nextId db)).
  assert (Att : forall e q, e = None \/ q = None ->
            exists r extra next,
              attachSecondary now e q (id p) cluster db1 =
                Ok (mkDb (mergedRowsOf now em ph db ++ extra) next, r) /\
              primaryContactId r = id p /\
              (extra = [] /\ next = nextId db \/
               exists e' q', extra = [newSecondary db now e' q' (id p)] /\
                             next = nextId db + 1)).
  { intros e q Hpart.
    destruct (attachSecondary_partial now e q (id p) cluster db1
                (ex_intro _ c Hc) Hpart) as [r [Hr Hpid]].
    exists r, [newSecondary db now e q (id p)], (nextId db + 1).
    split; [exact Hr|]. split; [exact Hpid|]. right. now exists e, q. }
  unfold decideNewInformation, needEmailLink, needPhoneLink.
  destruct (truthy em) eqn:Te, (truthy ph) eqn:Tp; simpl in *; try discriminate.
  - destruct (hasEmail em cluster) eqn:HE, (hasPhone ph cluster) eqn:HP;
      simpl in *; try discriminate; try (apply Att; auto).
    destruct (buildResponse_found (id p) cluster (ex_intro _ c Hc)) as [r [Hr [Hpid _]]].
    rewrite Hr. simpl. exists r, [], (nextId db). rewrite app_nil_r. auto.
  - apply Att; auto.
  - apply Att; auto.
Qed.

(** C1, as stated, fails: with equal [createdAt] the query's order decides,
    not the id.  Both rows are candidates of the request; the words of the
    spec select id 1, the code answers with id 2 and demotes id 1. *)
Lemma true_primary_tie_counterexample :
  let em := normalizeEmail (JsString "a@x.io") in
  let ph := normalizePhone (JsString "111") in
  let run := identify (fun _ => quiet 50) tieDb (JsString "a@x.io") (JsString "111") in
  wellFormedb tieDb = true /\
  map id (primaryRecordsOf em ph tieDb) = [2; 1] /\
  option_map id (specTruePrimary (primaryRecordsOf em ph tieDb)) = Some 1 /\
  option_map primaryContactId
    (match outcome run with Ok r => Some r | Err _ => None end) = Some 2 /\
  map (fun c => (id c, linkPrecedence c, linkedId c)) (rows (final run)) =
    [(2, primary, None); (1, secondary, Some 2)].
Proof. vm_compute. repeat split. Qed.

(** C1 (amended): on the matched path the candidates are the rows whose id
    some match stands for; the call answers with one of them that no
    candidate is older than, and leaves every other candidate a secondary
    linked to it. *)
Theorem true_primary_is_oldest_candidate :
  forall n env k db rawEmail rawPhone,
    WellFormed db -> PrimariesLive (rows db) ->
    txFault (env k) = None ->
    normalizeEmail rawEmail <> None \/ normalizePhone rawPhone <> None ->
    findMatches (normalizeEmail rawEmail) (normalizePhone rawPhone) (rows db) <> [] ->
    let em := normalizeEmail rawEmail in
    let ph := normalizePhone rawPhone in
    let run := processContact n env k db rawEmail rawPhone in
    exists p others r,
      primaryRecordsOf em ph db = p :: others /\
      (forall c, In c (p :: others) <->
                 In c (rows db) /\ In (id c) (candidateIdsOf em ph db)) /\
      (forall c, In c (p :: others) -> createdAt p <= createdAt c) /\
      outcome run = Ok r /\ primaryContactId r = id p /\
      (forall t, In t (rows (final run)) -> id t = id p ->
                 linkPrecedence t = primary) /\
      (forall o, In o others ->
         exists o', In o' (rows (final run)) /\ id o' = id o /\
                    linkPrecedence o' = secondary /\ linkedId o' = Some (id p)).
Proof.
  intros n env k db rawEmail rawPhone WF Live Hq Hsome Hm em ph run.
  destruct (primaryRecords_shape em ph db WF Hm) as [p [others [R [Hrow [Hprim Hfresh]]]]].
  pose proof (some_identifier rawEmail rawPhone Hsome) as Ht. fold em ph in Ht.
  destruct (matched_transaction_commits (clock (env k)) em ph db p others
              WF Live Ht Hm R) as [r [extra [next [Htx [Hpid Hextra]]]]].
  assert (Hrun : run = mkRun (Ok r)
            (mkDb (mergedRowsOf (clock (env k)) em ph db ++ extra) next) 1)
    by (apply processContact_committed; auto).
  exists p, others, r. split; [exact R|]. split; [|split; [|split; [|split; [|split]]]].
  - intros c. rewrite <- R. unfold primaryRecordsOf. apply findPrimaryRecords_In.
  - intros c Hc. unfold primaryRecordsOf, findPrimaryRecords in R.
    apply (orderByCreatedAt_head _ _ _ R).
    rewrite <- R in Hc. exact (proj1 (orderByCreatedAt_In _ _) Hc).
  - now rewrite Hrun.
  - exact Hpid.
  - rewrite Hrun. simpl. intros t Ht' Hid. apply in_app_or in Ht'.
    destruct Ht' as [Ht' | Ht'].
    + rewrite (mergedRowsOf_eq _ em ph db p others R) in Ht'.
      apply in_map_iff in Ht'. destruct Ht' as [c [<- Hc]].
      rewrite mergeRow_id in Hid.
      rewrite (same_id_same_row (rows db) c p (wf_nodup db WF) Hc Hrow Hid).
      rewrite mergeRow_linkPrecedence.
      replace (inIds (id p) (map id others)) with false; [assumption|].
      symmetry. now apply inIds_false.
    + exfalso. destruct Hextra as [[-> _] | [e [q' [-> _]]]]; [contradiction|].
      destruct Ht' as [<- | []]. simpl in Hid.
      pose proof (wf_ids db WF p Hrow). lia.
  - intros o Ho. rewrite Hrun. simpl.
    assert (Horow : In o (rows db)).
    { assert (H : In o (primaryRecordsOf em ph db)) by (rewrite R; now right).
      now apply primaryRecords_In in H. }
    exists (mergeRow (map id others) (id p) (clock (env k)) o).
    split; [|split; [apply mergeRow_id | split]].
    + apply in_or_app. left.
      rewrite (mergedRowsOf_eq _ em ph db p others R). now apply in_map.
    + rewrite mergeRow_linkPrecedence.
      replace (inIds (id o) (map id others)) with true; [reflexivity|].
      symmetry. apply inIds_In. now apply in_map.
    + rewrite mergeRow_linkedId.
      replace (inIds (id o) (map id others)) with true; [reflexivity|].
      symmetry. apply inIds_In. now apply in_map.
Qed.

(* ------------------------------------------------------------------ *)
(** ** The invariants are kept *)

Lemma wf_add_row (db : Db) (c : Contact) :
  WellFormed db ->
  id c = nextId db ->
  (linkPrecedence c = secondary -> linkedId c <> None) ->
  (forall l, linkedId c = Some l ->
     exists t, In t (rows db) /\ id t = l /\ linkPrecedence t = primary) ->
  WellFormed (mkDb (rows db ++ [c]) (nextId db + 1)).
Proof.
  intros WF Hid Hsec Hlink. pose proof (wf_next db WF) as Hn. constructor; simpl.
  - lia.
  - rewrite map_app. simpl.
    apply NoDup_app; [apply (wf_nodup db WF) | repeat constructor; now intros [] |].
    intros x Hx [<- | []]. apply in_map_iff in Hx. destruct Hx as [t [Ht Hin]].
    pose proof (wf_ids db WF t Hin). lia.
  - intros t Ht. apply in_app_or in Ht. destruct Ht as [Ht | [<- | []]].
    + pose proof (wf_ids db WF t Ht). lia.
    + lia.
  - intros t Ht. apply in_app_or in Ht. destruct Ht as [Ht | [<- | []]]; auto.
    now apply (wf_secondary db WF).
  - intros t l Ht Hl. apply in_app_or in Ht. destruct Ht as [Ht | [<- | []]].
    + destruct (wf_link db WF t l Ht Hl) as [u [Hu Hrest]].
      exists u. split; [apply in_or_app; now left | assumption].
    + destruct (Hlink l Hl) as [u [Hu Hrest]].
      exists u. split; [apply in_or_app; now left | assumption].
Qed.

Lemma wf_merged now em ph db p others :
  WellFormed db ->
  primaryRecordsOf em ph db = p :: others ->
  In p (rows db) -> linkPrecedence p = primary -> ~ In (id p) (map id others) ->
  WellFormed (mkDb (mergedRowsOf now em ph db) (nextId db)).
Proof.
  intros WF R Hrow Hprim Hfresh.
  assert (Hp : inIds (id p) (map id others) = false) by now apply inIds_false.
  constructor; simpl.
  - apply (wf_next db WF).
  - rewrite mergedRowsOf_ids. apply (wf_nodup db WF).
  - intros c' Hc'. rewrite (mergedRowsOf_eq now em ph db p others R) in Hc'.
    apply in_map_iff in Hc'. destruct Hc' as [c [<- Hc]].
    rewrite mergeRow_id. now apply (wf_ids db WF).
  - intros c' Hc'. rewrite (mergedRowsOf_eq now em ph db p others R) in Hc'.
    apply in_map_iff in Hc'. destruct Hc' as [c [<- Hc]].
    rewrite mergeRow_linkPrecedence, mergeRow_linkedId.
    destruct (inIds (id c) (map id others)); simpl; [discriminate|].
    intros Hsec. pose proof (wf_secondary db WF c Hc Hsec).
    destruct (linkedIn (linkedId c) (map id others)); [discriminate | assumption].
  - intros c' l Hc'. rewrite (mergedRowsOf_eq now em ph db p others R) in *.
    apply in_map_iff in Hc'. destruct Hc' as [c [<- Hc]].
    rewrite mergeRow_linkedId.
    destruct (inIds (id c) (map id others) || linkedIn (linkedId c) (map id others)) eqn:E.
    + intros [= <-]. exists (mergeRow (map id others) (id p) now p).
      split; [now apply in_map|]. split; [apply mergeRow_id|].
      now rewrite mergeRow_linkPrecedence, Hp.
    + intros Hl. apply orb_false_iff in E. destruct E as [_ E].
      rewrite Hl in E. simpl in E.
      destruct (wf_link db WF c l Hc Hl) as [t [Ht [Hid Htp]]].
      exists (mergeRow (map id others) (id p) now t).
      split; [now apply in_map|]. split; [now rewrite mergeRow_id|].
      now rewrite mergeRow_linkPrecedence, Hid, E.
Qed.

Lemma attachSecondary_shape now em ph pid cluster db db' r :
  attachSecondary now em ph pid cluster db = Ok (db', r) ->
  db' = mkDb (rows db ++ [mkContact (nextId db) ph em (Some pid) secondary now now None])
             (nextId db + 1).
Proof.
  unfold attachSecondary, create.
  destruct (uniqueViolation (rows db) em ph); simpl; [discriminate|].
  destruct (buildResponse pid _); simpl; [|discriminate].
  now intros [= <- _].
Qed.

Lemma decideNewInformation_shape now em ph pid cluster db db' r :
  decideNewInformation now em ph pid cluster db = Ok (db', r) ->
  db' = db \/
  exists e q,
    db' = mkDb (rows db ++ [mkContact (nextId db) q e (Some pid) secondary now now None])
               (nextId db + 1).
Proof.
  unfold decideNewInformation.
  destruct (truthy em && negb (truthy ph));
    [intros H; right; eexists; eexists; exact (attachSecondary_shape _ _ _ _ _ _ _ _ H)|].
  destruct (truthy ph && negb (truthy em));
    [intros H; right; eexists; eexists; exact (attachSecondary_shape _ _ _ _ _ _ _ _ H)|].
  destruct (needEmailLink em cluster || needPhoneLink ph cluster);
    [intros H; right; eexists; eexists; exact (attachSecondary_shape _ _ _ _ _ _ _ _ H)|].
  destruct (buildResponse pid cluster); simpl; [|discriminate].
  intros [= <- _]. now left.
Qed.

(** A committed transaction leaves a well-formed table well-formed. *)
Lemma transaction_preserves_wf now em ph db db' r :
  WellFormed db -> transaction now em ph db = Ok (db', r) -> WellFormed db'.
Proof.
  intros WF Htx.
  destruct (findMatches em ph (rows db)) as [|m ms] eqn:E.
  - unfold transaction in Htx. rewrite E in Htx. unfold create in Htx.
    destruct (uniqueViolation (rows db) em ph); simpl in Htx; [discriminate|].
    destruct (buildResponse _ _); simpl in Htx; [|discriminate].
    injection Htx as <- _.
    apply wf_add_row; simpl; auto; discriminate.
  - assert (Hm : findMatches em ph (rows db) <> []) by (rewrite E; discriminate).
    destruct (primaryRecords_shape em ph db WF Hm)
      as [p [others [R [Hrow [Hprim Hfresh]]]]].
    rewrite (transaction_matched now em ph db p others Hm R) in Htx.
    pose proof (wf_merged now em ph db p others WF R Hrow Hprim Hfresh) as WF1.
    destruct (decideNewInformation_shape _ _ _ _ _ _ _ _ Htx) as [-> | [e [q ->]]];
      [assumption|].
    apply (wf_add_row _ _ WF1); simpl; auto; [discriminate|].
    intros l [= <-]. exists (mergeRow (map id others) (id p) now p).
    split; [|split; [apply mergeRow_id|]].
    + rewrite (mergedRowsOf_eq now em ph db p others R). now apply in_map.
    + rewrite mergeRow_linkPrecedence.
      replace (inIds (id p) (map id others)) with false; [assumption|].
      symmetry. now apply inIds_false.
Qed.

(** What a call leaves behind is the table it found or the table one of its
    transactions committed. *)
Lemma processContact_final n env k db rawEmail rawPhone :
  final (processContact n env k db rawEmail rawPhone) = db \/
  exists j r,
    transaction (clock (env j)) (normalizeEmail rawEmail) (normalizePhone rawPhone) db
    = Ok (final (processContact n env k db rawEmail rawPhone), r).
Proof.
  revert k. induction n as [|n IH]; intros k; simpl;
    destruct (negb (truthy (normalizeEmail rawEmail)) &&
              negb (truthy (normalizePhone rawPhone))); simpl; auto;
    unfold runTransaction; destruct (txFault (env k)) as [f|];
    try (destruct (isP2002 f); simpl; auto;
         try (destruct (requery _ _ _ _); simpl; auto));
    try (destruct (transaction _ _ _ _) as [[db' r]|e] eqn:T; simpl;
         [right; now exists k, r|];
         destruct (isP2002 e); simpl; auto;
         try (destruct (requery _ _ _ _); simpl; auto)).
Qed.

(** Step 5a on one row. *)
Lemma relinkRow_id oids pid now c : id (relinkRow oids pid now c) = id c.
Proof. unfold relinkRow. now destruct (linkedIn (linkedId c) oids). Qed.

Lemma relinkRow_linkPrecedence oids pid now c :
  linkPrecedence (relinkRow oids pid now c) = linkPrecedence c.
Proof. unfold relinkRow. now destruct (linkedIn (linkedId c) oids). Qed.

Lemma relinkRow_linkedId oids pid now c :
  linkedId (relinkRow oids pid now c) =
  if linkedIn (linkedId c) oids then Some pid else linkedId c.
Proof. unfold relinkRow. now destruct (linkedIn (linkedId c) oids). Qed.

(** Every row that steps 3 and 4 fetch from a well-formed table is a
    primary. *)
Lemma primaryRecords_primary em ph db c :
  WellFormed db -> In c (primaryRecordsOf em ph db) -> linkPrecedence c = primary.
Proof.
  intros WF Hc. apply primaryRecords_In in Hc. destruct Hc as [Hrow [m [Hm Hcand]]].
  apply findMatches_In in Hm. destruct Hm as [Hmrow _].
  destruct (candidate_primary db m WF Hmrow) as [t [Ht [Hid [Hprim _]]]].
  rewrite (same_id_same_row (rows db) c t (wf_nodup db WF) Hrow Ht); [assumption|].
  congruence.
Qed.

(** The table between the two updates: the children have moved, the
    superseded primaries are still primaries, and no link leads to a
    secondary. *)
Lemma relinked_flat (db : Db) (oids : list Z) (p : Contact) (now : Z) :
  WellFormed db -> In p (rows db) -> linkPrecedence p = primary ->
  Flat (relinkChildren oids (id p) now (rows db)).
Proof.
  intros WF Hrow Hprim c' t' Hc' Ht'. unfold relinkChildren in *.
  apply in_map_iff in Hc'. destruct Hc' as [c [<- Hc]].
  apply in_map_iff in Ht'. destruct Ht' as [t [<- Ht]].
  rewrite relinkRow_linkedId, relinkRow_id, relinkRow_linkPrecedence.
  destruct (linkedIn (linkedId c) oids).
  - intros [= E].
    now rewrite (same_id_same_row (rows db) t p (wf_nodup db WF) Ht Hrow (eq_sym E)).
  - intros Hl. exact (wellFormed_flat db WF c t Hc Ht Hl).
Qed.

(** After both updates no row names a superseded primary. *)
Lemma merged_links now em ph db p others c' :
  primaryRecordsOf em ph db = p :: others ->
  ~ In (id p) (map id others) ->
  In c' (mergedRowsOf now em ph db) ->
  linkedIn (linkedId c') (map id others) = false.
Proof.
  intros R Hfresh Hc'. rewrite (mergedRowsOf_eq now em ph db p others R) in Hc'.
  apply in_map_iff in Hc'. destruct Hc' as [c [<- Hc]].
  rewrite mergeRow_linkedId.
  destruct (inIds (id c) (map id others) || linkedIn (linkedId c) (map id others)) eqn:E.
  - simpl. now apply inIds_false.
  - apply orb_false_iff in E. tauto.
Qed.

(** C2: a call keeps the hierarchy two levels deep.  From a well-formed
    table it leaves a well-formed table, in which no link leads to a
    secondary.  When the request has a match, with true primary [p] and
    superseded primaries [others], the merge is the demotion applied to the
    table in which the children have been moved.  In that table between the
    two updates every row that hung under a superseded primary hangs under
    [p], the superseded primaries are still primaries, and no link leads to
    a secondary; after the demotion no row names a superseded primary.  In
    the table a committed call leaves, every row that was a superseded
    primary or hung under one is linked to [p], the superseded primaries are
    secondaries, and no row names one of them. *)
Theorem flattening_invariant_kept :
  forall n env k db rawEmail rawPhone,
    WellFormed db ->
    let em := normalizeEmail rawEmail in
    let ph := normalizePhone rawPhone in
    let run := processContact n env k db rawEmail rawPhone in
    WellFormed (final run) /\ Flat (rows (final run)) /\
    forall p others,
      findMatches em ph (rows db) <> [] ->
      primaryRecordsOf em ph db = p :: others ->
      let superseded := map id others in
      (forall now,
         let relinked := relinkChildren superseded (id p) now (rows db) in
         mergedRowsOf now em ph db = demotePrimaries superseded (id p) now relinked /\
         Flat relinked /\
         (forall c, In c (rows db) -> linkedIn (linkedId c) superseded = true ->
            exists c', In c' relinked /\ id c' = id c /\ linkedId c' = Some (id p)) /\
         (forall o, In o others ->
            exists o', In o' relinked /\ id o' = id o /\ linkPrecedence o' = primary) /\
         (forall c', In c' (mergedRowsOf now em ph db) ->
            linkedIn (linkedId c') superseded = false)) /\
      (forall j r,
         transaction (clock (env j)) em ph db = Ok (final run, r) ->
         (forall c, In c (rows db) ->
            inIds (id c) superseded || linkedIn (linkedId c) superseded = true ->
            exists c', In c' (rows (final run)) /\ id c' = id c /\
                       linkedId c' = Some (id p) /\
                       (inIds (id c) superseded = true -> linkPrecedence c' = secondary)) /\
         (forall c', In c' (rows (final run)) ->
            linkedIn (linkedId c') superseded = false)).
Proof.
  intros n env k db rawEmail rawPhone WF em ph run.
  assert (WF' : WellFormed (final run)).
  { destruct (processContact_final n env k db rawEmail rawPhone) as [E | [j [r Htx]]].
    - unfold run. now rewrite E.
    - exact (transaction_preserves_wf _ _ _ _ _ _ WF Htx). }
  split; [assumption|]. split; [now apply wellFormed_flat|].
  intros p others Hm R superseded.
  destruct (primaryRecords_shape em ph db WF Hm) as [p0 [others0 [R0 [Hrow [Hprim Hfresh]]]]].
  rewrite R in R0. injection R0 as <- <-. fold superseded in Hfresh.
  split.
  - intros now relinked. split; [|split; [|split; [|split]]].
    + rewrite (mergedRowsOf_eq now em ph db p others R).
      unfold relinked, demotePrimaries, relinkChildren. now rewrite map_map.
    + now apply relinked_flat.
    + intros c Hc Hl. exists (relinkRow superseded (id p) now c).
      split; [unfold relinked, relinkChildren; now apply in_map|].
      split; [apply relinkRow_id|]. now rewrite relinkRow_linkedId, Hl.
    + intros o Ho.
      assert (Hin : In o (primaryRecordsOf em ph db)) by (rewrite R; now right).
      pose proof (primaryRecords_primary em ph db o WF Hin) as Hop.
      apply primaryRecords_In in Hin. destruct Hin as [Horow _].
      exists (relinkRow superseded (id p) now o).
      split; [unfold relinked, relinkChildren; now apply in_map|].
      split; [apply relinkRow_id|]. now rewrite relinkRow_linkPrecedence.
    + intros c'. now apply (merged_links now em ph db p others c' R).
  - intros j r Htx.
    rewrite (transaction_matched _ em ph db p others Hm R) in Htx.
    set (now := clock (env j)) in *.
    assert (Hrows : exists extra,
              rows (final run) = (mergedRowsOf now em ph db ++ extra)%list /\
              forall x, In x extra -> linkedId x = Some (id p)).
    { destruct (decideNewInformation_shape _ _ _ _ _ _ _ _ Htx) as [E | [e [q E]]];
        rewrite E; simpl.
      - exists []. split; [now rewrite app_nil_r | intros x []].
      - eexists. split; [reflexivity|]. now intros x [<- | []]. }
    destruct Hrows as [extra [Hrows Hextra]]. split.
    + intros c Hc Hin. exists (mergeRow superseded (id p) now c).
      split; [|split; [apply mergeRow_id | split]].
      * rewrite Hrows. apply in_or_app. left.
        rewrite (mergedRowsOf_eq now em ph db p others R). now apply in_map.
      * now rewrite mergeRow_linkedId, Hin.
      * intros Hs. now rewrite mergeRow_linkPrecedence, Hs.
    + intros c' Hc'. rewrite Hrows in Hc'. apply in_app_or in Hc'.
      destruct Hc' as [Hc' | Hc'].
      * now apply (merged_links now em ph db p others c' R).
      * rewrite (Hextra c' Hc'). simpl. now apply inIds_false.
Qed.

(* ------------------------------------------------------------------ *)
(** ** The same request once more *)

Lemma singleton_by_id (l : list Contact) (p : Contact) :
  l <> [] -> NoDup (map id l) -> (forall c, In c l -> c = p) -> l = [p].
Proof.
  destruct l as [|a [|b t]]; intros Hne Hnd Hall; [congruence | |].
  - now rewrite (Hall a (or_introl eq_refl)).
  - exfalso. rewrite (Hall a), (Hall b) in Hnd; simpl; auto.
    inversion Hnd as [|? ? Hin _]. apply Hin. now left.
Qed.

Lemma settled_records em ph db p :
  WellFormed db -> Settled em ph db p -> primaryRecordsOf em ph db = [p].
Proof.
  intros WF St. apply singleton_by_id.
  - destruct (primaryRecords_shape em ph db WF (st_matched _ _ _ _ St))
      as [q [others [R _]]]. rewrite R. discriminate.
  - apply findPrimaryRecords_NoDup, (wf_nodup db WF).
  - intros c Hc. apply primaryRecords_In in Hc. destruct Hc as [Hrow [m [Hm Hcand]]].
    apply (same_id_same_row (rows db) c p (wf_nodup db WF) Hrow (st_row _ _ _ _ St)).
    rewrite <- Hcand. now apply (st_candidate _ _ _ _ St).
Qed.

Lemma settled_transaction now em ph db p :
  WellFormed db -> Settled em ph db p ->
  transaction now em ph db =
  decideNewInformation now em ph (id p) (findCluster [id p] (rows db)) db /\
  exists c, In c (findCluster [id p] (rows db)) /\ id c = id p.
Proof.
  intros WF St. pose proof (settled_records em ph db p WF St) as R.
  split.
  - rewrite (transaction_matched now em ph db p [] (st_matched _ _ _ _ St) R).
    unfold clusterOf, mergedRowsOf. rewrite R. simpl. now destruct db.
  - exists p. split; [|reflexivity]. apply findCluster_In.
    split; [apply (st_row _ _ _ _ St)|]. split; [apply (st_live _ _ _ _ St)|].
    left. now left.
Qed.

(** The answer on a settled table: the primary is [p]; with both values
    already in its cluster nothing is written. *)
Lemma settled_answer now em ph db p :
  WellFormed db -> Settled em ph db p ->
  truthy em || truthy ph = true ->
  exists db' r,
    transaction now em ph db = Ok (db', r) /\ primaryContactId r = id p /\
    (hasEmail em (findCluster [id p] (rows db)) &&
     hasPhone ph (findCluster [id p] (rows db)) = true -> db' = db).
Proof.
  intros WF St Ht.
  destruct (settled_transaction now em ph db p WF St) as [-> Hc].
  set (cluster := findCluster [id p] (rows db)).
  assert (Att : forall e q, e = None \/ q = None ->
            hasEmail em cluster && hasPhone ph cluster = false ->
            exists db' r,
              attachSecondary now e q (id p) cluster db = Ok (db', r) /\
              primaryContactId r = id p /\
              (hasEmail em cluster && hasPhone ph cluster = true -> db' = db)).
  { intros e q Hpart Hno.
    destruct (attachSecondary_partial now e q (id p) cluster db Hc Hpart) as [r [Hr Hpid]].
    eexists. exists r. split; [exact Hr|]. split; [exact Hpid|]. congruence. }
  unfold decideNewInformation, needEmailLink, needPhoneLink.
  destruct (truthy em) eqn:Te, (truthy ph) eqn:Tp; simpl in *; try discriminate.
  - destruct (hasEmail em cluster) eqn:HE, (hasPhone ph cluster) eqn:HP; simpl.
    + destruct (buildResponse_found (id p) cluster Hc) as [r [Hr [Hpid _]]].
      rewrite Hr. simpl. exists db, r. auto.
    + apply Att; auto.
    + apply Att; auto.
    + exfalso. unfold hasEmail, hasPhone in HE, HP. rewrite Te in HE. rewrite Tp in HP.
      simpl in HE, HP.
      destruct (findMatches em ph (rows db)) as [|m ms] eqn:E;
        [exact (st_matched _ _ _ _ St E)|].
      assert (Hm : In m (findMatches em ph (rows db))) by (rewrite E; now left).
      pose proof (st_candidate _ _ _ _ St m Hm) as Hcand.
      apply findMatches_In in Hm. destruct Hm as [Hrow [Hlive Hany]].
      assert (Hmc : In m cluster).
      { apply findCluster_In. split; [assumption|]. split; [assumption|].
        destruct (candidate_primary db m WF Hrow) as [t [Ht' [Hid [_ Hrel]]]].
        destruct Hrel as [-> | Hlink].
        - left. left. congruence.
        - right. exists (id t). split; [assumption|]. left. congruence. }
      destruct (anyClause_matchClauses em ph m Hany) as [[_ H] | [_ H]].
      * assert (X : existsb (fun c => strictEq (email c) em) cluster = true)
          by (apply existsb_exists; now exists m).
        congruence.
      * assert (X : existsb (fun c => strictEq (phoneNumber c) ph) cluster = true)
          by (apply existsb_exists; now exists m).
        congruence.
  - apply Att; auto. unfold hasPhone. rewrite Tp. apply andb_false_r.
  - apply Att; auto. unfold hasEmail. now rewrite Te.
Qed.

Lemma candidate_of_primary (c : Contact) :
  linkPrecedence c = primary -> candidatePrimaryId c = id c.
Proof. unfold candidatePrimaryId. now intros ->. Qed.

Lemma candidate_of_secondary (c : Contact) (l : Z) :
  linkPrecedence c = secondary -> linkedId c = Some l -> l <> 0 ->
  candidatePrimaryId c = l.
Proof.
  unfold candidatePrimaryId. intros -> -> H. simpl.
  now destruct (Z.eqb_spec l 0).
Qed.

Lemma wf_candidate_cases (db : Db) (m : Contact) :
  WellFormed db -> In m (rows db) ->
  (linkPrecedence m = primary /\ candidatePrimaryId m = id m) \/
  (linkPrecedence m = secondary /\
   exists l, linkedId m = Some l /\ l <> 0 /\ candidatePrimaryId m = l).
Proof.
  intros WF Hm. destruct (linkPrecedence m) eqn:P.
  - left. split; [reflexivity | now apply candidate_of_primary].
  - right. split; [reflexivity|].
    destruct (linkedId m) as [l|] eqn:L;
      [|exfalso; now apply (wf_secondary db WF m Hm P)].
    exists l. split; [reflexivity|].
    destruct (wf_link db WF m l Hm L) as [t [Ht [Hid _]]].
    pose proof (wf_ids db WF t Ht).
    assert (l <> 0) by lia. split; [assumption|].
    now apply candidate_of_secondary.
Qed.

Lemma anyClause_same_values em ph (a b : Contact) :
  email a = email b -> phoneNumber a = phoneNumber b ->
  anyClause (matchClauses em ph) a = anyClause (matchClauses em ph) b.
Proof.
  intros He Hp. unfold anyClause, matchClauses. rewrite !existsb_app.
  f_equal.
  - destruct em as [e|]; [|reflexivity]. destruct (truthy (Some e)); [|reflexivity].
    simpl. now rewrite He.
  - destruct ph as [q|]; [|reflexivity]. destruct (truthy (Some q)); [|reflexivity].
    simpl. now rewrite Hp.
Qed.

(** A row holding the request's own values is matched by it. *)
Lemma own_values_match em ph (c : Contact) :
  truthy em || truthy ph = true ->
  email c = em -> phoneNumber c = ph ->
  anyClause (matchClauses em ph) c = true.
Proof.
  intros Ht He Hp. unfold anyClause, matchClauses. rewrite existsb_app.
  apply orb_true_iff. apply orb_true_iff in Ht. destruct Ht as [Ht | Ht]; [left | right].
  - destruct em as [e|]; [|discriminate]. rewrite Ht. simpl.
    rewrite He. simpl. now rewrite String.eqb_refl.
  - destruct ph as [q|]; [|discriminate]. rewrite Ht. simpl.
    rewrite Hp. simpl. now rewrite String.eqb_refl.
Qed.

Lemma strictEq_refl (a : option string) : strictEq a a = true.
Proof. destruct a; simpl; [apply String.eqb_refl | reflexivity]. Qed.

(** After the merge every match stands for the true primary. *)
Lemma merged_candidate now em ph db p others m :
  WellFormed db ->
  primaryRecordsOf em ph db = p :: others ->
  In p (rows db) -> ~ In (id p) (map id others) ->
  In m (findMatches em ph (rows db)) ->
  candidatePrimaryId (mergeRow (map id others) (id p) now m) = id p.
Proof.
  intros WF R Hprow Hfresh Hm.
  pose proof (wf_ids db WF p Hprow) as Hpos.
  assert (Hroot : In (candidatePrimaryId m) (id p :: map id others)).
  { pose proof Hm as Hm'. apply findMatches_In in Hm'. destruct Hm' as [Hrow _].
    destruct (candidate_primary db m WF Hrow) as [t [Ht [Hid _]]].
    rewrite <- Hid. change (id p :: map id others) with (map id (p :: others)).
    rewrite <- R. apply in_map. apply primaryRecords_In. split; [assumption|].
    now exists m. }
  apply findMatches_In in Hm. destruct Hm as [Hrow _].
  set (m' := mergeRow (map id others) (id p) now m).
  pose proof (mergeRow_linkPrecedence (map id others) (id p) now m) as HP.
  pose proof (mergeRow_linkedId (map id others) (id p) now m) as HL.
  pose proof (mergeRow_id (map id others) (id p) now m) as HI.
  fold m' in HP, HL, HI.
  destruct (inIds (id m) (map id others)) eqn:I.
  - simpl in HL. apply candidate_of_secondary; auto. lia.
  - simpl in HL.
    destruct (wf_candidate_cases db m WF Hrow) as [[Pm Cm] | [Pm [l [Lm [Hnz Cm]]]]].
    + rewrite candidate_of_primary; [|congruence]. rewrite HI.
      rewrite Cm in Hroot. destruct Hroot as [E | E]; [congruence|].
      apply inIds_In in E. congruence.
    + rewrite Cm in Hroot. rewrite Lm in HL. simpl in HL.
      destruct (inIds l (map id others)) eqn:IL.
      * apply candidate_of_secondary; auto; [congruence | lia].
      * destruct Hroot as [E | E]; [|apply inIds_In in E; congruence].
        apply candidate_of_secondary; auto; congruence.
Qed.

(** What is in the cluster of step 6 hangs directly under the true primary
    once the merge is done. *)
Lemma cluster_under_primary now em ph db p others extra c :
  primaryRecordsOf em ph db = p :: others ->
  In c (clusterOf now em ph db) ->
  In c (findCluster [id p] (mergedRowsOf now em ph db ++ extra)).
Proof.
  intros R Hc. unfold clusterOf in Hc. rewrite R in Hc. simpl in Hc.
  apply findCluster_In in Hc. destruct Hc as [Hrow [Hlive Hroot]].
  apply findCluster_In. split; [apply in_or_app; now left|]. split; [assumption|].
  rewrite (mergedRowsOf_eq now em ph db p others R) in Hrow.
  apply in_map_iff in Hrow. destruct Hrow as [c0 [<- Hc0]].
  rewrite mergeRow_id, mergeRow_linkedId in *.
  destruct (inIds (id c0) (map id others)) eqn:I; simpl in *.
  - right. exists (id p). split; [reflexivity | now left].
  - destruct Hroot as [[E | E] | [l [Hl [E | E]]]].
    + left. now left.
    + apply inIds_In in E. congruence.
    + right. exists l. split; [assumption | now left].
    + destruct (linkedIn (linkedId c0) (map id others)) eqn:L.
      * right. exists (id p). split; [reflexivity | now left].
      * rewrite Hl in L. simpl in L. apply inIds_In in E. congruence.
Qed.

Lemma transaction_unmatched now em ph db :
  findMatches em ph (rows db) = [] ->
  uniqueViolation (rows db) em ph = false ->
  transaction now em ph db =
  Ok (mkDb (rows db ++ [newPrimary db now em ph]) (nextId db + 1),
      mkResponse (nextId db)
        (uniqueStrings (truthyStrings [em]))
        (uniqueStrings (truthyStrings [ph])) []).
Proof.
  intros E U. unfold transaction, create. rewrite E, U. simpl.
  unfold buildResponse. simpl. now rewrite Z.eqb_refl.
Qed.

Lemma decide_records_values now em ph pid cluster db db' r :
  truthy em = true -> truthy ph = true ->
  decideNewInformation now em ph pid cluster db = Ok (db', r) ->
  (hasEmail em cluster = true \/
   exists s, In s (rows db') /\ email s = em /\ linkedId s = Some pid /\
             deletedAt s = None) /\
  (hasPhone ph cluster = true \/
   exists s, In s (rows db') /\ phoneNumber s = ph /\ linkedId s = Some pid /\
             deletedAt s = None).
Proof.
  intros Te Tp. unfold decideNewInformation, needEmailLink, needPhoneLink.
  rewrite Te, Tp. simpl.
  destruct (hasEmail em cluster), (hasPhone ph cluster); simpl; intros H;
    try (apply attachSecondary_shape in H; subst db'; simpl);
    split; auto; right; eexists; (split; [apply in_or_app; right; now left|]);
    simpl; auto.
Qed.

(** After a committed call the table is settled for the same request. *)
Lemma first_call_settles now em ph db :
  WellFormed db -> PrimariesLive (rows db) ->
  truthy em || truthy ph = true ->
  (findMatches em ph (rows db) = [] -> uniqueViolation (rows db) em ph = false) ->
  exists db1 r1 p,
    transaction now em ph db = Ok (db1, r1) /\
    WellFormed db1 /\ Settled em ph db1 p /\ primaryContactId r1 = id p /\
    (truthy em && truthy ph = true ->
     hasEmail em (findCluster [id p] (rows db1)) &&
     hasPhone ph (findCluster [id p] (rows db1)) = true).
Proof.
  intros WF Live Ht Htwin.
  destruct (findMatches em ph (rows db)) as [|m0 ms] eqn:E.
  - (* a new primary *)
    pose proof (transaction_unmatched now em ph db E (Htwin eq_refl)) as Htx.
    set (N := newPrimary db now em ph) in *.
    assert (HN : findMatches em ph (rows db ++ [N]) = [N]).
    { unfold findMatches in *. rewrite filter_app, E. simpl.
      now rewrite (own_values_match em ph N Ht eq_refl eq_refl). }
    eexists. eexists. exists N. split; [exact Htx|].
    split; [exact (transaction_preserves_wf _ _ _ _ _ _ WF Htx)|].
    split; [|split; [reflexivity|]].
    + constructor; simpl; try reflexivity.
      * apply in_or_app. right. now left.
      * rewrite HN. discriminate.
      * rewrite HN. now intros m [<- | []].
    + intros Hboth. apply andb_true_iff in Hboth. destruct Hboth as [Te Tp].
      assert (HC : In N (findCluster [id N] (rows db ++ [N]))).
      { apply findCluster_In. split; [apply in_or_app; right; now left|].
        split; [reflexivity|]. left. now left. }
      simpl. unfold hasEmail, hasPhone. rewrite Te, Tp. simpl.
      apply andb_true_iff. split; apply existsb_exists; exists N;
        (split; [exact HC | apply strictEq_refl]).
  - (* an existing cluster *)
    assert (Hm : findMatches em ph (rows db) <> []) by (rewrite E; discriminate).
    rewrite <- E in *. clear E m0 ms.
    destruct (primaryRecords_shape em ph db WF Hm)
      as [p [others [R [Hrow [Hprim Hfresh]]]]].
    destruct (matched_transaction_commits now em ph db p others WF Live Ht Hm R)
      as [r [extra [next [Htx [Hpid Hextra]]]]].
    pose proof (transaction_preserves_wf _ _ _ _ _ _ WF Htx) as WF1.
    pose proof (wf_ids db WF p Hrow) as Hpos.
    set (p' := mergeRow (map id others) (id p) now p).
    assert (Hp'row : In p' (mergedRowsOf now em ph db))
      by (rewrite (mergedRowsOf_eq now em ph db p others R); now apply in_map).
    assert (Hp'id : id p' = id p) by apply mergeRow_id.
    exists (mkDb (mergedRowsOf now em ph db ++ extra) next), r, p'.
    split; [exact Htx|]. split; [exact WF1|]. split; [|split; [congruence|]].
    + constructor; simpl.
      * apply in_or_app. now left.
      * unfold p'. rewrite mergeRow_linkPrecedence.
        replace (inIds (id p) (map id others)) with false; [assumption|].
        symmetry. now apply inIds_false.
      * unfold p'. rewrite mergeRow_deletedAt.
        apply (primaryRecords_live em ph db p WF Live). rewrite R. now left.
      * destruct (findMatches em ph (rows db)) as [|m ms] eqn:E; [congruence|].
        assert (Hin : In m (findMatches em ph (rows db))) by (rewrite E; now left).
        apply findMatches_In in Hin. destruct Hin as [Hmrow [Hlive Hany]].
        intros Hnone.
        assert (X : In (mergeRow (map id others) (id p) now m)
                       (findMatches em ph (mergedRowsOf now em ph db ++ extra))).
        { apply findMatches_In. split; [|split].
          - apply in_or_app. left.
            rewrite (mergedRowsOf_eq now em ph db p others R). now apply in_map.
          - now rewrite mergeRow_deletedAt.
          - rewrite <- Hany. apply anyClause_same_values;
              [apply mergeRow_email | apply mergeRow_phoneNumber]. }
        rewrite Hnone in X. contradiction.
      * intros m1 Hm1. rewrite Hp'id.
        apply findMatches_In in Hm1. destruct Hm1 as [Hm1row [Hm1live Hm1any]].
        apply in_app_or in Hm1row. destruct Hm1row as [Hm1row | Hm1row].
        -- rewrite (mergedRowsOf_eq now em ph db p others R) in Hm1row.
           apply in_map_iff in Hm1row. destruct Hm1row as [m [<- Hmrow]].
           apply (merged_candidate now em ph db p others m WF R Hrow Hfresh).
           apply findMatches_In. split; [assumption|]. split.
           ++ now rewrite mergeRow_deletedAt in Hm1live.
           ++ rewrite <- Hm1any. symmetry. apply anyClause_same_values;
                [apply mergeRow_email | apply mergeRow_phoneNumber].
        -- destruct Hextra as [[-> _] | [e [q' [-> _]]]]; [contradiction|].
           destruct Hm1row as [<- | []].
           apply candidate_of_secondary; simpl; auto. lia.
    + intros Hboth. apply andb_true_iff in Hboth. destruct Hboth as [Te Tp].
      rewrite (transaction_matched now em ph db p others Hm R) in Htx.
      destruct (decide_records_values _ _ _ _ _ _ _ _ Te Tp Htx) as [HE HP].
      simpl in HE, HP. simpl. rewrite Hp'id.
      unfold hasEmail, hasPhone in *. rewrite Te, Tp in *. simpl in *.
      apply andb_true_iff. split; apply existsb_exists.
      * destruct HE as [HE | [s [Hs [Hval [Hlink Hlive]]]]].
        -- apply existsb_exists in HE. destruct HE as [c [Hc Heq]].
           exists c. split; [|assumption].
           now apply (cluster_under_primary now em ph db p others extra c R).
        -- exists s. split; [|rewrite Hval; apply strictEq_refl].
           apply findCluster_In. split; [assumption|]. split; [assumption|].
           right. exists (id p). split; [assumption | now left].
      * destruct HP as [HP | [s [Hs [Hval [Hlink Hlive]]]]].
        -- apply existsb_exists in HP. destruct HP as [c [Hc Heq]].
           exists c. split; [|assumption].
           now apply (cluster_under_primary now em ph db p others extra c R).
        -- exists s. split; [|rewrite Hval; apply strictEq_refl].
           apply findCluster_In. split; [assumption|]. split; [assumption|].
           right. exists (id p). split; [assumption | now left].
Qed.

(** C3, as stated, fails for a pair with one identifier: the second call
    with the same email alone answers with the same primary, and adds a
    secondary. *)
Lemma repeated_single_identifier_counterexample :
  let run1 := identify (fun _ => quiet 10) (mkDb [] 1)
                (JsString "doc@hillvalley.edu") JsNull in
  let run2 := identify (fun _ => quiet 20) (final run1)
                (JsString "doc@hillvalley.edu") JsNull in
  outcome run1 = Ok (mkResponse 1 ["doc@hillvalley.edu"] [] []) /\
  outcome run2 = Ok (mkResponse 1 ["doc@hillvalley.edu"] [] [2]) /\
  map (fun c => (id c, linkPrecedence c, linkedId c, email c)) (rows (final run1)) =
    [(1, primary, None, Some "doc@hillvalley.edu")] /\
  map (fun c => (id c, linkPrecedence c, linkedId c, email c)) (rows (final run2)) =
    [(1, primary, None, Some "doc@hillvalley.edu");
     (2, secondary, Some 1, Some "doc@hillvalley.edu")].
Proof. vm_compute. repeat split. Qed.

(** C3 (amended): in a well-formed table, the same request sent twice in a
    row is answered with the same primary both times; when it carries both
    identifiers the second call leaves the table as the first one left it.
    The first insert is taken to meet no stored row with the same pair. *)
Theorem same_request_twice :
  forall n1 n2 env1 env2 k1 k2 db rawEmail rawPhone,
    WellFormed db -> PrimariesLive (rows db) ->
    txFault (env1 k1) = None -> txFault (env2 k2) = None ->
    normalizeEmail rawEmail <> None \/ normalizePhone rawPhone <> None ->
    (findMatches (normalizeEmail rawEmail) (normalizePhone rawPhone) (rows db) = [] ->
     uniqueViolation (rows db) (normalizeEmail rawEmail) (normalizePhone rawPhone)
       = false) ->
    let run1 := processContact n1 env1 k1 db rawEmail rawPhone in
    let run2 := processContact n2 env2 k2 (final run1) rawEmail rawPhone in
    exists r1 r2,
      outcome run1 = Ok r1 /\ outcome run2 = Ok r2 /\
      primaryContactId r2 = primaryContactId r1 /\
      (normalizeEmail rawEmail <> None -> normalizePhone rawPhone <> None ->
       final run2 = final run1).
Proof.
  intros n1 n2 env1 env2 k1 k2 db rawEmail rawPhone WF Live Hq1 Hq2 Hsome Htwin run1 run2.
  set (em := normalizeEmail rawEmail) in *. set (ph := normalizePhone rawPhone) in *.
  pose proof (normalizeEmail_truthy rawEmail) as Te.
  pose proof (normalizePhone_truthy rawPhone) as Tp.
  fold em in Te. fold ph in Tp.
  assert (Ht : truthy em || truthy ph = true).
  { rewrite Te, Tp. destruct Hsome; destruct em, ph; simpl; congruence. }
  destruct (first_call_settles (clock (env1 k1)) em ph db WF Live Ht Htwin)
    as [db1 [r1 [p [Htx1 [WF1 [St [Hpid1 Hboth]]]]]]].
  assert (Hrun1 : run1 = mkRun (Ok r1) db1 1)
    by (apply processContact_committed; auto).
  destruct (settled_answer (clock (env2 k2)) em ph db1 p WF1 St Ht)
    as [db2 [r2 [Htx2 [Hpid2 Hsame]]]].
  assert (Hrun2 : run2 = mkRun (Ok r2) db2 1).
  { unfold run2. rewrite Hrun1. simpl. apply processContact_committed; auto. }
  exists r1, r2. rewrite Hrun1, Hrun2. simpl.
  split; [reflexivity|]. split; [reflexivity|]. split; [congruence|].
  intros He Hp. apply Hsame, Hboth. rewrite Te, Tp.
  destruct em, ph; simpl; congruence.
Qed.

(* ------------------------------------------------------------------ *)
(** ** A request without a match *)

Lemma truthy_presentValues (o : option string) :
  truthy o = negb (isNull o) ->
  uniqueStrings (truthyStrings [o]) = presentValues o.
Proof.
  destruct o as [v|]; simpl; [|reflexivity].
  destruct (v =? "")%string; simpl; [discriminate | reflexivity].
Qed.

(** C9: what the code does when a soft-deleted row holds the pair of the
    request.  No live row matches, so step 2 inserts; the unique index does
    not look at [deletedAt] and refuses every insert; the re-query (live rows
    only) cannot find the row in the way, and the call ends in the conflict
    error with nothing created. *)
Theorem unmatched_request_refused_by_deleted_twin :
  let em := normalizeEmail (JsString "lorraine@hillvalley.edu") in
  let ph := normalizePhone (JsString "123456") in
  let run := identify (fun k => quiet (30 + Z.of_nat k)) deletedTwinDb
               (JsString "lorraine@hillvalley.edu") (JsString "123456") in
  findMatches em ph (rows deletedTwinDb) = [] /\
  outcome run = Err (DatabaseError "Failed to resolve contact conflict") /\
  final run = deletedTwinDb /\
  attempts run = 4%nat.
Proof. vm_compute. repeat split. Qed.

(** The no-match path when the insert is accepted: with at least one
    identifier, no live match, and no stored row at all holding the same pair
    of values, the call creates exactly one row, a primary without a link
    that stores what was supplied, and answers with that row alone. *)
Theorem unmatched_request_creates_primary :
  forall n env k db rawEmail rawPhone,
    txFault (env k) = None ->
    normalizeEmail rawEmail <> None \/ normalizePhone rawPhone <> None ->
    findMatches (normalizeEmail rawEmail) (normalizePhone rawPhone) (rows db) = [] ->
    uniqueViolation (rows db) (normalizeEmail rawEmail) (normalizePhone rawPhone)
      = false ->
    let em := normalizeEmail rawEmail in
    let ph := normalizePhone rawPhone in
    processContact n env k db rawEmail rawPhone =
    mkRun (Ok (mkResponse (nextId db) (presentValues em) (presentValues ph) []))
          (mkDb (rows db ++
                 [mkContact (nextId db) ph em None primary
                            (clock (env k)) (clock (env k)) None])
                (nextId db + 1)) 1.
Proof.
  intros n env k db rawEmail rawPhone Hq Hsome Hnone Hfree em ph.
  pose proof (normalizeEmail_truthy rawEmail) as Te.
  pose proof (normalizePhone_truthy rawPhone) as Tp.
  apply processContact_committed; auto.
  - rewrite Te, Tp.
    destruct Hsome; destruct (normalizeEmail rawEmail), (normalizePhone rawPhone);
      simpl; congruence.
  - fold em ph. rewrite (transaction_unmatched _ em ph db Hnone Hfree).
    unfold newPrimary.
    now rewrite (truthy_presentValues em Te), (truthy_presentValues ph Tp).
Qed.

(* ------------------------------------------------------------------ *)
(** ** The re-query after a conflict *)

Lemma anyClause_requery em ph c :
  anyClause (requeryClauses em ph) c = requeryMatch em ph c.
Proof.
  unfold anyClause, requeryClauses, requeryMatch.
  destruct (truthy em), (truthy ph); simpl;
    destruct (strictEq (email c) em), (strictEq (phoneNumber c) ph); reflexivity.
Qed.

Lemma findFirstExisting_oldest em ph rs x :
  findFirstExisting em ph rs = Some x ->
  In x rs /\ deletedAt x = None /\ requeryMatch em ph x = true /\
  forall c, In c rs -> deletedAt c = None -> requeryMatch em ph c = true ->
            createdAt x <= createdAt c.
Proof.
  unfold findFirstExisting. intros H.
  destruct (orderByCreatedAt _) as [|y t] eqn:E; [discriminate|].
  injection H as ->.
  assert (Hx : In x (orderByCreatedAt
            (filter (fun c => isNull (deletedAt c) &&
                              anyClause (requeryClauses em ph) c) rs)))
    by (rewrite E; now left).
  apply orderByCreatedAt_In, filter_In in Hx. destruct Hx as [Hrow Hx].
  apply andb_true_iff in Hx. destruct Hx as [Hlive Hany].
  rewrite anyClause_requery in Hany.
  repeat split; auto.
  - now destruct (deletedAt x).
  - intros c Hc Hcl Hcm. apply (orderByCreatedAt_head _ _ _ E).
    apply filter_In. split; [assumption|].
    now rewrite Hcl, anyClause_requery, Hcm.
Qed.

Lemma oldestLive_Some (f : Contact -> bool) (rs : list Contact) (c : Contact) :
  oldestLive f rs = Some c -> In c rs /\ deletedAt c = None /\ f c = true.
Proof.
  unfold oldestLive. intros H.
  destruct (orderByCreatedAt _) as [|y t] eqn:E; [discriminate|].
  injection H as ->.
  assert (Hc : In c (orderByCreatedAt
            (filter (fun c => isNull (deletedAt c) && f c) rs)))
    by (rewrite E; now left).
  apply orderByCreatedAt_In, filter_In in Hc. destruct Hc as [Hrow Hc].
  apply andb_true_iff in Hc. destruct Hc as [Hlive Hf].
  repeat split; auto. now destruct (deletedAt c).
Qed.

(** The row the priority reading selects is a live row with the email or
    the phone of the request. *)
Lemma specFindExisting_match em ph rs s :
  specFindExisting em ph rs = Some s ->
  In s rs /\ deletedAt s = None /\ requeryMatch em ph s = true.
Proof.
  unfold specFindExisting, requeryMatch.
  destruct (oldestLive _ rs) as [a|] eqn:A.
  - intros [= <-]. apply oldestLive_Some in A. destruct A as [H1 [H2 H3]].
    repeat split; auto. rewrite !andb_true_iff in H3.
    destruct H3 as [[[H3 _] H4] _]. now rewrite H3, H4.
  - destruct (oldestLive (fun c => truthy em && strictEq (email c) em) rs)
      as [b|] eqn:B.
    + intros [= <-]. apply oldestLive_Some in B. destruct B as [H1 [H2 H3]].
      repeat split; auto. now rewrite H3.
    + intros C. apply oldestLive_Some in C. destruct C as [H1 [H2 H3]].
      repeat split; auto. rewrite H3. apply orb_true_r.
Qed.

(** C6, as stated, fails, in two ways.  The re-query is one disjunction
    ordered by age: in [sharedEmailDb] the older row, which shares only the
    email, is taken although a row with the full pair exists; the call
    answers with cluster 1, the words of the spec lead to row 2.  (The table
    is what the service leaves when row 1 is soft-deleted while the request
    that creates row 2 is served, and restored afterwards.)  And a match of
    the re-query does not always lead to an answer: in [strandedDb] the
    re-query finds row 2, whose primary is soft-deleted; the cluster fetched
    for it has no primary, the failure of [buildResponse] is swallowed, and
    the call, run again, throws.  In both tables a row holds the pair of the
    request, which is what the insert that lost the race ran into. *)
Lemma requery_priority_counterexample :
  let em := normalizeEmail (JsString "doc@hillvalley.edu") in
  let ph := normalizePhone (JsString "111") in
  let run := identify lostRace sharedEmailDb
               (JsString "doc@hillvalley.edu") (JsString "111") in
  let first :=
    final (identify (fun _ => quiet 10) emptyTable
             (JsString "doc@hillvalley.edu") (JsString "999")) in
  let second :=
    final (identify (fun _ => quiet 20) (setDeletedAt 1 (Some 15) first)
             (JsString "doc@hillvalley.edu") (JsString "111")) in
  let run' := identify lostRace strandedDb
                (JsString "doc@hillvalley.edu") (JsString "111") in
  (setDeletedAt 1 None second = sharedEmailDb /\
   wellFormedb sharedEmailDb = true /\
   primariesLiveb (rows sharedEmailDb) = true /\
   uniqueViolation (rows sharedEmailDb) em ph = true /\
   option_map id (specFindExisting em ph (rows sharedEmailDb)) = Some 2 /\
   option_map id (findFirstExisting em ph (rows sharedEmailDb)) = Some 1 /\
   outcome run = Ok (mkResponse 1 ["doc@hillvalley.edu"] ["999"] []) /\
   final run = sharedEmailDb) /\
  (setDeletedAt 1 (Some 25) beforeStrandedDb = strandedDb /\
   wellFormedb strandedDb = true /\
   primariesLiveb (rows strandedDb) = false /\
   uniqueViolation (rows strandedDb) em ph = true /\
   option_map id (specFindExisting em ph (rows strandedDb)) = Some 2 /\
   option_map id (findFirstExisting em ph (rows strandedDb)) = Some 2 /\
   requery (lostRace 0) em ph strandedDb = None /\
   outcome run' = Err TypeError /\ final run' = strandedDb /\ attempts run' = 2%nat).
Proof. vm_compute. repeat split. Qed.

Lemma processContact_requeried n env k db rawEmail rawPhone e r :
  truthy (normalizeEmail rawEmail) || truthy (normalizePhone rawPhone) = true ->
  runTransaction (env k) (normalizeEmail rawEmail) (normalizePhone rawPhone) db = Err e ->
  isP2002 e = true ->
  requery (env k) (normalizeEmail rawEmail) (normalizePhone rawPhone) db = Some r ->
  processContact (S n) env k db rawEmail rawPhone = mkRun (Ok r) db 1.
Proof.
  intros Ht Htx He Hr.
  pose proof (guard_passes _ _ Ht) as G.
  simpl. now rewrite G, Htx, He, Hr.
Qed.

(** C6 (amended): in a well-formed table with no live row under a
    soft-deleted one, on a uniqueness violation, with retries left, the call
    re-queries for the oldest live row that has the email or the phone of the
    request (one disjunction; the full pair has no priority, so the row taken
    is never younger than the one the priority reading selects).  When there
    is one, it answers with the cluster of that row's primary (the row itself
    if it is a primary, else the row its link names) and writes nothing. *)
Theorem conflict_answered_from_existing :
  forall n env k db rawEmail rawPhone e existing,
    WellFormed db -> PrimariesLive (rows db) ->
    normalizeEmail rawEmail <> None \/ normalizePhone rawPhone <> None ->
    let em := normalizeEmail rawEmail in
    let ph := normalizePhone rawPhone in
    runTransaction (env k) em ph db = Err e -> isP2002 e = true ->
    requeryFault (env k) = false ->
    findFirstExisting em ph (rows db) = Some existing ->
    (In existing (rows db) /\ deletedAt existing = None /\
     requeryMatch em ph existing = true /\
     forall c, In c (rows db) -> deletedAt c = None -> requeryMatch em ph c = true ->
               createdAt existing <= createdAt c) /\
    (forall s, specFindExisting em ph (rows db) = Some s ->
               createdAt existing <= createdAt s) /\
    exists t r,
      In t (rows db) /\ linkPrecedence t = primary /\
      (linkPrecedence existing = primary -> t = existing) /\
      (linkPrecedence existing = secondary -> linkedId existing = Some (id t)) /\
      buildResponse (id t) (fetchContactCluster (id t) (rows db)) = Ok r /\
      primaryContactId r = id t /\
      processContact (S n) env k db rawEmail rawPhone = mkRun (Ok r) db 1.
Proof.
  intros n env k db rawEmail rawPhone e existing WF Live Hsome em ph Htx He Hrq Hfirst.
  pose proof (findFirstExisting_oldest em ph (rows db) existing Hfirst)
    as [Hrow [Hlive [Hmatch Hold]]].
  split; [repeat split; assumption|].
  split.
  { intros s Hs. apply specFindExisting_match in Hs. destruct Hs as [H1 [H2 H3]].
    now apply Hold. }
  pose proof (some_identifier rawEmail rawPhone Hsome) as Ht. fold em ph in Ht.
  assert (Hcl : forall t, In t (rows db) -> deletedAt t = None ->
            exists r, buildResponse (id t) (fetchContactCluster (id t) (rows db)) = Ok r /\
                      primaryContactId r = id t).
  { intros t Ht' Htl.
    destruct (buildResponse_found (id t) (fetchContactCluster (id t) (rows db)))
      as [r [Hr [Hpid _]]]; [|now exists r].
    exists t. split; [|reflexivity]. apply findCluster_In.
    split; [assumption|]. split; [assumption|]. left. now left. }
  destruct (linkPrecedence existing) eqn:P.
  - destruct (Hcl existing Hrow Hlive) as [r [Hr Hpid]].
    exists existing, r. repeat split; auto; try discriminate.
    apply (processContact_requeried n env k db rawEmail rawPhone e r Ht Htx He).
    unfold requery. fold em ph. now rewrite Hrq, Hfirst, P, Hr.
  - destruct (linkedId existing) as [l|] eqn:L;
      [|exfalso; now apply (wf_secondary db WF existing Hrow P)].
    destruct (wf_link db WF existing l Hrow L) as [t [Ht' [Hid Hprim]]].
    subst l.
    destruct (Hcl t Ht' (Live existing t Hrow Ht' Hlive L)) as [r [Hr Hpid]].
    exists t, r. repeat split; auto; try discriminate.
    apply (processContact_requeried n env k db rawEmail rawPhone e r Ht Htx He).
    unfold requery. fold em ph. now rewrite Hrq, Hfirst, P, L, Hr.
Qed.

(* ------------------------------------------------------------------ *)
(** ** The retry budget *)

Lemma processContact_attempts n env k db rawEmail rawPhone :
  (attempts (processContact n env k db rawEmail rawPhone) <= S n)%nat.
Proof.
  revert k. induction n as [|n IH]; intros k; simpl;
    destruct (negb (truthy (normalizeEmail rawEmail)) &&
              negb (truthy (normalizePhone rawPhone))); simpl; try lia;
    destruct (runTransaction _ _ _ _) as [[db' r]|e]; simpl; try lia;
    destruct (isP2002 e); simpl; try lia.
  destruct (requery _ _ _ _); simpl; [lia|].
  specialize (IH (S k)). lia.
Qed.

Lemma processContact_exhausted n env k db rawEmail rawPhone :
  truthy (normalizeEmail rawEmail) || truthy (normalizePhone rawPhone) = true ->
  (forall j, (k <= j <= k + n)%nat ->
     exists e,
       runTransaction (env j) (normalizeEmail rawEmail) (normalizePhone rawPhone) db
         = Err e /\ isP2002 e = true) ->
  (forall j, (k <= j < k + n)%nat ->
     requery (env j) (normalizeEmail rawEmail) (normalizePhone rawPhone) db = None) ->
  processContact n env k db rawEmail rawPhone =
  mkRun (Err (DatabaseError "Failed to resolve contact conflict")) db (S n).
Proof.
  intros Ht. 
  pose proof (guard_passes _ _ Ht) as G.
  revert k. induction n as [|n IH]; intros k Htx Hrq; simpl; rewrite G;
    destruct (Htx k ltac:(lia)) as [e [-> ->]].
  - reflexivity.
  - rewrite (Hrq k ltac:(lia)).
    rewrite (IH (S k)); [reflexivity | |].
    + intros j Hj. apply Htx. lia.
    + intros j Hj. apply Hrq. lia.
Qed.

Lemma processContact_propagates n env k db rawEmail rawPhone e :
  truthy (normalizeEmail rawEmail) || truthy (normalizePhone rawPhone) = true ->
  runTransaction (env k) (normalizeEmail rawEmail) (normalizePhone rawPhone) db = Err e ->
  isP2002 e = false ->
  processContact n env k db rawEmail rawPhone = mkRun (Err e) db 1.
Proof.
  intros Ht Htx He.
  pose proof (guard_passes _ _ Ht) as G.
  destruct n; simpl; now rewrite G, Htx, He.
Qed.

(** C7, as stated, fails in its last part: a failure of the re-query is not
    a uniqueness failure, yet it is swallowed and the operation is run
    again; the caller gets an answer, not the failure. *)
Lemma requery_failure_counterexample :
  let run := identify brokenRequery (mkDb [] 1)
               (JsString "lorraine@hillvalley.edu") (JsString "123456") in
  requeryFault (brokenRequery 0) = true /\
  outcome run = Ok (mkResponse 1 ["lorraine@hillvalley.edu"] ["123456"] []) /\
  attempts run = 2%nat.
Proof. vm_compute. repeat split. Qed.

(** C7 (amended): a call runs the transaction at most [maxRetries + 1]
    times, so at most 3 retries on the default budget; when every attempt of
    the budget ends in a uniqueness conflict that the re-query cannot settle,
    the call fails with the persistence-conflict error, which is not the
    input error; a failure of the transaction that is not a uniqueness
    conflict is passed on as it is, with no retry.  (A failure of the
    re-query itself is not passed on: the call tries again.) *)
Theorem retry_budget :
  forall n env k db rawEmail rawPhone,
    normalizeEmail rawEmail <> None \/ normalizePhone rawPhone <> None ->
    let em := normalizeEmail rawEmail in
    let ph := normalizePhone rawPhone in
    (attempts (processContact n env k db rawEmail rawPhone) <= S n)%nat /\
    (attempts (identify env db rawEmail rawPhone) <= 1 + 3)%nat /\
    ((forall j, (k <= j <= k + n)%nat ->
        exists e, runTransaction (env j) em ph db = Err e /\ isP2002 e = true) ->
     (forall j, (k <= j < k + n)%nat -> requery (env j) em ph db = None) ->
     processContact n env k db rawEmail rawPhone =
       mkRun (Err (DatabaseError "Failed to resolve contact conflict")) db (S n)) /\
    (forall m m', DatabaseError m <> InputError m') /\
    (forall e, runTransaction (env k) em ph db = Err e -> isP2002 e = false ->
       processContact n env k db rawEmail rawPhone = mkRun (Err e) db 1).
Proof.
  intros n env k db rawEmail rawPhone Hsome em ph.
  pose proof (some_identifier rawEmail rawPhone Hsome) as Ht. fold em ph in Ht.
  split; [apply processContact_attempts|].
  split; [apply (processContact_attempts defaultMaxRetries)|].
  split; [now apply processContact_exhausted|].
  split; [discriminate|].
  intros e. now apply processContact_propagates.
Qed.

(* ------------------------------------------------------------------ *)
(** ** Soft-deleted rows *)

(** The matcher and the two cluster fetches leave soft-deleted rows out. *)
Lemma findMatches_live em ph rs c :
  In c (findMatches em ph rs) -> deletedAt c = None.
Proof. intros H. now apply findMatches_In in H. Qed.

Lemma findCluster_live rootIds rs c :
  In c (findCluster rootIds rs) -> deletedAt c = None.
Proof. intros H. now apply findCluster_In in H. Qed.

(** C8: what the code does with soft-deleted rows.  Steps 4, 5a and 5b carry
    no [deletedAt: null]: in [deletedPrimaryDb] the deleted row 2 is fetched
    as a candidate primary and demoted; in [deletedChildDb] the deleted row 3
    is re-parented.  Both calls complete.  In [orphanDb] the deleted row 1 is
    taken as the true primary; it is not in the fetched cluster, and the
    response cannot be built. *)
Theorem soft_deleted_rows_are_merged :
  let run1 := identify (fun _ => quiet 50) deletedPrimaryDb
                (JsString "marty@hillvalley.edu") (JsString "333") in
  let run2 := identify (fun _ => quiet 50) deletedChildDb
                (JsString "marty@hillvalley.edu") (JsString "222") in
  let run3 := identify (fun _ => quiet 50) orphanDb
                (JsString "emmett@hillvalley.edu") (JsString "222") in
  map id (primaryRecordsOf (Some "marty@hillvalley.edu") (Some "333") deletedPrimaryDb)
    = [1; 2] /\
  outcome run1 = Ok (mkResponse 1 ["marty@hillvalley.edu"; "george@hillvalley.edu"]
                                  ["111"; "333"] [3]) /\
  map rowView (rows deletedPrimaryDb) =
    [(1, primary, None, 10, None); (2, primary, None, 20, Some 25);
     (3, secondary, Some 2, 22, None)] /\
  map rowView (rows (final run1)) =
    [(1, primary, None, 10, None); (2, secondary, Some 1, 50, Some 25);
     (3, secondary, Some 1, 50, None)] /\
  outcome run2 = Ok (mkResponse 1 ["marty@hillvalley.edu"; "biff@hillvalley.edu"]
                                  ["111"; "222"] [2]) /\
  map rowView (rows (final run2)) =
    [(1, primary, None, 10, None); (2, secondary, Some 1, 50, None);
     (3, secondary, Some 1, 50, Some 25)] /\
  map id (primaryRecordsOf (Some "emmett@hillvalley.edu") (Some "222") orphanDb) = [1] /\
  outcome run3 = Err TypeError /\ final run3 = orphanDb.
Proof. vm_compute. repeat split. Qed.

(** C4: what the code does with a request of both identifiers when the
    primary of the matched cluster is soft-deleted.  [strandedDb] is what two
    requests and the soft-deletion of row 1 leave.  The request matches the
    live row 2 by its email; step 4, which does not ask for [deletedAt: null],
    fetches the deleted row 1 as the true primary; the cluster of step 6 is
    row 2 alone, so the email is there and the phone is new.  The secondary
    for the phone is inserted, but [buildResponse] finds no primary in the
    cluster and throws: the transaction is rolled back and no record is
    created.  Before the soft-deletion the same request creates the one
    secondary with the phone alone. *)
Theorem both_identifiers_under_deleted_primary :
  let rawEmail := JsString "doc@hillvalley.edu" in
  let rawPhone := JsString "222" in
  let em := normalizeEmail rawEmail in
  let ph := normalizePhone rawPhone in
  let run := identify (fun _ => quiet 50) strandedDb rawEmail rawPhone in
  setDeletedAt 1 (Some 25) beforeStrandedDb = strandedDb /\
  wellFormedb strandedDb = true /\
  map id (findMatches em ph (rows strandedDb)) = [2] /\
  map id (primaryRecordsOf em ph strandedDb) = [1] /\
  map id (clusterOf 50 em ph strandedDb) = [2] /\
  hasEmail em (clusterOf 50 em ph strandedDb) = true /\
  hasPhone ph (clusterOf 50 em ph strandedDb) = false /\
  outcome run = Err TypeError /\ final run = strandedDb /\ attempts run = 1%nat /\
  rows (final (identify (fun _ => quiet 50) beforeStrandedDb rawEmail rawPhone)) =
    (rows beforeStrandedDb ++
     [mkContact 3 (Some "222") None (Some 1) secondary 50 50 None])%list.
Proof. vm_compute. repeat split. Qed.

(** C5: what the code does with a request of one identifier when the
    primary of the matched cluster is soft-deleted.  The email of the request
    matches the live row 2 of [strandedDb]; the deleted row 1 is fetched as
    the true primary; the secondary is inserted, [buildResponse] finds no
    primary in the cluster and throws, and the insert is rolled back: no
    secondary is created.  Before the soft-deletion the same request creates
    the secondary with the email alone. *)
Theorem single_identifier_under_deleted_primary :
  let rawEmail := JsString "doc@hillvalley.edu" in
  let rawPhone := JsNull in
  let em := normalizeEmail rawEmail in
  let ph := normalizePhone rawPhone in
  let run := identify (fun _ => quiet 50) strandedDb rawEmail rawPhone in
  setDeletedAt 1 (Some 25) beforeStrandedDb = strandedDb /\
  wellFormedb strandedDb = true /\
  em = Some "doc@hillvalley.edu" /\ ph = None /\
  map id (findMatches em ph (rows strandedDb)) = [2] /\
  map id (primaryRecordsOf em ph strandedDb) = [1] /\
  map id (clusterOf 50 em ph strandedDb) = [2] /\
  outcome run = Err TypeError /\ final run = strandedDb /\ attempts run = 1%nat /\
  rows (final (identify (fun _ => quiet 50) beforeStrandedDb rawEmail rawPhone)) =
    (rows beforeStrandedDb ++
     [mkContact 3 None (Some "doc@hillvalley.edu") (Some 1) secondary 50 50 None])%list.
Proof. vm_compute. repeat split. Qed.

(* ------------------------------------------------------------------ *)
(** ** The normalizers *)

Lemma stripNonDigits_decimal (d : Decimal.uint) :
  stripNonDigits (NilEmpty.string_of_uint d) = NilEmpty.string_of_uint d.
Proof. induction d; simpl; [reflexivity | now rewrite IHd ..]. Qed.

Lemma decimal_of_positive (p : positive) :
  exists c t, NilZero.string_of_uint (Pos.to_uint p) = String c t /\
              stripNonDigits (String c t) = String c t.
Proof.
  pose proof (Unsigned.to_uint_nonnil p) as H.
  pose proof (stripNonDigits_decimal (Pos.to_uint p)) as S.
  destruct (Pos.to_uint p); [congruence | simpl in *; eauto ..].
Qed.

Lemma normalizePhone_number (n : Z) (safe : isSafeInteger n = true) :
  normalizePhone (JsNumber n safe) = Some (decimal (Z.abs n)).
Proof.
  destruct n as [|p|p]; [reflexivity | |]; simpl; unfold decimal;
    destruct (decimal_of_positive p) as [c [t [E S]]]; unfold Z.to_int; simpl;
    rewrite E.
  - now rewrite S.
  - change (stripNonDigits (String "-" (String c t))) with (stripNonDigits (String c t)).
    now rewrite S.
Qed.

(** C10: [normalizePhone] turns every value other than [null] and
    [undefined] into a string and keeps its digits: it treats the value as
    it treats the string [toString] gives for it.  So the number 123456
    becomes "123456", and every number (a safe integer) becomes the digits
    of its absolute value, never [null]; the string the controller passes
    on normalizes to the same digits; [normalizeEmail] answers [null] for
    whatever is not a string, a number included. *)
Theorem normalizePhone_accepts_numbers :
  (forall safe, normalizePhone (JsNumber 123456 safe) = Some "123456") /\
  (forall n safe,
     normalizePhone (JsNumber n safe) = Some (decimal (Z.abs n)) /\
     normalizePhone (phoneArgument (JsNumber n safe)) = Some (decimal (Z.abs n)) /\
     normalizeEmail (JsNumber n safe) = None) /\
  (forall v, v <> JsNull -> v <> JsUndefined ->
     normalizePhone v = emptyToNull (stripNonDigits (toString v)) /\
     normalizePhone v = normalizePhone (JsString (toString v))) /\
  (forall v, normalizePhone (phoneArgument v) = normalizePhone v) /\
  (forall v, (forall s, v <> JsString s) -> normalizeEmail v = None).
Proof.
  split; [reflexivity|]. split; [|split; [|split]].
  - intros n safe. split; [apply normalizePhone_number|]. split; [|reflexivity].
    exact (normalizePhone_number n safe).
  - intros v H1 H2. destruct v; simpl; try congruence; split; reflexivity.
  - intros v. now destruct v.
  - intros v H. destruct v; simpl; try reflexivity. now destruct (H s).
Qed.


(* ------------------------------------------------------------------ *)
(** ** The theorems at concrete requests *)

Lemma hillValleyDb_wellFormed : WellFormed hillValleyDb.
Proof. apply wellFormedb_sound. reflexivity. Defined.

Lemma hillValleyDb_live : PrimariesLive (rows hillValleyDb).
Proof. apply primariesLiveb_sound. reflexivity. Defined.

Lemma true_primary_is_oldest_candidate_witness :
  let rawEmail := JsString "George@HillValley.edu" in
  let rawPhone := JsString "717-171" in
  let em := normalizeEmail rawEmail in
  let ph := normalizePhone rawPhone in
  let run := processContact 3 calm 0 hillValleyDb rawEmail rawPhone in
  exists p others r,
    primaryRecordsOf em ph hillValleyDb = p :: others /\
    (forall c, In c (p :: others) <->
               In c (rows hillValleyDb) /\ In (id c) (candidateIdsOf em ph hillValleyDb)) /\
    (forall c, In c (p :: others) -> createdAt p <= createdAt c) /\
    outcome run = Ok r /\ primaryContactId r = id p /\
    (forall t, In t (rows (final run)) -> id t = id p -> linkPrecedence t = primary) /\
    (forall o, In o others ->
       exists o', In o' (rows (final run)) /\ id o' = id o /\
                  linkPrecedence o' = secondary /\ linkedId o' = Some (id p)).
Proof.
  apply (true_primary_is_oldest_candidate 3 calm 0 hillValleyDb
           (JsString "George@HillValley.edu") (JsString "717-171")
           hillValleyDb_wellFormed hillValleyDb_live).
  - reflexivity.
  - left. vm_compute. discriminate.
  - vm_compute. discriminate.
Defined.

Lemma familyDb_wellFormed : WellFormed familyDb.
Proof. apply wellFormedb_sound. reflexivity. Defined.

Lemma flattening_invariant_kept_witness :
  let rawEmail := JsString "george@hillvalley.edu" in
  let rawPhone := JsString "717171" in
  let run := processContact 3 calm 0 familyDb rawEmail rawPhone in
  let links := map (fun c => (id c, linkPrecedence c, linkedId c)) in
  WellFormed familyDb /\
  links (rows familyDb) = [(1, primary, None); (2, primary, None); (3, secondary, Some 2)] /\
  map id (primaryRecordsOf (normalizeEmail rawEmail) (normalizePhone rawPhone) familyDb)
    = [1; 2] /\
  links (relinkChildren [2] 1 100 (rows familyDb)) =
    [(1, primary, None); (2, primary, None); (3, secondary, Some 1)] /\
  Flat (relinkChildren [2] 1 100 (rows familyDb)) /\
  links (rows (final run)) =
    [(1, primary, None); (2, secondary, Some 1); (3, secondary, Some 1)] /\
  WellFormed (final run) /\ Flat (rows (final run)) /\
  (exists c', In c' (rows (final run)) /\ id c' = 3 /\ linkedId c' = Some 1) /\
  (exists o', In o' (rows (final run)) /\ id o' = 2 /\ linkedId o' = Some 1 /\
              linkPrecedence o' = secondary) /\
  (forall c', In c' (rows (final run)) -> linkedIn (linkedId c') [2] = false).
Proof.
  destruct (flattening_invariant_kept 3 calm 0 familyDb
              (JsString "george@hillvalley.edu") (JsString "717171")
              familyDb_wellFormed) as [WF' [Fl H]].
  destruct (H (mkContact 1 (Some "919191") (Some "george@hillvalley.edu") None
                 primary 10 10 None)
              [mkContact 2 (Some "717171") (Some "biffsucks@hillvalley.edu") None
                 primary 20 20 None])
    as [Hnow Hfin].
  - vm_compute. discriminate.
  - reflexivity.
  - destruct (Hnow 100) as [_ [Hflat _]].
    destruct (Hfin 0%nat
                (mkResponse 1 ["george@hillvalley.edu"; "biffsucks@hillvalley.edu"]
                   ["919191"; "717171"; "555000"] [2; 3]) eq_refl) as [Hmoved Hnone].
    split; [exact familyDb_wellFormed|]. split; [reflexivity|]. split; [reflexivity|].
    split; [reflexivity|]. split; [exact Hflat|]. split; [reflexivity|].
    split; [exact WF'|]. split; [exact Fl|]. split; [|split; [|exact Hnone]].
    + destruct (Hmoved (mkContact 3 (Some "555000") None (Some 2) secondary 30 30 None))
        as [c' [Hc' [Hid [Hl _]]]]; [simpl; auto | reflexivity |].
      now exists c'.
    + destruct (Hmoved (mkContact 2 (Some "717171") (Some "biffsucks@hillvalley.edu") None
                          primary 20 20 None))
        as [o' [Ho' [Hid [Hl Hs]]]]; [simpl; auto | reflexivity |].
      exists o'. repeat split; auto.
Defined.

Lemma same_request_twice_witness :
  let rawEmail := JsString "george@hillvalley.edu" in
  let rawPhone := JsString "717171" in
  let run1 := processContact 3 calm 0 hillValleyDb rawEmail rawPhone in
  let run2 := processContact 3 calm 0 (final run1) rawEmail rawPhone in
  exists r1 r2,
    outcome run1 = Ok r1 /\ outcome run2 = Ok r2 /\
    primaryContactId r2 = primaryContactId r1 /\
    (normalizeEmail rawEmail <> None -> normalizePhone rawPhone <> None ->
     final run2 = final run1).
Proof.
  apply (same_request_twice 3 3 calm calm 0%nat 0%nat hillValleyDb
           (JsString "george@hillvalley.edu") (JsString "717171")
           hillValleyDb_wellFormed hillValleyDb_live).
  - reflexivity.
  - reflexivity.
  - left. vm_compute. discriminate.
  - vm_compute. discriminate.
Defined.

Lemma both_identifiers_only_new_information_witness :
  let rawEmail := JsString "george@hillvalley.edu" in
  let rawPhone := JsString "+1 (555) 000" in
  let em := normalizeEmail rawEmail in
  let ph := normalizePhone rawPhone in
  let now := clock (calm 0) in
  let cluster := clusterOf now em ph hillValleyDb in
  exists p others r,
    primaryRecordsOf em ph hillValleyDb = p :: others /\
    primaryContactId r = id p /\
    map id (mergedRowsOf now em ph hillValleyDb) = map id (rows hillValleyDb) /\
    processContact 3 calm 0 hillValleyDb rawEmail rawPhone =
      if hasEmail em cluster && hasPhone ph cluster
      then mkRun (Ok r) (mkDb (mergedRowsOf now em ph hillValleyDb) (nextId hillValleyDb)) 1
      else mkRun (Ok r)
             (mkDb (mergedRowsOf now em ph hillValleyDb ++
                    [newSecondary hillValleyDb now
                       (if hasEmail em cluster then None else em)
                       (if hasPhone ph cluster then None else ph)
                       (id p)])
                   (nextId hillValleyDb + 1)) 1.
Proof.
  apply (both_identifiers_only_new_information 3 calm 0 hillValleyDb
           (JsString "george@hillvalley.edu") (JsString "+1 (555) 000")
           hillValleyDb_wellFormed hillValleyDb_live).
  - reflexivity.
  - vm_compute. discriminate.
  - vm_compute. discriminate.
  - vm_compute. discriminate.
Defined.

Lemma single_identifier_always_attaches_witness :
  let rawEmail := JsString "george@hillvalley.edu" in
  let rawPhone := JsNull in
  let em := normalizeEmail rawEmail in
  let ph := normalizePhone rawPhone in
  let now := clock (calm 0) in
  exists p others r,
    primaryRecordsOf em ph hillValleyDb = p :: others /\
    processContact 3 calm 0 hillValleyDb rawEmail rawPhone =
      mkRun (Ok r)
            (mkDb (mergedRowsOf now em ph hillValleyDb ++
                   [newSecondary hillValleyDb now em ph (id p)])
                  (nextId hillValleyDb + 1)) 1 /\
    primaryContactId r = id p /\
    map id (mergedRowsOf now em ph hillValleyDb) = map id (rows hillValleyDb).
Proof.
  apply (single_identifier_always_attaches 3 calm 0 hillValleyDb
           (JsString "george@hillvalley.edu") JsNull
           hillValleyDb_wellFormed hillValleyDb_live).
  - reflexivity.
  - left. split; [vm_compute; discriminate | reflexivity].
  - vm_compute. discriminate.
Defined.

Lemma sharedEmailDb_wellFormed : WellFormed sharedEmailDb.
Proof. apply wellFormedb_sound. reflexivity. Defined.

Lemma sharedEmailDb_live : PrimariesLive (rows sharedEmailDb).
Proof. apply primariesLiveb_sound. reflexivity. Defined.

Lemma conflict_answered_from_existing_witness :
  let rawEmail := JsString "doc@hillvalley.edu" in
  let rawPhone := JsString "111" in
  let em := normalizeEmail rawEmail in
  let ph := normalizePhone rawPhone in
  let existing :=
    mkContact 1 (Some "999") (Some "doc@hillvalley.edu") None primary 10 10 None in
  (In existing (rows sharedEmailDb) /\ deletedAt existing = None /\
   requeryMatch em ph existing = true /\
   forall c, In c (rows sharedEmailDb) -> deletedAt c = None ->
             requeryMatch em ph c = true -> createdAt existing <= createdAt c) /\
  (forall s, specFindExisting em ph (rows sharedEmailDb) = Some s ->
             createdAt existing <= createdAt s) /\
  exists t r,
    In t (rows sharedEmailDb) /\ linkPrecedence t = primary /\
    (linkPrecedence existing = primary -> t = existing) /\
    (linkPrecedence existing = secondary -> linkedId existing = Some (id t)) /\
    buildResponse (id t) (fetchContactCluster (id t) (rows sharedEmailDb)) = Ok r /\
    primaryContactId r = id t /\
    processContact 3 lostRace 0 sharedEmailDb rawEmail rawPhone =
      mkRun (Ok r) sharedEmailDb 1.
Proof.
  apply (conflict_answered_from_existing 2 lostRace 0 sharedEmailDb
           (JsString "doc@hillvalley.edu") (JsString "111") P2002
           (mkContact 1 (Some "999") (Some "doc@hillvalley.edu") None primary 10 10 None)
           sharedEmailDb_wellFormed sharedEmailDb_live).
  - left. vm_compute. discriminate.
  - reflexivity.
  - reflexivity.
  - reflexivity.
  - reflexivity.
Defined.

Lemma retry_budget_witness :
  let rawEmail := JsString "lorraine@hillvalley.edu" in
  let rawPhone := JsNumber 123456 eq_refl in
  (attempts (identify stormy (mkDb [] 1) rawEmail rawPhone) <= 1 + 3)%nat /\
  processContact 3 stormy 0 (mkDb [] 1) rawEmail rawPhone =
    mkRun (Err (DatabaseError "Failed to resolve contact conflict")) (mkDb [] 1) 4.
Proof.
  destruct (retry_budget 3 stormy 0 (mkDb [] 1)
              (JsString "lorraine@hillvalley.edu") (JsNumber 123456 eq_refl))
    as [_ [Hid [Hex _]]].
  - left. vm_compute. discriminate.
  - split; [exact Hid|]. apply Hex.
    + intros j _. exists P2002. split; reflexivity.
    + intros j _. reflexivity.
Defined.

Lemma unmatched_request_creates_primary_witness :
  let rawEmail := JsString "lorraine@hillvalley.edu" in
  let rawPhone := JsString "123456" in
  processContact 3 calm 0 (mkDb [] 1) rawEmail rawPhone =
  mkRun (Ok (mkResponse 1 ["lorraine@hillvalley.edu"] ["123456"] []))
        (mkDb [mkContact 1 (Some "123456") (Some "lorraine@hillvalley.edu") None
                 primary 100 100 None] 2) 1.
Proof.
  apply (unmatched_request_creates_primary 3 calm 0 (mkDb [] 1)
           (JsString "lorraine@hillvalley.edu") (JsString "123456")).
  - reflexivity.
  - left. vm_compute. discriminate.
  - reflexivity.
  - reflexivity.
Defined.

Lemma normalizePhone_accepts_numbers_witness :
  normalizePhone (JsBoolean true) = None /\
  normalizePhone (JsNumber (-442071234567) eq_refl) = Some "442071234567" /\
  normalizePhone (JsNumber MAX_SAFE_INTEGER eq_refl) = Some "9007199254740991" /\
  normalizeEmail (JsNumber 123456 eq_refl) = None.
Proof.
  destruct normalizePhone_accepts_numbers as [_ [Hn [Hp [_ He]]]].
  split; [|split; [|split]].
  - rewrite (proj1 (Hp (JsBoolean true) ltac:(discriminate) ltac:(discriminate))).
    reflexivity.
  - rewrite (proj1 (Hn (-442071234567) eq_refl)). reflexivity.
  - rewrite (proj1 (Hn MAX_SAFE_INTEGER eq_refl)). reflexivity.
  - apply He. discriminate.
Defined.

(* ------------------------------------------------------------------ *)
(** ** Canonical forms of the normalizers *)

Lemma lowerChar_idempotent (c : ascii) : lowerChar (lowerChar c) = lowerChar c.
Proof. destruct c as [[] [] [] [] [] [] [] []]; reflexivity. Qed.

Lemma lowerChar_whiteSpace (c : ascii) : isWhiteSpace (lowerChar c) = isWhiteSpace c.
Proof. destruct c as [[] [] [] [] [] [] [] []]; reflexivity. Qed.

Lemma lowerChar_not_upper (c : ascii) : isUpper (lowerChar c) = false.
Proof. destruct c as [[] [] [] [] [] [] [] []]; reflexivity. Qed.

Lemma lowerChar_not_upperCase (c : ascii) : isUpperCase (lowerChar c) = false.
Proof. destruct c as [[] [] [] [] [] [] [] []]; reflexivity. Qed.

Lemma toLowerCase_no_upperCase (s : string) :
  allChars (fun c => negb (isUpperCase c)) (toLowerCase s) = true.
Proof.
  induction s as [|c t IH]; simpl; [reflexivity|].
  now rewrite lowerChar_not_upperCase, IH.
Qed.

Lemma toLowerCase_idempotent (s : string) : toLowerCase (toLowerCase s) = toLowerCase s.
Proof. induction s as [|c t IH]; simpl; [reflexivity|]. now rewrite lowerChar_idempotent, IH. Qed.

Lemma toLowerCase_no_upper (s : string) :
  allChars (fun c => negb (isUpper c)) (toLowerCase s) = true.
Proof. induction s as [|c t IH]; simpl; [reflexivity|]. now rewrite lowerChar_not_upper, IH. Qed.

Lemma trimStart_toLowerCase (s : string) :
  trimStart (toLowerCase s) = toLowerCase (trimStart s).
Proof.
  induction s as [|c t IH]; simpl; [reflexivity|].
  rewrite lowerChar_whiteSpace. now destruct (isWhiteSpace c).
Qed.

Lemma trimEnd_toLowerCase (s : string) :
  trimEnd (toLowerCase s) = toLowerCase (trimEnd s).
Proof.
  induction s as [|c t IH]; simpl; [reflexivity|].
  rewrite IH, lowerChar_whiteSpace.
  destruct (trimEnd t); simpl; [now destruct (isWhiteSpace c) | reflexivity].
Qed.

Lemma trim_toLowerCase (s : string) : trim (toLowerCase s) = toLowerCase (trim s).
Proof. unfold trim. now rewrite trimStart_toLowerCase, trimEnd_toLowerCase. Qed.

Lemma trimEnd_idempotent (s : string) : trimEnd (trimEnd s) = trimEnd s.
Proof.
  induction s as [|c t IH]; simpl; [reflexivity|].
  destruct (trimEnd t) as [|d u] eqn:E.
  - destruct (isWhiteSpace c) eqn:W; simpl; [reflexivity | now rewrite W].
  - change (trimEnd (String c (String d u))) with
      (match trimEnd (String d u) with
       | EmptyString => if isWhiteSpace c then EmptyString else String c EmptyString
       | t' => String c t'
       end).
    now rewrite IH.
Qed.

Lemma trimStart_first (s : string) : notWhiteSpace (firstChar (trimStart s)) = true.
Proof.
  induction s as [|c t IH]; simpl; [reflexivity|].
  destruct (isWhiteSpace c) eqn:W; [assumption | simpl; now rewrite W].
Qed.

Lemma trimStart_fixed (s : string) :
  notWhiteSpace (firstChar s) = true -> trimStart s = s.
Proof.
  destruct s as [|c t]; simpl; [reflexivity|].
  now destruct (isWhiteSpace c).
Qed.

Lemma trimEnd_first (s : string) :
  notWhiteSpace (firstChar s) = true -> notWhiteSpace (firstChar (trimEnd s)) = true.
Proof.
  destruct s as [|c t]; simpl; [reflexivity|]. intros W.
  destruct (trimEnd t); simpl; [|assumption].
  apply negb_true_iff in W. rewrite W. simpl. now rewrite W.
Qed.

Lemma trimEnd_last (s : string) : notWhiteSpace (lastChar (trimEnd s)) = true.
Proof.
  induction s as [|c t IH]; simpl; [reflexivity|].
  destruct (trimEnd t) as [|d u] eqn:E.
  - destruct (isWhiteSpace c) eqn:W; simpl; [reflexivity | now rewrite W].
  - exact IH.
Qed.

Lemma trim_idempotent (s : string) : trim (trim s) = trim s.
Proof.
  unfold trim.
  rewrite (trimStart_fixed (trimEnd (trimStart s)));
    [apply trimEnd_idempotent | apply trimEnd_first, trimStart_first].
Qed.

Lemma emptyToNull_Some (s e : string) : emptyToNull s = Some e -> s = e /\ e <> "".
Proof.
  unfold emptyToNull. destruct (String.eqb_spec s ""); [discriminate|].
  intros [= <-]. auto.
Qed.

Lemma emptyToNull_nonempty (s : string) : s <> "" -> emptyToNull s = Some s.
Proof. unfold emptyToNull. now destruct (String.eqb_spec s ""). Qed.

(** X1: a normalized email is in canonical form, and normalizing it again
    gives it back: it is not empty, has no white space at either end and no
    upper-case letter. *)
Theorem normalizeEmail_canonical :
  forall v e,
    normalizeEmail v = Some e ->
    e <> "" /\
    notWhiteSpace (firstChar e) = true /\ notWhiteSpace (lastChar e) = true /\
    allChars (fun c => negb (isUpper c)) e = true /\
    normalizeEmail (JsString e) = Some e.
Proof.
  intros v e H. destruct v; simpl in H; try discriminate.
  apply emptyToNull_Some in H. destruct H as [<- Hne].
  assert (T : trim (toLowerCase (trim s)) = toLowerCase (trim s))
    by (now rewrite trim_toLowerCase, trim_idempotent).
  split; [assumption|].
  split; [rewrite <- T; apply trimEnd_first, trimStart_first|].
  split; [rewrite <- T; apply trimEnd_last|].
  split; [apply toLowerCase_no_upper|].
  unfold normalizeEmail. rewrite T, toLowerCase_idempotent.
  now apply emptyToNull_nonempty.
Qed.

Lemma normalizeEmail_canonical_witness :
  normalizeEmail (JsString "george@hillvalley.edu") = Some "george@hillvalley.edu".
Proof.
  apply (normalizeEmail_canonical (JsString "  George@HillValley.EDU ")
           "george@hillvalley.edu").
  reflexivity.
Defined.

(** X2: [normalizeEmail] does not see letter case or white space around
    the address: lower-casing or trimming the input first changes nothing,
    two inputs that differ in letter case only normalize to the same value,
    and no capital letter, A-Z or Latin-1, is left in the result. *)
Theorem normalizeEmail_insensitive :
  forall s,
    normalizeEmail (JsString (toLowerCase s)) = normalizeEmail (JsString s) /\
    normalizeEmail (JsString (trim s)) = normalizeEmail (JsString s) /\
    (forall s', toLowerCase s' = toLowerCase s ->
       normalizeEmail (JsString s') = normalizeEmail (JsString s)) /\
    (forall e, normalizeEmail (JsString s) = Some e ->
       allChars (fun c => negb (isUpperCase c)) e = true).
Proof.
  intros s. simpl. split; [|split; [|split]].
  - now rewrite trim_toLowerCase, toLowerCase_idempotent.
  - now rewrite trim_idempotent.
  - intros s' E. now rewrite <- !trim_toLowerCase, E.
  - intros e. unfold emptyToNull.
    destruct (toLowerCase (trim s) =? "")%string; [discriminate|].
    intros [= <-]. apply toLowerCase_no_upperCase.
Qed.

Lemma normalizeEmail_insensitive_witness :
  normalizeEmail (JsString (String (ascii_of_nat 201) "COLE@HillValley.EDU")) =
  normalizeEmail (JsString (String (ascii_of_nat 233) "cole@hillvalley.edu")) /\
  normalizeEmail (JsString (String (ascii_of_nat 201) "COLE@HillValley.EDU")) =
  Some (String (ascii_of_nat 233) "cole@hillvalley.edu").
Proof.
  split; [|reflexivity].
  apply (normalizeEmail_insensitive (String (ascii_of_nat 233) "cole@hillvalley.edu")).
  reflexivity.
Defined.

Lemma stripNonDigits_allDigits (s : string) :
  allChars isDigit (stripNonDigits s) = true.
Proof.
  induction s as [|c t IH]; simpl; [reflexivity|].
  destruct (isDigit c) eqn:D; simpl; [now rewrite D|assumption].
Qed.

Lemma stripNonDigits_fixed (s : string) :
  allChars isDigit s = true -> stripNonDigits s = s.
Proof.
  induction s as [|c t IH]; simpl; [reflexivity|].
  intros H. apply andb_true_iff in H. destruct H as [-> H]. now rewrite IH.
Qed.

Lemma stripNonDigits_app (a b : string) :
  stripNonDigits (a ++ b) = (stripNonDigits a ++ stripNonDigits b)%string.
Proof.
  induction a as [|c t IH]; simpl; [reflexivity|].
  destruct (isDigit c); simpl; now rewrite IH.
Qed.

Lemma stripNonDigits_separator (s : string) :
  allChars (fun c => negb (isDigit c)) s = true -> stripNonDigits s = "".
Proof.
  induction s as [|c t IH]; simpl; [reflexivity|].
  intros H. apply andb_true_iff in H. destruct H as [D H].
  apply negb_true_iff in D. rewrite D. auto.
Qed.

(** X3: a normalized phone is a non-empty string of digits, and normalizing
    it again gives it back. *)
Theorem normalizePhone_canonical :
  forall v d,
    normalizePhone v = Some d ->
    d <> "" /\ allChars isDigit d = true /\ normalizePhone (JsString d) = Some d.
Proof.
  intros v d H.
  assert (E : emptyToNull (stripNonDigits (toString v)) = Some d)
    by (destruct v; simpl in H; try discriminate; exact H).
  apply emptyToNull_Some in E. destruct E as [<- Hne].
  split; [assumption|]. split; [apply stripNonDigits_allDigits|].
  simpl. rewrite (stripNonDigits_fixed _ (stripNonDigits_allDigits _)).
  now apply emptyToNull_nonempty.
Qed.

Lemma normalizePhone_canonical_witness :
  normalizePhone (JsString "442071234567") = Some "442071234567".
Proof.
  apply (normalizePhone_canonical (JsString "+44 20 7123 4567") "442071234567").
  reflexivity.
Defined.

(** X4: characters that are not digits, wherever they stand in a phone
    number, do not change what it normalizes to. *)
Theorem normalizePhone_ignores_separators :
  forall a sep b,
    allChars (fun c => negb (isDigit c)) sep = true ->
    normalizePhone (JsString (a ++ sep ++ b)) = normalizePhone (JsString (a ++ b)).
Proof.
  intros a sep b H. simpl.
  now rewrite !stripNonDigits_app, (stripNonDigits_separator sep H).
Qed.

Lemma normalizePhone_ignores_separators_witness :
  normalizePhone (JsString "+1 (987) 654-3210") = normalizePhone (JsString "+1 (987654-3210").
Proof.
  apply (normalizePhone_ignores_separators "+1 (987" ") " "654-3210").
  reflexivity.
Defined.

(* ------------------------------------------------------------------ *)
(** ** What a response holds *)

Lemma uniqueStrings_In (x : string) (l : list string) :
  In x (uniqueStrings l) <-> In x l.
Proof.
  induction l as [|y t IH]; simpl; [tauto|].
  rewrite filter_In, IH. split.
  - intros [H | [H _]]; auto.
  - intros [H | H]; auto.
    destruct (string_dec y x) as [E | NE]; [now left | right].
    split; [assumption|]. apply negb_true_iff, String.eqb_neq. congruence.
Qed.

Lemma uniqueStrings_NoDup (l : list string) : NoDup (uniqueStrings l).
Proof.
  induction l as [|y t IH]; simpl; constructor.
  - rewrite filter_In. intros [_ H].
    apply negb_true_iff in H. now rewrite String.eqb_refl in H.
  - now apply NoDup_filter.
Qed.

Lemma truthyStrings_In (x : string) (l : list (option string)) :
  In x (truthyStrings l) <-> x <> "" /\ In (Some x) l.
Proof.
  induction l as [|o t IH]; simpl; [tauto|].
  destruct o as [v|].
  - destruct (String.eqb_spec v ""); simpl; rewrite IH; split.
    + intros [H1 H2]; auto.
    + intros [H1 [[= ->] | H2]]; [contradiction | auto].
    + intros [<- | [H1 H2]]; auto.
    + intros [H1 [[= ->] | H2]]; auto.
  - rewrite IH. split; [intros [H1 H2]; auto | intros [H1 [H2 | H2]]; [discriminate | auto]].
Qed.

(** The values of one column in a response built for [p] and [chain]. *)
Lemma column_values (col : Contact -> option string) (pid : Z) (p : Contact)
    (chain : list Contact) (x : string) :
  In x (uniqueStrings (truthyStrings
          (col p :: map col (filter (fun c => negb (id c =? pid)) chain)))) <->
  x <> "" /\
  (col p = Some x \/ exists c, In c chain /\ id c <> pid /\ col c = Some x).
Proof.
  rewrite uniqueStrings_In, truthyStrings_In. simpl. rewrite in_map_iff.
  split; intros [Hne H]; (split; [assumption|]).
  - destruct H as [H | [c [Hc Hin]]]; [now left | right].
    apply filter_In in Hin. destruct Hin as [Hin Hid].
    apply negb_true_iff, Z.eqb_neq in Hid. now exists c.
  - destruct H as [H | [c [Hin [Hid Hc]]]]; [now left | right].
    exists c. split; [assumption|]. apply filter_In. split; [assumption|].
    now apply negb_true_iff, Z.eqb_neq.
Qed.

Lemma column_first (col : Contact -> option string) (p : Contact)
    (rest : list (option string)) (x : string) :
  col p = Some x -> x <> "" ->
  hd_error (uniqueStrings (truthyStrings (col p :: rest))) = Some x.
Proof.
  intros -> Hne. simpl. now destruct (String.eqb_spec x "").
Qed.

(** X5: what [buildResponse] puts in an answer.  The primary is a row of
    the chain with the asked id; each list has no repeats and no empty
    string, holds exactly the values of the primary and of the rows with
    another id, and starts with the primary's own value when it has one; the
    secondary ids are the ids in the chain other than the primary's. *)
Theorem buildResponse_contents :
  forall pid chain r,
    buildResponse pid chain = Ok r ->
    exists p,
      In p chain /\ id p = pid /\ primaryContactId r = pid /\
      NoDup (emails r) /\ NoDup (phoneNumbers r) /\
      (forall x, In x (emails r) <->
         x <> "" /\
         (email p = Some x \/ exists c, In c chain /\ id c <> pid /\ email c = Some x)) /\
      (forall x, In x (phoneNumbers r) <->
         x <> "" /\
         (phoneNumber p = Some x \/
          exists c, In c chain /\ id c <> pid /\ phoneNumber c = Some x)) /\
      (forall x, email p = Some x -> x <> "" -> hd_error (emails r) = Some x) /\
      (forall x, phoneNumber p = Some x -> x <> "" ->
                 hd_error (phoneNumbers r) = Some x) /\
      (forall i, In i (secondaryContactIds r) <->
                 i <> pid /\ exists c, In c chain /\ id c = i).
Proof.
  intros pid chain r H. unfold buildResponse in H.
  destruct (find (fun c => id c =? pid) chain) as [p|] eqn:F; [|discriminate].
  injection H as <-. apply find_some in F. destruct F as [Hp Hid].
  apply Z.eqb_eq in Hid. exists p. simpl.
  split; [assumption|]. split; [assumption|]. split; [reflexivity|].
  split; [apply uniqueStrings_NoDup|]. split; [apply uniqueStrings_NoDup|].
  split; [intros x; apply (column_values email)|].
  split; [intros x; apply (column_values phoneNumber)|].
  split; [intros x; apply (column_first email)|].
  split; [intros x; apply (column_first phoneNumber)|].
  intros i. rewrite in_map_iff. split.
  - intros [c [<- Hc]]. apply filter_In in Hc. destruct Hc as [Hc Hne].
    apply negb_true_iff, Z.eqb_neq in Hne. split; [assumption | now exists c].
  - intros [Hne [c [Hc <-]]]. exists c. split; [reflexivity|].
    apply filter_In. split; [assumption|]. now apply negb_true_iff, Z.eqb_neq.
Qed.

Lemma buildResponse_contents_witness :
  exists p,
    In p (rows hillValleyDb) /\ id p = 1 /\
    primaryContactId
      (mkResponse 1 ["george@hillvalley.edu"; "biffsucks@hillvalley.edu"]
                    ["919191"; "717171"] [2]) = 1 /\
    NoDup ["george@hillvalley.edu"; "biffsucks@hillvalley.edu"] /\
    NoDup ["919191"; "717171"].
Proof.
  destruct (buildResponse_contents 1 (rows hillValleyDb)
              (mkResponse 1 ["george@hillvalley.edu"; "biffsucks@hillvalley.edu"]
                            ["919191"; "717171"] [2]) eq_refl)
    as [p [H1 [H2 [H3 [H4 [H5 _]]]]]].
  exists p. repeat split; assumption.
Defined.

(** X6: [buildResponse] fails exactly when the chain has no row with the
    asked id, and then with the [TypeError] of reading a property of
    [undefined]. *)
Theorem buildResponse_needs_primary :
  forall pid chain,
    (~ In pid (map id chain) <-> buildResponse pid chain = Err TypeError) /\
    (forall e, buildResponse pid chain = Err e -> e = TypeError).
Proof.
  intros pid chain. unfold buildResponse.
  destruct (find (fun c => id c =? pid) chain) as [p|] eqn:F.
  - apply find_some in F. destruct F as [Hp Hid]. apply Z.eqb_eq in Hid.
    split; [|discriminate]. split; [|discriminate].
    intros H. exfalso. apply H. rewrite <- Hid. now apply in_map.
  - split; [|now intros e [= <-]]. split; [reflexivity|].
    intros _ Hin. apply in_map_iff in Hin. destruct Hin as [c [Hid Hc]].
    pose proof (find_none _ _ F c Hc) as N. simpl in N.
    apply Z.eqb_neq in N. contradiction.
Qed.

Lemma buildResponse_needs_primary_witness :
  buildResponse 7 (rows hillValleyDb) = Err TypeError.
Proof.
  apply (proj1 (buildResponse_needs_primary 7 (rows hillValleyDb))).
  simpl. intros [H | [H | []]]; discriminate.
Defined.

(* ------------------------------------------------------------------ *)
(** ** An answer and the table it leaves *)

(** An answer comes from a committed transaction or from the re-query. *)
Lemma processContact_answer_origin n env k db rawEmail rawPhone r :
  outcome (processContact n env k db rawEmail rawPhone) = Ok r ->
  (exists j,
     transaction (clock (env j)) (normalizeEmail rawEmail) (normalizePhone rawPhone) db
     = Ok (final (processContact n env k db rawEmail rawPhone), r)) \/
  (final (processContact n env k db rawEmail rawPhone) = db /\
   exists j, requery (env j) (normalizeEmail rawEmail) (normalizePhone rawPhone) db
             = Some r).
Proof.
  revert k. induction n as [|n IH]; intros k; simpl;
    destruct (negb (truthy (normalizeEmail rawEmail)) &&
              negb (truthy (normalizePhone rawPhone))); simpl; try discriminate;
    unfold runTransaction; destruct (txFault (env k)) as [f|].
  - destruct (isP2002 f); simpl; discriminate.
  - destruct (transaction _ _ _ _) as [[db' r']|e] eqn:T; simpl.
    + intros [= <-]. left. now exists k.
    + destruct (isP2002 e); simpl; discriminate.
  - destruct (isP2002 f); simpl; [|discriminate].
    destruct (requery _ _ _ _) as [r'|] eqn:Q; simpl.
    + intros [= <-]. right. split; [reflexivity | now exists k].
    + apply IH.
  - destruct (transaction _ _ _ _) as [[db' r']|e] eqn:T; simpl.
    + intros [= <-]. left. now exists k.
    + destruct (isP2002 e); simpl; [|discriminate].
      destruct (requery _ _ _ _) as [r'|] eqn:Q; simpl.
      * intros [= <-]. right. split; [reflexivity | now exists k].
      * apply IH.
Qed.

Lemma attachSecondary_response now em ph pid cluster db db' r :
  attachSecondary now em ph pid cluster db = Ok (db', r) ->
  db' = mkDb (rows db ++ [newSecondary db now em ph pid]) (nextId db + 1) /\
  buildResponse pid (cluster ++ [newSecondary db now em ph pid]) = Ok r.
Proof.
  unfold attachSecondary, create, newSecondary.
  destruct (uniqueViolation (rows db) em ph); simpl; [discriminate|].
  destruct (buildResponse pid _) as [r'|] eqn:B; simpl; [|discriminate].
  now intros [= <- <-].
Qed.

(** What the decision of steps 7 and 8 writes and answers: nothing or one
    secondary under [pid], and the response built from the cluster with the
    new row at its end. *)
Lemma decideNewInformation_response now em ph pid cluster db db' r :
  decideNewInformation now em ph pid cluster db = Ok (db', r) ->
  exists extra : list Contact,
    rows db' = (rows db ++ extra)%list /\
    buildResponse pid (cluster ++ extra) = Ok r /\
    (extra = [] /\ db' = db /\
     (truthy em = true -> hasEmail em cluster = true) /\
     (truthy ph = true -> hasPhone ph cluster = true) \/
     exists e q, extra = [newSecondary db now e q pid] /\
                 nextId db' = nextId db + 1 /\
                 (truthy em = true -> hasEmail em cluster = false -> e = em) /\
                 (truthy ph = true -> hasPhone ph cluster = false -> q = ph)).
Proof.
  assert (Att : forall e q,
            (truthy em = true -> hasEmail em cluster = false -> e = em) ->
            (truthy ph = true -> hasPhone ph cluster = false -> q = ph) ->
            attachSecondary now e q pid cluster db = Ok (db', r) ->
            exists extra : list Contact,
              rows db' = (rows db ++ extra)%list /\
              buildResponse pid (cluster ++ extra) = Ok r /\
              (extra = [] /\ db' = db /\
               (truthy em = true -> hasEmail em cluster = true) /\
               (truthy ph = true -> hasPhone ph cluster = true) \/
               exists e q, extra = [newSecondary db now e q pid] /\
                           nextId db' = nextId db + 1 /\
                           (truthy em = true -> hasEmail em cluster = false -> e = em) /\
                           (truthy ph = true -> hasPhone ph cluster = false -> q = ph))).
  { intros e q He Hq H. apply attachSecondary_response in H. destruct H as [-> H].
    eexists. split; [reflexivity|]. split; [exact H|]. right.
    exists e, q. auto. }
  assert (Keep : (truthy em = true -> hasEmail em cluster = true) ->
                 (truthy ph = true -> hasPhone ph cluster = true) ->
                 (r0 <- buildResponse pid cluster ;; Ok (db, r0)) = Ok (db', r) ->
            exists extra : list Contact,
              rows db' = (rows db ++ extra)%list /\
              buildResponse pid (cluster ++ extra) = Ok r /\
              (extra = [] /\ db' = db /\
               (truthy em = true -> hasEmail em cluster = true) /\
               (truthy ph = true -> hasPhone ph cluster = true) \/
               exists e q, extra = [newSecondary db now e q pid] /\
                           nextId db' = nextId db + 1 /\
                           (truthy em = true -> hasEmail em cluster = false -> e = em) /\
                           (truthy ph = true -> hasPhone ph cluster = false -> q = ph))).
  { intros He Hq H.
    destruct (buildResponse pid cluster) as [r'|] eqn:B; simpl in H; [|discriminate].
    injection H as <- <-. exists []. rewrite !app_nil_r.
    split; [reflexivity|]. split; [exact B|]. left. repeat split; assumption. }
  unfold decideNewInformation, needEmailLink, needPhoneLink.
  destruct (truthy em) eqn:Te, (truthy ph) eqn:Tp; simpl.
  - destruct (hasEmail em cluster) eqn:HE, (hasPhone ph cluster) eqn:HP; simpl;
      try (apply Att; congruence). apply Keep; auto.
  - apply Att; congruence.
  - apply Att; congruence.
  - apply Keep; discriminate.
Qed.

Lemma filter_none {A : Type} (f : A -> bool) (l : list A) :
  (forall x, In x l -> f x = false) -> filter f l = [].
Proof.
  induction l as [|x t IH]; simpl; intros H; [reflexivity|].
  rewrite (H x (or_introl eq_refl)). apply IH. intros y Hy. apply H. now right.
Qed.

Lemma buildResponse_primaryContactId pid chain r :
  buildResponse pid chain = Ok r -> primaryContactId r = pid.
Proof.
  unfold buildResponse. destruct (find _ chain); [|discriminate]. now intros [= <-].
Qed.

(** No row of a well-formed table has the next id of the sequence, or a
    link to it. *)
Lemma next_id_unused (db : Db) :
  WellFormed db -> findCluster [nextId db] (rows db) = [].
Proof.
  intros WF. apply filter_none. intros c Hc.
  pose proof (wf_ids db WF c Hc) as Hid.
  replace (inIds (id c) [nextId db]) with false
    by (symmetry; apply inIds_false; intros [E | []]; lia).
  replace (linkedIn (linkedId c) [nextId db]) with false; [apply andb_false_r|].
  symmetry. destruct (linkedId c) as [l|] eqn:L; [|reflexivity].
  apply inIds_false. intros [E | []].
  destruct (wf_link db WF c l Hc L) as [t [Ht [Hl _]]].
  pose proof (wf_ids db WF t Ht). lia.
Qed.

Lemma inIds_cons (x a : Z) (l : list Z) : inIds x (a :: l) = (x =? a) || inIds x l.
Proof. reflexivity. Qed.

Lemma linkedIn_cons (o : option Z) (a : Z) (l : list Z) :
  linkedIn o (a :: l) = linkedIn o [a] || linkedIn o l.
Proof. destruct o; simpl; [|reflexivity]. now rewrite orb_false_r. Qed.

Lemma linkedIn_self (a : Z) : linkedIn (Some a) [a] = true.
Proof. simpl. now rewrite Z.eqb_refl. Qed.

(** Once the merge is done, the rows fetched by step 6 are the rows a fetch
    of the true primary's cluster alone returns. *)
Lemma merged_cluster_of_primary now em ph db p others :
  primaryRecordsOf em ph db = p :: others ->
  clusterOf now em ph db = findCluster [id p] (mergedRowsOf now em ph db).
Proof.
  intros R. unfold clusterOf. rewrite R. simpl map.
  rewrite (mergedRowsOf_eq now em ph db p others R).
  unfold findCluster. apply filter_ext_in. intros c Hc.
  apply in_map_iff in Hc. destruct Hc as [c0 [<- _]].
  f_equal. rewrite mergeRow_id, mergeRow_linkedId.
  rewrite (inIds_cons _ _ (map id others)), (linkedIn_cons _ _ (map id others)).
  destruct (inIds (id c0) (map id others)) eqn:A.
  - cbn [orb]. rewrite linkedIn_self. now rewrite !orb_true_r.
  - destruct (linkedIn (linkedId c0) (map id others)) eqn:B.
    + cbn [orb]. rewrite linkedIn_self. now rewrite !orb_true_r.
    + cbn [orb]. rewrite B, (inIds_cons _ _ []). cbn [inIds existsb].
      now rewrite !orb_false_r.
Qed.

(** The answer of a committed transaction is what a fresh read of the
    primary's cluster in the committed table gives. *)
Lemma transaction_reads_back now em ph db db' r :
  WellFormed db -> transaction now em ph db = Ok (db', r) ->
  buildResponse (primaryContactId r)
    (fetchContactCluster (primaryContactId r) (rows db')) = Ok r.
Proof.
  intros WF Htx.
  destruct (findMatches em ph (rows db)) as [|m0 ms] eqn:E.
  - assert (U : uniqueViolation (rows db) em ph = false).
    { unfold transaction, create in Htx. rewrite E in Htx.
      destruct (uniqueViolation (rows db) em ph); [discriminate | reflexivity]. }
    rewrite (transaction_unmatched now em ph db E U) in Htx.
    injection Htx as <- <-. simpl.
    unfold fetchContactCluster, findCluster. rewrite filter_app.
    fold (findCluster [nextId db] (rows db)). rewrite (next_id_unused db WF).
    unfold newPrimary. cbn [filter deletedAt isNull id linkedId linkedIn andb app].
    rewrite inIds_cons, Z.eqb_refl. cbn [orb].
    unfold buildResponse. cbn [find id]. rewrite Z.eqb_refl.
    cbn [filter id]. now rewrite Z.eqb_refl.
  - assert (Hm : findMatches em ph (rows db) <> []) by (rewrite E; discriminate).
    destruct (primaryRecords_shape em ph db WF Hm) as [p [others [R _]]].
    rewrite (transaction_matched now em ph db p others Hm R) in Htx.
    destruct (decideNewInformation_response _ _ _ _ _ _ _ _ Htx)
      as [extra [Hrows [Hr Hextra]]].
    rewrite (buildResponse_primaryContactId _ _ _ Hr). simpl in Hrows.
    rewrite Hrows. unfold fetchContactCluster, findCluster. rewrite filter_app.
    fold (findCluster [id p] (mergedRowsOf now em ph db)).
    rewrite <- (merged_cluster_of_primary now em ph db p others R).
    replace (filter _ extra) with extra; [exact Hr|].
    destruct Hextra as [[-> _] | [e [q [-> _]]]]; [reflexivity|].
    unfold newSecondary. cbn [filter deletedAt isNull id linkedId andb].
    now rewrite linkedIn_self, orb_true_r.
Qed.

Lemma processContact_reads_back :
  forall n env k db rawEmail rawPhone r,
    WellFormed db ->
    let run := processContact n env k db rawEmail rawPhone in
    outcome run = Ok r ->
    buildResponse (primaryContactId r)
      (fetchContactCluster (primaryContactId r) (rows (final run))) = Ok r.
Proof.
  intros n env k db rawEmail rawPhone r WF run H.
  destruct (processContact_answer_origin n env k db rawEmail rawPhone r H)
    as [[j Htx] | [Hdb [j Hq]]].
  - exact (transaction_reads_back _ _ _ _ _ _ WF Htx).
  - unfold run. rewrite Hdb. unfold requery in Hq.
    destruct (requeryFault (env j)); [discriminate|].
    destruct (findFirstExisting _ _ _) as [x|]; [|discriminate].
    destruct (match linkPrecedence x with primary => Some (id x) | secondary => linkedId x end)
      as [t|]; [|discriminate].
    destruct (buildResponse t (fetchContactCluster t (rows db))) as [r'|] eqn:B;
      [|discriminate].
    injection Hq as ->. now rewrite (buildResponse_primaryContactId _ _ _ B).
Qed.

(** X7: whatever the attempts meet, an answer of [processContact] agrees
    with the table the call leaves, in whatever order a query returns its
    rows.  The answered primary is a live row of that table; with the
    cluster being that row and the live rows linked to it, the emails and
    the phone numbers of the answer are exactly the non-empty values of the
    cluster's rows, and the secondary ids are exactly the ids of its rows
    other than the primary. *)
Theorem answer_reads_back :
  forall n env k db rawEmail rawPhone r,
    WellFormed db ->
    let run := processContact n env k db rawEmail rawPhone in
    outcome run = Ok r ->
    let pid := primaryContactId r in
    let inCluster c :=
      In c (rows (final run)) /\ deletedAt c = None /\
      (id c = pid \/ linkedId c = Some pid) in
    (exists p, inCluster p /\ id p = pid) /\
    (forall x, In x (emails r) <->
               x <> "" /\ exists c, inCluster c /\ email c = Some x) /\
    (forall x, In x (phoneNumbers r) <->
               x <> "" /\ exists c, inCluster c /\ phoneNumber c = Some x) /\
    (forall i, In i (secondaryContactIds r) <->
               i <> pid /\ exists c, inCluster c /\ id c = i).
Proof.
  intros n env k db rawEmail rawPhone r WF run H pid inCluster.
  pose proof (processContact_reads_back n env k db rawEmail rawPhone r WF H) as Hread.
  fold run pid in Hread.
  assert (WF' : WellFormed (final run)).
  { destruct (processContact_final n env k db rawEmail rawPhone) as [E | [j [r' Htx]]].
    - unfold run. now rewrite E.
    - exact (transaction_preserves_wf _ _ _ _ _ _ WF Htx). }
  set (chain := fetchContactCluster pid (rows (final run))) in *.
  assert (Hin : forall c, In c chain <-> inCluster c).
  { intros c. unfold chain, fetchContactCluster, inCluster. rewrite findCluster_In.
    simpl. split; intros [H1 [H2 H3]]; (split; [assumption|]); (split; [assumption|]).
    - destruct H3 as [[E | []] | [l [Hl [E | []]]]]; [now left | right; congruence].
    - destruct H3 as [E | E]; [left; now left | right; exists pid; auto]. }
  assert (ND : NoDup (map id chain))
    by (apply NoDup_ids_filter, (wf_nodup _ WF')).
  unfold buildResponse in Hread.
  destruct (find (fun c => id c =? pid) chain) as [p|] eqn:F; [|discriminate].
  apply find_some in F. destruct F as [Hp Hid]. apply Z.eqb_eq in Hid.
  injection Hread as Hr. rewrite <- Hr. cbn [emails phoneNumbers secondaryContactIds].
  assert (Hcol : forall (col : Contact -> option string) x,
            In x (uniqueStrings (truthyStrings
                   (col p :: map col (filter (fun c => negb (id c =? pid)) chain)))) <->
            x <> "" /\ exists c, inCluster c /\ col c = Some x).
  { intros col x. rewrite (column_values col). split; intros [Hne Hx]; (split; [assumption|]).
    - destruct Hx as [Hx | [c [Hc [_ Hx]]]].
      + exists p. split; [now apply Hin | assumption].
      + exists c. split; [now apply Hin | assumption].
    - destruct Hx as [c [Hc Hx]]. apply Hin in Hc.
      destruct (Z.eq_dec (id c) pid) as [E | NE].
      + left. rewrite (same_id_same_row chain p c ND Hp Hc); [assumption | congruence].
      + right. now exists c. }
  split; [exists p; split; [now apply Hin | assumption]|].
  split; [apply Hcol|]. split; [apply Hcol|].
  intros i. rewrite in_map_iff. split.
  - intros [c [Hc Hf]]. apply filter_In in Hf. destruct Hf as [Hf Hne].
    apply negb_true_iff, Z.eqb_neq in Hne. subst i. split; [assumption|].
    exists c. split; [now apply Hin | reflexivity].
  - intros [Hne [c [Hc Hi]]]. exists c. split; [assumption|].
    apply filter_In. split; [now apply Hin|].
    apply negb_true_iff, Z.eqb_neq. congruence.
Qed.

Lemma answer_reads_back_witness :
  let run := processContact 3 calm 0 familyDb
               (JsString "george@hillvalley.edu") (JsString "717171") in
  let inCluster c :=
    In c (rows (final run)) /\ deletedAt c = None /\ (id c = 1 \/ linkedId c = Some 1) in
  (exists p, inCluster p /\ id p = 1) /\
  (forall x, In x ["george@hillvalley.edu"; "biffsucks@hillvalley.edu"] <->
             x <> "" /\ exists c, inCluster c /\ email c = Some x) /\
  (forall x, In x ["919191"; "717171"; "555000"] <->
             x <> "" /\ exists c, inCluster c /\ phoneNumber c = Some x) /\
  (forall i, In i [2; 3] <-> i <> 1 /\ exists c, inCluster c /\ id c = i).
Proof.
  apply (answer_reads_back 3 calm 0 familyDb
           (JsString "george@hillvalley.edu") (JsString "717171")
           (mkResponse 1 ["george@hillvalley.edu"; "biffsucks@hillvalley.edu"]
                         ["919191"; "717171"; "555000"] [2; 3])
           familyDb_wellFormed).
  reflexivity.
Defined.

(* ------------------------------------------------------------------ *)
(** ** Tables without soft-deleted rows *)

Lemma allLive_primariesLive (rs : list Contact) : AllLive rs -> PrimariesLive rs.
Proof. intros H c t _ Ht _ _. now apply H. Qed.

Lemma fieldEquals_eq (o : option string) (v : string) :
  fieldEquals o v = true -> o = Some v.
Proof. destruct o as [x|]; simpl; [|discriminate]. intros H. apply String.eqb_eq in H. now subst. Qed.

Lemma strictEq_eq (a b : option string) : strictEq a b = true -> a = b.
Proof.
  destruct a, b; simpl; try discriminate; [|reflexivity].
  intros H. apply String.eqb_eq in H. now subst.
Qed.

(** With every row live, an insert on the no-match path cannot meet the
    unique index. *)
Lemma allLive_no_twin em ph db :
  AllLive (rows db) -> truthy em || truthy ph = true ->
  findMatches em ph (rows db) = [] -> uniqueViolation (rows db) em ph = false.
Proof.
  intros Live Ht E. destruct (uniqueViolation (rows db) em ph) eqn:U; [|reflexivity].
  exfalso. unfold uniqueViolation in U.
  destruct em as [e|]; [|discriminate]. destruct ph as [q|]; [|discriminate].
  apply existsb_exists in U. destruct U as [c [Hc Hboth]].
  apply andb_true_iff in Hboth. destruct Hboth as [He Hq].
  apply fieldEquals_eq in He, Hq.
  assert (Hin : In c (findMatches (Some e) (Some q) (rows db))).
  { apply findMatches_In. split; [assumption|]. split; [now apply Live|].
    now apply own_values_match. }
  now rewrite E in Hin.
Qed.

Lemma transaction_preserves_live now em ph db db' r :
  AllLive (rows db) -> transaction now em ph db = Ok (db', r) -> AllLive (rows db').
Proof.
  intros Live Htx.
  destruct (findMatches em ph (rows db)) as [|m0 ms] eqn:E.
  - unfold transaction, create in Htx. rewrite E in Htx.
    destruct (uniqueViolation (rows db) em ph); simpl in Htx; [discriminate|].
    destruct (buildResponse _ _); simpl in Htx; [|discriminate].
    injection Htx as <- _. simpl. intros c Hc. apply in_app_or in Hc.
    destruct Hc as [Hc | [<- | []]]; [now apply Live | reflexivity].
  - assert (Hm : findMatches em ph (rows db) <> []) by (rewrite E; discriminate).
    destruct (primaryRecordsOf em ph db) as [|p others] eqn:R.
    + unfold transaction in Htx. rewrite E in Htx.
      unfold primaryRecordsOf, candidateIdsOf in R. rewrite E in R.
      now rewrite R in Htx.
    + rewrite (transaction_matched now em ph db p others Hm R) in Htx.
      destruct (decideNewInformation_response _ _ _ _ _ _ _ _ Htx)
        as [extra [Hrows [_ Hextra]]].
      simpl in Hrows. rewrite Hrows. intros c Hc. apply in_app_or in Hc.
      destruct Hc as [Hc | Hc].
      * rewrite (mergedRowsOf_eq now em ph db p others R) in Hc.
        apply in_map_iff in Hc. destruct Hc as [c0 [<- Hc0]].
        rewrite mergeRow_deletedAt. now apply Live.
      * destruct Hextra as [[-> _] | [e [q [-> _]]]]; [contradiction|].
        now destruct Hc as [<- | []].
Qed.

Lemma buildResponse_emails_In pid chain r c x :
  buildResponse pid chain = Ok r -> NoDup (map id chain) ->
  In c chain -> email c = Some x -> x <> "" -> In x (emails r).
Proof.
  intros H ND Hc He Hne. unfold buildResponse in H.
  destruct (find (fun c0 => id c0 =? pid) chain) as [p|] eqn:F; [|discriminate].
  injection H as <-. simpl. apply find_some in F. destruct F as [Hp Hid].
  apply Z.eqb_eq in Hid. apply (column_values email). split; [assumption|].
  destruct (Z.eq_dec (id c) pid) as [E | NE].
  - left. rewrite (same_id_same_row chain p c ND Hp Hc); [assumption | congruence].
  - right. now exists c.
Qed.

Lemma buildResponse_phoneNumbers_In pid chain r c x :
  buildResponse pid chain = Ok r -> NoDup (map id chain) ->
  In c chain -> phoneNumber c = Some x -> x <> "" -> In x (phoneNumbers r).
Proof.
  intros H ND Hc He Hne. unfold buildResponse in H.
  destruct (find (fun c0 => id c0 =? pid) chain) as [p|] eqn:F; [|discriminate].
  injection H as <-. simpl. apply find_some in F. destruct F as [Hp Hid].
  apply Z.eqb_eq in Hid. apply (column_values phoneNumber). split; [assumption|].
  destruct (Z.eq_dec (id c) pid) as [E | NE].
  - left. rewrite (same_id_same_row chain p c ND Hp Hc); [assumption | congruence].
  - right. now exists c.
Qed.

(** After a committed transaction the cluster of the answered primary has a
    row with the email of the request, and one with its phone. *)
Lemma committed_cluster_holds_request now em ph db db' r :
  WellFormed db -> transaction now em ph db = Ok (db', r) ->
  (truthy em = true ->
   exists c, In c (fetchContactCluster (primaryContactId r) (rows db')) /\
             email c = em) /\
  (truthy ph = true ->
   exists c, In c (fetchContactCluster (primaryContactId r) (rows db')) /\
             phoneNumber c = ph).
Proof.
  intros WF Htx.
  destruct (findMatches em ph (rows db)) as [|m0 ms] eqn:E.
  - assert (U : uniqueViolation (rows db) em ph = false).
    { unfold transaction, create in Htx. rewrite E in Htx.
      destruct (uniqueViolation (rows db) em ph); [discriminate | reflexivity]. }
    rewrite (transaction_unmatched now em ph db E U) in Htx.
    injection Htx as <- <-. simpl.
    assert (HN : In (newPrimary db now em ph)
                    (fetchContactCluster (nextId db)
                       (rows db ++ [newPrimary db now em ph]))).
    { apply findCluster_In. split; [apply in_or_app; right; now left|].
      split; [reflexivity|]. left. now left. }
    split; intros _; exists (newPrimary db now em ph); now split.
  - assert (Hm : findMatches em ph (rows db) <> []) by (rewrite E; discriminate).
    destruct (primaryRecords_shape em ph db WF Hm) as [p [others [R _]]].
    rewrite (transaction_matched now em ph db p others Hm R) in Htx.
    destruct (decideNewInformation_response _ _ _ _ _ _ _ _ Htx)
      as [extra [Hrows [Hr Hextra]]].
    rewrite (buildResponse_primaryContactId _ _ _ Hr). simpl in Hrows. rewrite Hrows.
    assert (Old : forall col v,
              existsb (fun c => strictEq (col c) v) (clusterOf now em ph db) = true ->
              exists c, In c (fetchContactCluster (id p)
                                (mergedRowsOf now em ph db ++ extra)) /\ col c = v).
    { intros col v H. apply existsb_exists in H. destruct H as [c [Hc Heq]].
      exists c. split; [|now apply strictEq_eq].
      now apply (cluster_under_primary now em ph db p others extra c R). }
    assert (New : forall e q, extra = [newSecondary db now e q (id p)] ->
              In (newSecondary db now e q (id p))
                 (fetchContactCluster (id p) (mergedRowsOf now em ph db ++ extra))).
    { intros e q ->. apply findCluster_In. split; [apply in_or_app; right; now left|].
      split; [reflexivity|]. right. exists (id p). split; [reflexivity | now left]. }
    split; intros T.
    + destruct (hasEmail em (clusterOf now em ph db)) eqn:HE.
      * unfold hasEmail in HE. rewrite T in HE. apply (Old email em HE).
      * destruct Hextra as [[_ [_ [H _]]] | [e [q [Hx [_ [He _]]]]]];
          [specialize (H T); congruence|].
        exists (newSecondary db now e q (id p)). split; [now apply New|].
        simpl. now apply He.
    + destruct (hasPhone ph (clusterOf now em ph db)) eqn:HP.
      * unfold hasPhone in HP. rewrite T in HP. apply (Old phoneNumber ph HP).
      * destruct Hextra as [[_ [_ [_ H]]] | [e [q [Hx [_ [_ Hq]]]]]];
          [specialize (H T); congruence|].
        exists (newSecondary db now e q (id p)). split; [now apply New|].
        simpl. now apply Hq.
Qed.

Lemma live_table_answers :
  forall n env k db rawEmail rawPhone,
    WellFormed db -> AllLive (rows db) ->
    txFault (env k) = None ->
    normalizeEmail rawEmail <> None \/ normalizePhone rawPhone <> None ->
    exists r db',
      processContact n env k db rawEmail rawPhone = mkRun (Ok r) db' 1 /\
      WellFormed db' /\ AllLive (rows db') /\
      (forall e, normalizeEmail rawEmail = Some e -> In e (emails r)) /\
      (forall q, normalizePhone rawPhone = Some q -> In q (phoneNumbers r)).
Proof.
  intros n env k db rawEmail rawPhone WF Live Hq Hsome.
  pose proof (some_identifier rawEmail rawPhone Hsome) as Ht.
  set (em := normalizeEmail rawEmail) in *. set (ph := normalizePhone rawPhone) in *.
  destruct (first_call_settles (clock (env k)) em ph db WF
              (allLive_primariesLive _ Live) Ht (allLive_no_twin em ph db Live Ht))
    as [db1 [r1 [p [Htx [WF1 _]]]]].
  exists r1, db1. split; [now apply processContact_committed|].
  split; [assumption|]. split; [exact (transaction_preserves_live _ _ _ _ _ _ Live Htx)|].
  pose proof (transaction_reads_back _ _ _ _ _ _ WF Htx) as Hread.
  destruct (committed_cluster_holds_request _ _ _ _ _ _ WF Htx) as [He Hp].
  assert (ND : NoDup (map id (fetchContactCluster (primaryContactId r1) (rows db1))))
    by (apply NoDup_ids_filter, (wf_nodup db1 WF1)).
  split.
  - intros e E. assert (T : truthy em = true).
    { unfold em. rewrite normalizeEmail_truthy. fold em. now rewrite E. }
    destruct (He T) as [c [Hc Hval]].
    apply (buildResponse_emails_In _ _ _ c e Hread ND Hc); [congruence|].
    rewrite E in T. simpl in T. apply negb_true_iff in T. now apply String.eqb_neq.
  - intros q E. assert (T : truthy ph = true).
    { unfold ph. rewrite normalizePhone_truthy. fold ph. now rewrite E. }
    destruct (Hp T) as [c [Hc Hval]].
    apply (buildResponse_phoneNumbers_In _ _ _ c q Hread ND Hc); [congruence|].
    rewrite E in T. simpl in T. apply negb_true_iff in T. now apply String.eqb_neq.
Qed.

(** X8: in a well-formed table without soft-deleted rows, a call that
    carries an identifier and meets no store failure answers at its first
    attempt; the answer lists the normalized email and phone of the request,
    and the table it leaves is again well-formed and without soft-deleted
    rows. *)
Theorem live_table_always_answers :
  forall n env k db rawEmail rawPhone,
    WellFormed db -> AllLive (rows db) ->
    txFault (env k) = None ->
    normalizeEmail rawEmail <> None \/ normalizePhone rawPhone <> None ->
    exists r db',
      processContact n env k db rawEmail rawPhone = mkRun (Ok r) db' 1 /\
      WellFormed db' /\ AllLive (rows db') /\
      (forall e, normalizeEmail rawEmail = Some e -> In e (emails r)) /\
      (forall q, normalizePhone rawPhone = Some q -> In q (phoneNumbers r)).
Proof. exact live_table_answers. Qed.

Lemma hillValleyDb_allLive : AllLive (rows hillValleyDb).
Proof. intros c [<- | [<- | []]]; reflexivity. Defined.

Lemma live_table_always_answers_witness :
  let rawEmail := JsString "biffsucks@hillvalley.edu" in
  let rawPhone := JsString "919191" in
  exists r db',
    processContact 3 calm 0 hillValleyDb rawEmail rawPhone = mkRun (Ok r) db' 1 /\
    WellFormed db' /\ AllLive (rows db') /\
    (forall e, normalizeEmail rawEmail = Some e -> In e (emails r)) /\
    (forall q, normalizePhone rawPhone = Some q -> In q (phoneNumbers r)).
Proof.
  apply (live_table_always_answers 3 calm 0 hillValleyDb
           (JsString "biffsucks@hillvalley.edu") (JsString "919191")
           hillValleyDb_wellFormed hillValleyDb_allLive).
  - reflexivity.
  - left. vm_compute. discriminate.
Defined.

(* ------------------------------------------------------------------ *)
(** ** What a call does to the rows it finds *)

(** X9: after a call that commits, every live row with the email or the
    phone of the request is the answered primary or is linked straight to
    it: the clusters the request touched have become one. *)
Theorem matches_end_in_one_cluster :
  forall n env k db rawEmail rawPhone,
    WellFormed db -> PrimariesLive (rows db) ->
    txFault (env k) = None ->
    normalizeEmail rawEmail <> None \/ normalizePhone rawPhone <> None ->
    (findMatches (normalizeEmail rawEmail) (normalizePhone rawPhone) (rows db) = [] ->
     uniqueViolation (rows db) (normalizeEmail rawEmail) (normalizePhone rawPhone)
       = false) ->
    let run := processContact n env k db rawEmail rawPhone in
    exists r,
      outcome run = Ok r /\
      forall m,
        In m (findMatches (normalizeEmail rawEmail) (normalizePhone rawPhone)
                (rows (final run))) ->
        id m = primaryContactId r \/ linkedId m = Some (primaryContactId r).
Proof.
  intros n env k db rawEmail rawPhone WF Live Hq Hsome Htwin run.
  pose proof (some_identifier rawEmail rawPhone Hsome) as Ht.
  set (em := normalizeEmail rawEmail) in *. set (ph := normalizePhone rawPhone) in *.
  destruct (first_call_settles (clock (env k)) em ph db WF Live Ht Htwin)
    as [db1 [r1 [p [Htx [WF1 [St [Hpid _]]]]]]].
  assert (Hrun : run = mkRun (Ok r1) db1 1) by (now apply processContact_committed).
  exists r1. rewrite Hrun. simpl. split; [reflexivity|].
  intros m Hm. pose proof (st_candidate _ _ _ _ St m Hm) as Hc.
  apply findMatches_In in Hm. destruct Hm as [Hrow _]. rewrite Hpid.
  destruct (wf_candidate_cases db1 m WF1 Hrow) as [[_ E] | [_ [l [L [_ E]]]]].
  - left. congruence.
  - right. congruence.
Qed.

Lemma matches_end_in_one_cluster_witness :
  let rawEmail := JsString "george@hillvalley.edu" in
  let rawPhone := JsString "717171" in
  let run := processContact 3 calm 0 hillValleyDb rawEmail rawPhone in
  exists r,
    outcome run = Ok r /\
    forall m,
      In m (findMatches (normalizeEmail rawEmail) (normalizePhone rawPhone)
              (rows (final run))) ->
      id m = primaryContactId r \/ linkedId m = Some (primaryContactId r).
Proof.
  apply (matches_end_in_one_cluster 3 calm 0 hillValleyDb
           (JsString "george@hillvalley.edu") (JsString "717171")
           hillValleyDb_wellFormed hillValleyDb_live).
  - reflexivity.
  - left. vm_compute. discriminate.
  - vm_compute. discriminate.
Defined.

Lemma Forall2_map_right {A : Type} (R : A -> A -> Prop) (f : A -> A) (l : list A) :
  (forall x, R x (f x)) -> Forall2 R l (map f l).
Proof. intros H. induction l; simpl; constructor; auto. Qed.

Lemma keptAs_mergeRow oids pid now c : keptAs c (mergeRow oids pid now c).
Proof.
  split.
  - unfold identityOf.
    now rewrite mergeRow_id, mergeRow_email, mergeRow_phoneNumber,
      mergeRow_createdAt, mergeRow_deletedAt.
  - intros H. rewrite mergeRow_linkPrecedence, H. now destruct (inIds _ _).
Qed.

Lemma keptAs_refl c : keptAs c c.
Proof. split; auto. Qed.

Lemma transaction_keeps_rows now em ph db db' r :
  transaction now em ph db = Ok (db', r) ->
  exists kept extra : list Contact,
    rows db' = (kept ++ extra)%list /\ Forall2 keptAs (rows db) kept /\
    (List.length extra <= 1)%nat.
Proof.
  intros Htx.
  destruct (findMatches em ph (rows db)) as [|m0 ms] eqn:E.
  - unfold transaction, create in Htx. rewrite E in Htx.
    destruct (uniqueViolation (rows db) em ph); simpl in Htx; [discriminate|].
    destruct (buildResponse _ _); simpl in Htx; [|discriminate].
    injection Htx as <- _. simpl. eexists. eexists. split; [reflexivity|]. split.
    + rewrite <- (map_id (rows db)) at 2. apply Forall2_map_right, keptAs_refl.
    + simpl. lia.
  - assert (Hm : findMatches em ph (rows db) <> []) by (rewrite E; discriminate).
    destruct (primaryRecordsOf em ph db) as [|p others] eqn:R.
    + unfold transaction in Htx. rewrite E in Htx.
      unfold primaryRecordsOf, candidateIdsOf in R. rewrite E in R.
      now rewrite R in Htx.
    + rewrite (transaction_matched now em ph db p others Hm R) in Htx.
      destruct (decideNewInformation_response _ _ _ _ _ _ _ _ Htx)
        as [extra [Hrows [_ Hextra]]].
      simpl in Hrows. exists (mergedRowsOf now em ph db), extra.
      split; [assumption|]. split.
      * rewrite (mergedRowsOf_eq now em ph db p others R).
        apply Forall2_map_right. intros c. apply keptAs_mergeRow.
      * destruct Hextra as [[-> _] | [e [q [-> _]]]]; simpl; lia.
Qed.

(** X10: whatever a call meets, it deletes no row and rewrites no id, email,
    phone, creation time or soft-delete marker; it never turns a secondary
    back into a primary; and it adds at most one row, at the end. *)
Theorem rows_are_kept :
  forall n env k db rawEmail rawPhone,
    let run := processContact n env k db rawEmail rawPhone in
    exists kept extra : list Contact,
      rows (final run) = (kept ++ extra)%list /\
      Forall2 keptAs (rows db) kept /\
      (List.length extra <= 1)%nat.
Proof.
  intros n env k db rawEmail rawPhone run.
  destruct (processContact_final n env k db rawEmail rawPhone) as [E | [j [r Htx]]].
  - unfold run. rewrite E. exists (rows db), []. rewrite app_nil_r.
    split; [reflexivity|]. split; [|simpl; lia].
    rewrite <- (map_id (rows db)) at 2. apply Forall2_map_right, keptAs_refl.
  - exact (transaction_keeps_rows _ _ _ _ _ _ Htx).
Qed.

(* ------------------------------------------------------------------ *)
(** ** Tables reached from the empty one *)

Lemma processContact_preserves_live n env k db rawEmail rawPhone :
  AllLive (rows db) ->
  AllLive (rows (final (processContact n env k db rawEmail rawPhone))).
Proof.
  intros Live.
  destruct (processContact_final n env k db rawEmail rawPhone) as [E | [j [r Htx]]].
  - now rewrite E.
  - exact (transaction_preserves_live _ _ _ _ _ _ Live Htx).
Qed.

Lemma processContact_preserves_wf n env k db rawEmail rawPhone :
  WellFormed db ->
  WellFormed (final (processContact n env k db rawEmail rawPhone)).
Proof.
  intros WF.
  destruct (processContact_final n env k db rawEmail rawPhone) as [E | [j [r Htx]]].
  - now rewrite E.
  - exact (transaction_preserves_wf _ _ _ _ _ _ WF Htx).
Qed.

Lemma serve_preserves reqs db :
  WellFormed db -> AllLive (rows db) ->
  WellFormed (serve reqs db) /\ AllLive (rows (serve reqs db)).
Proof.
  revert db. induction reqs as [|q t IH]; intros db WF Live; simpl; [now split|].
  apply IH; unfold identify.
  - now apply processContact_preserves_wf.
  - now apply processContact_preserves_live.
Qed.

(** X11: every table reached from the empty one by serving requests,
    whatever failures the attempts meet, satisfies the data-model
    invariants, has no soft-deleted row, and so has no live row under a
    deleted one and no link to a secondary. *)
Theorem served_tables_are_well_formed :
  forall reqs,
    WellFormed (serve reqs emptyTable) /\
    AllLive (rows (serve reqs emptyTable)) /\
    PrimariesLive (rows (serve reqs emptyTable)) /\
    Flat (rows (serve reqs emptyTable)).
Proof.
  intros reqs.
  destruct (serve_preserves reqs emptyTable) as [WF Live].
  - apply wellFormedb_sound. reflexivity.
  - intros c [].
  - split; [assumption|]. split; [assumption|].
    split; [now apply allLive_primariesLive | now apply wellFormed_flat].
Qed.

(* ------------------------------------------------------------------ *)
(** ** The primary is the oldest row of its cluster *)

(** The superseded primaries are rows of the table, none older than the true
    primary. *)
Lemma others_are_younger em ph db p others o :
  primaryRecordsOf em ph db = p :: others -> In o others ->
  In o (rows db) /\ createdAt p <= createdAt o.
Proof.
  intros R Ho.
  assert (H : In o (primaryRecordsOf em ph db)) by (rewrite R; now right).
  split; [now apply primaryRecords_In in H|].
  unfold primaryRecordsOf, findPrimaryRecords in R, H.
  apply (orderByCreatedAt_head _ _ _ R).
  exact (proj1 (orderByCreatedAt_In _ _) H).
Qed.

Lemma transaction_preserves_senior now em ph db db' r :
  WellFormed db -> Senior (rows db) ->
  (forall c, In c (rows db) -> createdAt c <= now) ->
  transaction now em ph db = Ok (db', r) -> Senior (rows db').
Proof.
  intros WF Sen Hclock Htx.
  assert (NoLinkToNext : forall c, In c (rows db) -> linkedId c <> Some (nextId db)).
  { intros c Hc L. destruct (wf_link db WF c _ Hc L) as [u [Hu [Hid _]]].
    pose proof (wf_ids db WF u Hu). lia. }
  destruct (findMatches em ph (rows db)) as [|m0 ms] eqn:E.
  - assert (U : uniqueViolation (rows db) em ph = false).
    { unfold transaction, create in Htx. rewrite E in Htx.
      destruct (uniqueViolation (rows db) em ph); [discriminate | reflexivity]. }
    rewrite (transaction_unmatched now em ph db E U) in Htx.
    injection Htx as <- _. simpl. intros c t Hc Ht L.
    apply in_app_or in Hc. apply in_app_or in Ht.
    destruct Hc as [Hc | [<- | []]]; [|discriminate].
    destruct Ht as [Ht | [<- | []]]; [now apply Sen|].
    exfalso. exact (NoLinkToNext c Hc L).
  - assert (Hm : findMatches em ph (rows db) <> []) by (rewrite E; discriminate).
    destruct (primaryRecords_shape em ph db WF Hm)
      as [p [others [R [Hrow [_ Hfresh]]]]].
    rewrite (transaction_matched now em ph db p others Hm R) in Htx.
    destruct (decideNewInformation_response _ _ _ _ _ _ _ _ Htx)
      as [extra [Hrows [_ Hextra]]].
    simpl in Hrows. rewrite Hrows, (mergedRowsOf_eq now em ph db p others R).
    pose proof (wf_ids db WF p Hrow) as Hpid.
    assert (InOthers : forall c0, In c0 (rows db) ->
              inIds (id c0) (map id others) = true -> createdAt p <= createdAt c0).
    { intros c0 Hc0 A. apply inIds_In, in_map_iff in A. destruct A as [o [Hid Ho]].
      destruct (others_are_younger em ph db p others o R Ho) as [Horow Hle].
      now rewrite <- (same_id_same_row (rows db) o c0 (wf_nodup db WF) Horow Hc0 Hid). }
    intros c' t' Hc' Ht' L. apply in_app_or in Hc'. apply in_app_or in Ht'.
    destruct Hc' as [Hc' | Hc'].
    + apply in_map_iff in Hc'. destruct Hc' as [c0 [<- Hc0]].
      rewrite mergeRow_createdAt. rewrite mergeRow_linkedId in L.
      destruct Ht' as [Ht' | Ht'].
      * apply in_map_iff in Ht'. destruct Ht' as [t0 [<- Ht0]].
        rewrite mergeRow_createdAt. rewrite mergeRow_id in L.
        destruct (inIds (id c0) (map id others)) eqn:A; simpl in L.
        -- injection L as L.
           rewrite <- (same_id_same_row (rows db) p t0 (wf_nodup db WF) Hrow Ht0 L).
           now apply InOthers.
        -- destruct (linkedIn (linkedId c0) (map id others)) eqn:B.
           ++ injection L as L.
              rewrite <- (same_id_same_row (rows db) p t0 (wf_nodup db WF) Hrow Ht0 L).
              apply linkedIn_In in B. destruct B as [l [Hl Hin]].
              apply in_map_iff in Hin. destruct Hin as [o [Hid Ho]].
              destruct (others_are_younger em ph db p others o R Ho) as [Horow Hle].
              subst l. pose proof (Sen c0 o Hc0 Horow Hl). lia.
           ++ now apply Sen.
      * exfalso. destruct Hextra as [[-> _] | [e [q [-> _]]]]; [contradiction|].
        destruct Ht' as [<- | []]. simpl in L.
        destruct (inIds (id c0) (map id others) || linkedIn (linkedId c0) (map id others)).
        -- injection L as L. lia.
        -- exact (NoLinkToNext c0 Hc0 L).
    + destruct Hextra as [[-> _] | [e [q [-> _]]]]; [contradiction|].
      destruct Hc' as [<- | []]. simpl in L. injection L as L. simpl.
      destruct Ht' as [Ht' | [<- | []]]; [|simpl; lia].
      apply in_map_iff in Ht'. destruct Ht' as [t0 [<- Ht0]].
      rewrite mergeRow_createdAt. now apply Hclock.
Qed.

(** X12: a call keeps the primary the oldest row of its cluster.  In a
    well-formed table where no row is older than the row it is linked to,
    and with a clock that is not behind the rows already stored, the table a
    call leaves has the same property. *)
Theorem seniority_kept :
  forall n env k db rawEmail rawPhone,
    WellFormed db -> Senior (rows db) ->
    (forall j c, In c (rows db) -> createdAt c <= clock (env j)) ->
    Senior (rows (final (processContact n env k db rawEmail rawPhone))).
Proof.
  intros n env k db rawEmail rawPhone WF Sen Hclock.
  destruct (processContact_final n env k db rawEmail rawPhone) as [E | [j [r Htx]]].
  - now rewrite E.
  - exact (transaction_preserves_senior _ _ _ _ _ _ WF Sen (Hclock j) Htx).
Qed.

Lemma seniority_kept_witness :
  Senior (rows (final (processContact 3 calm 0 hillValleyDb
                         (JsString "george@hillvalley.edu") (JsString "717171")))).
Proof.
  apply (seniority_kept 3 calm 0 hillValleyDb
           (JsString "george@hillvalley.edu") (JsString "717171")
           hillValleyDb_wellFormed).
  - intros c t [<- | [<- | []]] _; discriminate.
  - intros j c [<- | [<- | []]]; unfold calm, quiet; cbn [clock createdAt]; lia.
Defined.

(* ------------------------------------------------------------------ *)
(** ** The matcher and the language of a regular expression *)

Lemma append_empty_r (s : string) : (s ++ "")%string = s.
Proof. induction s as [|c t IH]; simpl; [reflexivity | now rewrite IH]. Qed.

Lemma append_assoc (a b c : string) : ((a ++ b) ++ c)%string = (a ++ b ++ c)%string.
Proof. induction a as [|x t IH]; simpl; [reflexivity | now rewrite IH]. Qed.

Lemma append_empty (a b : string) : (a ++ b)%string = "" -> a = "" /\ b = "".
Proof. destruct a; simpl; [auto | discriminate]. Qed.

Lemma nullable_lang (r : Regex) : nullable r = true <-> lang r "".
Proof.
  split.
  - induction r; simpl; intros H; try discriminate.
    + constructor.
    + apply andb_true_iff in H. destruct H as [H1 H2].
      change "" with ("" ++ "")%string. constructor; auto.
    + apply orb_true_iff in H. destruct H as [H | H];
        [apply lang_alt_l | apply lang_alt_r]; auto.
    + constructor.
  - intros H. remember "" as u eqn:E. induction H; simpl; auto; try discriminate.
    + apply append_empty in E. destruct E. apply andb_true_iff. auto.
    + apply orb_true_iff. auto.
    + apply orb_true_iff. auto.
Qed.

Lemma derive_sound (c : ascii) (r : Regex) (s : string) :
  lang (derive c r) s -> lang r (String c s).
Proof.
  revert s. induction r; simpl; intros s H.
  - inversion H.
  - inversion H.
  - destruct (f c) eqn:F; inversion H; subst. now constructor.
  - inversion H as [| | | ? ? ? H1 | ? ? ? H1 | |]; subst.
    + inversion H1; subst.
      change (String c (s0 ++ t)) with (String c s0 ++ t)%string.
      constructor; auto.
    + destruct (nullable r1) eqn:N; [|inversion H1].
      change (String c s) with ("" ++ String c s)%string.
      constructor; [now apply nullable_lang | auto].
  - inversion H; subst; [apply lang_alt_l | apply lang_alt_r]; auto.
  - inversion H; subst.
    change (String c (s0 ++ t)) with (String c s0 ++ t)%string.
    constructor; auto.
Qed.

Lemma derive_complete (c : ascii) (r : Regex) (s : string) :
  lang r (String c s) -> lang (derive c r) s.
Proof.
  intros H. remember (String c s) as u eqn:E. revert s E.
  induction H; intros u E; simpl; try discriminate.
  - injection E as -> <-. rewrite H. constructor.
  - destruct s as [|x s'].
    + simpl in E. subst t. apply lang_alt_r.
      rewrite (proj2 (nullable_lang a) H). auto.
    + simpl in E. injection E as -> <-. apply lang_alt_l. constructor; auto.
  - apply lang_alt_l. auto.
  - apply lang_alt_r. auto.
  - destruct s as [|x s'].
    + simpl in E. now apply IHlang2.
    + simpl in E. injection E as -> <-. constructor; auto.
Qed.

Lemma matchesAll_lang (r : Regex) (s : string) : matchesAll r s = true <-> lang r s.
Proof.
  revert r. induction s as [|c t IH]; intros r; simpl.
  - apply nullable_lang.
  - rewrite IH. split; [apply derive_sound | apply derive_complete].
Qed.

Lemma lang_seq_inv (a b : Regex) (s : string) :
  lang (ReSeq a b) s <-> exists s1 s2, s = (s1 ++ s2)%string /\ lang a s1 /\ lang b s2.
Proof.
  split.
  - intros H. inversion H; subst. eauto.
  - intros [s1 [s2 [-> [H1 H2]]]]. now constructor.
Qed.

Lemma lang_class_inv (f : ascii -> bool) (s : string) :
  lang (ReClass f) s <-> exists c, s = String c "" /\ f c = true.
Proof.
  split.
  - intros H. inversion H; subst. eauto.
  - intros [c [-> H]]. now constructor.
Qed.

Lemma lang_star_class (f : ascii -> bool) (s : string) :
  lang (ReStar (ReClass f)) s <-> allChars f s = true.
Proof.
  split.
  - intros H. remember (ReStar (ReClass f)) as r eqn:E.
    induction H; try discriminate; [reflexivity|].
    injection E as ->. inversion H as [|? ? Hc| | | | |]; subst. simpl.
    rewrite Hc. simpl. now apply IHlang2.
  - induction s as [|c t IH]; simpl; intros H; [constructor|].
    apply andb_true_iff in H. destruct H as [Hc Ht].
    change (String c t) with (String c "" ++ t)%string.
    constructor; [now constructor | auto].
Qed.

Lemma lang_plus_class (f : ascii -> bool) (s : string) :
  lang (rePlus (ReClass f)) s <-> s <> "" /\ allChars f s = true.
Proof.
  unfold rePlus. rewrite lang_seq_inv. split.
  - intros [s1 [s2 [-> [H1 H2]]]]. apply lang_class_inv in H1.
    destruct H1 as [c [-> Hc]]. apply lang_star_class in H2. simpl.
    split; [discriminate | now rewrite Hc].
  - intros [Hne H]. destruct s as [|c t]; [congruence|]. simpl in H.
    apply andb_true_iff in H. destruct H as [Hc Ht].
    exists (String c ""), t. split; [reflexivity|].
    split; [now constructor | now apply lang_star_class].
Qed.

Lemma lang_char (ch : ascii) (s : string) :
  lang (ReClass (isChar ch)) s <-> s = String ch "".
Proof.
  rewrite lang_class_inv. unfold isChar. split.
  - intros [c [-> H]]. apply Ascii.eqb_eq in H. now subst.
  - intros ->. exists ch. split; [reflexivity | apply Ascii.eqb_refl].
Qed.

Lemma emailRegex_parts :
  forall s,
    matchesAll emailRegex s = true <->
    exists a b c,
      s = (a ++ "@" ++ b ++ "." ++ c)%string /\
      addressPart a /\ addressPart b /\ addressPart c.
Proof.
  intros s. rewrite matchesAll_lang. unfold emailRegex, addressPart. split.
  - intros H. apply lang_seq_inv in H. destruct H as [a [s1 [-> [Ha H]]]].
    apply lang_seq_inv in H. destruct H as [at1 [s2 [-> [Hat H]]]].
    apply lang_seq_inv in H. destruct H as [b [s3 [-> [Hb H]]]].
    apply lang_seq_inv in H. destruct H as [dot [c [-> [Hdot Hc]]]].
    apply lang_char in Hat, Hdot. subst at1 dot.
    apply lang_plus_class in Ha, Hb, Hc. exists a, b, c. auto.
  - intros [a [b [c [-> [Ha [Hb Hc]]]]]].
    apply lang_seq_inv. exists a, ("@" ++ b ++ "." ++ c)%string.
    split; [reflexivity|]. split; [now apply lang_plus_class|].
    apply lang_seq_inv. exists "@"%string, (b ++ "." ++ c)%string.
    split; [reflexivity|]. split; [now apply lang_char|].
    apply lang_seq_inv. exists b, ("." ++ c)%string.
    split; [reflexivity|]. split; [now apply lang_plus_class|].
    apply lang_seq_inv. exists "."%string, c.
    split; [reflexivity|]. split; [now apply lang_char | now apply lang_plus_class].
Qed.

(** X13: the addresses the email pattern of the validator accepts are
    exactly the strings [a@b.c] whose three parts are not empty and hold
    neither white space nor [@]. *)
Theorem emailRegex_accepts :
  forall s,
    matchesAll emailRegex s = true <->
    exists a b c,
      s = (a ++ "@" ++ b ++ "." ++ c)%string /\
      addressPart a /\ addressPart b /\ addressPart c.
Proof. exact emailRegex_parts. Qed.

Lemma anyChar_middle (f : ascii -> bool) (a b : string) (c : ascii) :
  f c = true -> anyChar f (a ++ String c b) = true.
Proof.
  intros H. induction a as [|x t IH]; simpl; [now rewrite H|].
  rewrite IH. apply orb_true_r.
Qed.

Lemma digitSomewhere_anyChar (s : string) :
  matchesAll digitSomewhere s = anyChar isDigit s.
Proof.
  apply eq_true_iff_eq. rewrite matchesAll_lang. unfold digitSomewhere. split.
  - intros H. apply lang_seq_inv in H. destruct H as [a [s1 [-> [_ H]]]].
    apply lang_seq_inv in H. destruct H as [d [b [-> [Hd _]]]].
    apply lang_class_inv in Hd. destruct Hd as [c [-> Hc]].
    now apply anyChar_middle.
  - induction s as [|c t IH]; simpl; [discriminate|].
    assert (All : forall u, lang (ReStar (ReClass (fun _ => true))) u).
    { intros u. apply lang_star_class. induction u; simpl; auto. }
    destruct (isDigit c) eqn:D; simpl.
    + intros _. change (String c t) with ("" ++ (String c "" ++ t))%string.
      constructor; [apply All|]. constructor; [now constructor | apply All].
    + intros H. specialize (IH H). apply lang_seq_inv in IH.
      destruct IH as [a [rest [-> [_ Hrest]]]].
      change (String c (a ++ rest)) with (String c a ++ rest)%string.
      constructor; [apply All | assumption].
Qed.

(* ------------------------------------------------------------------ *)
(** ** What validation lets through *)

Lemma anyChar_trimStart (f : ascii -> bool) (s : string) :
  anyChar f (trimStart s) = true -> anyChar f s = true.
Proof.
  induction s as [|c t IH]; simpl; [auto|].
  destruct (isWhiteSpace c); simpl; [|auto].
  intros H. rewrite (IH H). apply orb_true_r.
Qed.

Lemma anyChar_trimEnd (f : ascii -> bool) (s : string) :
  anyChar f (trimEnd s) = true -> anyChar f s = true.
Proof.
  induction s as [|c t IH]; simpl; [auto|].
  destruct (trimEnd t) as [|d u] eqn:E.
  - destruct (isWhiteSpace c); simpl; [discriminate|].
    rewrite orb_false_r. intros ->. reflexivity.
  - simpl. intros H. apply orb_true_iff in H. destruct H as [-> | H]; [reflexivity|].
    rewrite (IH H). apply orb_true_r.
Qed.

Lemma anyChar_trim (f : ascii -> bool) (s : string) :
  anyChar f (trim s) = true -> anyChar f s = true.
Proof. intros H. now apply anyChar_trimStart, anyChar_trimEnd. Qed.

Lemma stripNonDigits_anyChar (s : string) :
  anyChar isDigit s = true -> stripNonDigits s <> "".
Proof.
  induction s as [|c t IH]; simpl; [discriminate|].
  destruct (isDigit c); simpl; [discriminate | assumption].
Qed.

Lemma toLowerCase_nonempty (s : string) : s <> "" -> toLowerCase s <> "".
Proof. destruct s; simpl; [congruence | discriminate]. Qed.

Lemma emptyToNull_not_None (s : string) : s <> "" -> emptyToNull s <> None.
Proof. intros H. now rewrite (emptyToNull_nonempty s H). Qed.

Lemma validateEmail_passed (email : JsValue) :
  validateEmail email = None ->
  email = JsUndefined \/
  exists s, email = JsString s /\ trim s <> "" /\ matchesAll emailRegex (trim s) = true.
Proof.
  destruct email; simpl; try discriminate; [now left|].
  destruct (String.eqb_spec (trim s) ""); [discriminate|].
  destruct (matchesAll emailRegex (trim s)) eqn:M; [|discriminate].
  intros _. right. now exists s.
Qed.

Lemma validatePhone_passed (phoneNumber : JsValue) :
  validatePhone phoneNumber = Ok None ->
  phoneNumber = JsUndefined \/
  (phoneNumber <> JsNull /\ anyChar isDigit (toString phoneNumber) = true).
Proof.
  assert (G : forall v,
            (if (trim (toString v) =? "")%string
             then Ok (Some "phoneNumber cannot be empty")
             else if matchesAll digitSomewhere (trim (toString v)) then Ok None
                  else Ok (Some "phoneNumber must contain at least one digit"))
            = Ok None -> anyChar isDigit (toString v) = true).
  { intros v. destruct (trim (toString v) =? "")%string; [discriminate|].
    rewrite digitSomewhere_anyChar.
    destruct (anyChar isDigit (trim (toString v))) eqn:A; [|discriminate].
    intros _. now apply anyChar_trim. }
  destruct phoneNumber; simpl; try discriminate; [now left | | |];
    intros H; right; (split; [discriminate|]).
  - exact (G (JsString s) H).
  - exact (G (JsNumber n safe) H).
  - exact (G (JsBoolean b) H).
Qed.

(** Validation lets a body through only if each key it carries survives
    normalization, and it carries one. *)
Lemma validated_identifiers (body : Body) :
  validateIdentifyRequest body = Ok None ->
  (bodyEmail body <> JsUndefined \/ bodyPhoneNumber body <> JsUndefined) /\
  (bodyEmail body <> JsUndefined ->
   normalizeEmail (emailArgument (bodyEmail body)) <> None) /\
  (bodyPhoneNumber body <> JsUndefined ->
   normalizePhone (phoneArgument (bodyPhoneNumber body)) <> None).
Proof.
  unfold validateIdentifyRequest. destruct body as [email phone]. simpl.
  destruct (negb (jsTruthy email) && negb (jsTruthy phone)) eqn:G; [discriminate|].
  destruct (validateEmail email) eqn:VE; [discriminate|]. intros VP.
  apply validateEmail_passed in VE. apply validatePhone_passed in VP.
  split; [|split].
  - destruct email; try (left; discriminate).
    destruct phone; try (right; discriminate); discriminate.
  - intros Hdef. destruct VE as [-> | [s [-> [Hne _]]]]; [congruence|].
    simpl. now apply emptyToNull_not_None, toLowerCase_nonempty.
  - intros Hdef. destruct VP as [-> | [Hnull Hd]]; [congruence|].
    assert (E : normalizePhone (phoneArgument phone)
                = emptyToNull (stripNonDigits (toString phone)))
      by (destruct phone; try reflexivity; congruence).
    rewrite E. now apply emptyToNull_not_None, stripNonDigits_anyChar.
Qed.

Lemma processContact_attempted n env k db rawEmail rawPhone :
  truthy (normalizeEmail rawEmail) || truthy (normalizePhone rawPhone) = true ->
  (1 <= attempts (processContact n env k db rawEmail rawPhone))%nat.
Proof.
  intros Ht. pose proof (guard_passes _ _ Ht) as G.
  destruct n; simpl; rewrite G;
    destruct (runTransaction _ _ _ _) as [[db' r]|e]; simpl; try lia;
    destruct (isP2002 e); simpl; try lia.
  destruct (requery _ _ _ _); simpl; lia.
Qed.

(** X14: what passes [validateIdentifyRequest] is never lost in
    normalization.  A validated body carries an email or a phone number;
    the email it carries normalizes to a value and so does the phone number,
    so the call the controller makes gets past the input check of
    [processContact] and reaches the store. *)
Theorem validated_request_keeps_identifiers :
  forall body,
    validateIdentifyRequest body = Ok None ->
    (bodyEmail body <> JsUndefined \/ bodyPhoneNumber body <> JsUndefined) /\
    (bodyEmail body <> JsUndefined ->
     normalizeEmail (emailArgument (bodyEmail body)) <> None) /\
    (bodyPhoneNumber body <> JsUndefined ->
     normalizePhone (phoneArgument (bodyPhoneNumber body)) <> None) /\
    forall env db,
      (1 <= attempts (identify env db (bodyEmail body) (bodyPhoneNumber body)))%nat.
Proof.
  intros body V. destruct (validated_identifiers body V) as [H1 [H2 H3]].
  split; [assumption|]. split; [assumption|]. split; [assumption|].
  intros env db. apply processContact_attempted, some_identifier.
  destruct H1; [left | right]; auto.
Qed.

Lemma validated_request_keeps_identifiers_witness :
  normalizeEmail (emailArgument (JsString " Doc@HillValley.edu ")) <> None /\
  normalizePhone (phoneArgument (JsNumber 123456 eq_refl)) <> None.
Proof.
  destruct (validated_request_keeps_identifiers
              (mkBody (JsString " Doc@HillValley.edu ") (JsNumber 123456 eq_refl)) eq_refl)
    as [_ [He [Hp _]]].
  split; [apply He | apply Hp]; discriminate.
Defined.

Lemma toLowerCase_app (a b : string) :
  toLowerCase (a ++ b) = (toLowerCase a ++ toLowerCase b)%string.
Proof. induction a as [|c t IH]; simpl; [reflexivity | now rewrite IH]. Qed.

Lemma lowerChar_notSpaceNorAt (c : ascii) :
  notSpaceNorAt (lowerChar c) = notSpaceNorAt c.
Proof. destruct c as [[] [] [] [] [] [] [] []]; reflexivity. Qed.

Lemma addressPart_toLowerCase (s : string) :
  addressPart s -> addressPart (toLowerCase s).
Proof.
  intros [Hne H]. split; [now apply toLowerCase_nonempty|].
  clear Hne. induction s as [|c t IH]; simpl in *; [reflexivity|].
  apply andb_true_iff in H. destruct H as [Hc Ht].
  now rewrite lowerChar_notSpaceNorAt, Hc, IH.
Qed.

(** X15: the stored form of an accepted email is itself an accepted email:
    when validation lets an address through, validation also lets through
    what [normalizeEmail] makes of it. *)
Theorem normalized_email_stays_valid :
  forall s e,
    validateEmail (JsString s) = None ->
    normalizeEmail (JsString s) = Some e ->
    validateEmail (JsString e) = None.
Proof.
  intros s e V N. apply validateEmail_passed in V.
  destruct V as [V | [s' [[= <-] [Hne M]]]]; [discriminate|].
  simpl in N. apply emptyToNull_Some in N. destruct N as [<- He].
  assert (T : trim (toLowerCase (trim s)) = toLowerCase (trim s))
    by (now rewrite trim_toLowerCase, trim_idempotent).
  apply emailRegex_parts in M. destruct M as [a [b [c [Hs [Ha [Hb Hc]]]]]].
  assert (M' : matchesAll emailRegex (toLowerCase (trim s)) = true).
  { apply emailRegex_parts.
    exists (toLowerCase a), (toLowerCase b), (toLowerCase c).
    split; [|auto using addressPart_toLowerCase].
    rewrite Hs, toLowerCase_app. f_equal.
    change ("@" ++ b ++ "." ++ c)%string with (String "@" (b ++ String "." c)).
    cbn [toLowerCase]. rewrite toLowerCase_app. reflexivity. }
  unfold validateEmail. rewrite T, M'.
  now destruct (String.eqb_spec (toLowerCase (trim s)) "").
Qed.

Lemma normalized_email_stays_valid_witness :
  validateEmail (JsString "george@hillvalley.edu") = None.
Proof.
  apply (normalized_email_stays_valid " George@HillValley.EDU" "george@hillvalley.edu");
    reflexivity.
Defined.

(** X16: an explicit [null] is not a missing key.  With a valid email, a
    [null] phone number makes validation throw, and the controller hands the
    [TypeError] to the global handler (status 500) without touching the
    table; a [null] email is always refused with status 400. *)
Theorem null_is_not_missing :
  (forall env db email,
     jsTruthy email = true -> validateEmail email = None ->
     identifyHandler env db (mkBody email JsNull) = (PassedOn TypeError, db)) /\
  (forall env db phoneNumber,
     exists message,
       identifyHandler env db (mkBody JsNull phoneNumber) = (Reply400 message, db)).
Proof.
  split.
  - intros env db email T V. unfold identifyHandler, validateIdentifyRequest. simpl.
    now rewrite T, V.
  - intros env db phoneNumber. unfold identifyHandler, validateIdentifyRequest. simpl.
    destruct (jsTruthy phoneNumber); simpl; eexists; reflexivity.
Qed.

Lemma null_is_not_missing_witness :
  identifyHandler calm hillValleyDb (mkBody (JsString "doc@hillvalley.edu") JsNull)
  = (PassedOn TypeError, hillValleyDb).
Proof.
  apply (proj1 null_is_not_missing calm hillValleyDb (JsString "doc@hillvalley.edu"));
    reflexivity.
Defined.

(** X17: a request that passes validation, on a well-formed table without
    soft-deleted rows and with a store that raises nothing at the first
    attempt, is answered with status 200; the contact in the answer lists
    the normalized email and phone of the request. *)
Theorem valid_request_is_answered :
  forall env db body,
    validateIdentifyRequest body = Ok None ->
    WellFormed db -> AllLive (rows db) ->
    txFault (env 0%nat) = None ->
    exists r db',
      identifyHandler env db body = (Reply200 r, db') /\
      statusOf (fst (identifyHandler env db body)) = 200 /\
      WellFormed db' /\ AllLive (rows db') /\
      (forall e, normalizeEmail (emailArgument (bodyEmail body)) = Some e ->
                 In e (emails r)) /\
      (forall q, normalizePhone (phoneArgument (bodyPhoneNumber body)) = Some q ->
                 In q (phoneNumbers r)).
Proof.
  intros env db body V WF Live Hq.
  destruct (validated_identifiers body V) as [H1 [H2 H3]].
  assert (Hsome : normalizeEmail (emailArgument (bodyEmail body)) <> None \/
                  normalizePhone (phoneArgument (bodyPhoneNumber body)) <> None)
    by (destruct H1; [left | right]; auto).
  destruct (live_table_answers defaultMaxRetries env 0%nat db _ _ WF Live Hq Hsome)
    as [r [db' [Hrun [WF' [Live' [He Hp]]]]]].
  exists r, db'.
  assert (E : identifyHandler env db body = (Reply200 r, db')).
  { unfold identifyHandler, identify. now rewrite V, Hrun. }
  rewrite E. split; [reflexivity|]. split; [reflexivity|]. auto.
Qed.

Lemma valid_request_is_answered_witness :
  let body := mkBody (JsString "George@hillvalley.edu") (JsNumber 717171 eq_refl) in
  exists r db',
    identifyHandler calm hillValleyDb body = (Reply200 r, db') /\
    statusOf (fst (identifyHandler calm hillValleyDb body)) = 200 /\
    WellFormed db' /\ AllLive (rows db') /\
    (forall e, normalizeEmail (emailArgument (bodyEmail body)) = Some e ->
               In e (emails r)) /\
    (forall q, normalizePhone (phoneArgument (bodyPhoneNumber body)) = Some q ->
               In q (phoneNumbers r)).
Proof.
  apply (valid_request_is_answered calm hillValleyDb
           (mkBody (JsString "George@hillvalley.edu") (JsNumber 717171 eq_refl))
           eq_refl hillValleyDb_wellFormed hillValleyDb_allLive).
  reflexivity.
Defined.

(** X18: what the client sees when the store fails on a validated request.
    If every attempt of the budget ends in a uniqueness conflict that the
    re-query cannot settle, the status is 503; if the first transaction
    fails with any other store code, the failure goes to the global handler
    (status 500) at once.  In both cases the table is left as it was. *)
Theorem store_failures_reach_the_client :
  forall env db body,
    validateIdentifyRequest body = Ok None ->
    let em := normalizeEmail (emailArgument (bodyEmail body)) in
    let ph := normalizePhone (phoneArgument (bodyPhoneNumber body)) in
    ((forall j, (j <= 3)%nat ->
        exists e, runTransaction (env j) em ph db = Err e /\ isP2002 e = true) ->
     (forall j, (j < 3)%nat -> requery (env j) em ph db = None) ->
     identifyHandler env db body = (Reply503, db)) /\
    (forall code,
       runTransaction (env 0%nat) em ph db = Err (PrismaError code) ->
       (code =? "P2002")%string = false ->
       identifyHandler env db body = (PassedOn (PrismaError code), db) /\
       statusOf (PassedOn (PrismaError code)) = 500).
Proof.
  intros env db body V em ph.
  destruct (validated_identifiers body V) as [H1 [H2 H3]].
  assert (Hsome : normalizeEmail (emailArgument (bodyEmail body)) <> None \/
                  normalizePhone (phoneArgument (bodyPhoneNumber body)) <> None)
    by (destruct H1; [left | right]; auto).
  pose proof (some_identifier _ _ Hsome) as Ht.
  split.
  - intros Htx Hrq. unfold identifyHandler, identify. rewrite V.
    rewrite (processContact_exhausted defaultMaxRetries env 0 db _ _ Ht).
    + reflexivity.
    + intros j Hj. apply Htx. unfold defaultMaxRetries in Hj. lia.
    + intros j Hj. apply Hrq. unfold defaultMaxRetries in Hj. lia.
  - intros code Htx Hcode. split; [|reflexivity].
    unfold identifyHandler, identify. rewrite V.
    now rewrite (processContact_propagates defaultMaxRetries env 0 db _ _ _ Ht Htx Hcode).
Qed.

Lemma store_failures_reach_the_client_witness :
  identifyHandler stormy hillValleyDb
    (mkBody (JsString "doc@hillvalley.edu") JsUndefined) = (Reply503, hillValleyDb).
Proof.
  apply (proj1 (store_failures_reach_the_client stormy hillValleyDb
                  (mkBody (JsString "doc@hillvalley.edu") JsUndefined) eq_refl)).
  - intros j _. exists P2002. split; reflexivity.
  - intros j _. reflexivity.
Defined.

(* ------------------------------------------------------------------ *)
(** ** The re-query and the matcher; the secondary ids of an answer *)

Lemma requeryClauses_matchClauses em ph c :
  anyClause (requeryClauses em ph) c = anyClause (matchClauses em ph) c.
Proof.
  rewrite anyClause_requery. unfold requeryMatch, anyClause, matchClauses.
  rewrite existsb_app. f_equal.
  - destruct em as [e|]; [|reflexivity]. destruct (truthy (Some e)); [|reflexivity].
    simpl. rewrite orb_false_r. now destruct (email c).
  - destruct ph as [q|]; [|reflexivity]. destruct (truthy (Some q)); [|reflexivity].
    simpl. rewrite orb_false_r. now destruct (phoneNumber c).
Qed.

(** X19: the re-query of the [catch] block selects the rows the matcher of
    step 1 selects, and takes the oldest: its full-pair clause adds nothing.
    So it finds a row exactly when the matcher does. *)
Theorem requery_finds_oldest_match :
  forall em ph rs,
    findFirstExisting em ph rs = hd_error (orderByCreatedAt (findMatches em ph rs)) /\
    (findFirstExisting em ph rs = None <-> findMatches em ph rs = []).
Proof.
  intros em ph rs.
  assert (E : findFirstExisting em ph rs
              = hd_error (orderByCreatedAt (findMatches em ph rs))).
  { unfold findFirstExisting, findMatches. do 2 f_equal.
    apply filter_ext. intros c. now rewrite requeryClauses_matchClauses. }
  split; [exact E|]. rewrite E. split.
  - intros H. destruct (findMatches em ph rs) as [|m ms] eqn:M; [reflexivity|].
    exfalso. destruct (orderByCreatedAt (m :: ms)) as [|x t] eqn:O; [|discriminate].
    assert (X : In m (orderByCreatedAt (m :: ms)))
      by (apply orderByCreatedAt_In; now left).
    now rewrite O in X.
  - now intros ->.
Qed.

Lemma buildResponse_secondaryContactIds pid chain r :
  buildResponse pid chain = Ok r ->
  secondaryContactIds r = map id (filter (fun c => negb (id c =? pid)) chain).
Proof.
  unfold buildResponse. destruct (find _ chain); [|discriminate]. now intros [= <-].
Qed.

(** X20: the secondary ids of an answer are exactly the ids of the live
    rows that the table left by the call links to the answered primary. *)
Theorem secondaries_are_the_linked_rows :
  forall n env k db rawEmail rawPhone r,
    WellFormed db ->
    let run := processContact n env k db rawEmail rawPhone in
    outcome run = Ok r ->
    forall i,
      In i (secondaryContactIds r) <->
      i <> primaryContactId r /\
      exists c, In c (rows (final run)) /\ id c = i /\ deletedAt c = None /\
                linkedId c = Some (primaryContactId r).
Proof.
  intros n env k db rawEmail rawPhone r WF run H i.
  pose proof (processContact_reads_back n env k db rawEmail rawPhone r WF H) as Hread.
  fold run in Hread.
  rewrite (buildResponse_secondaryContactIds _ _ _ Hread), in_map_iff. split.
  - intros [c [<- Hc]]. apply filter_In in Hc. destruct Hc as [Hc Hne].
    apply negb_true_iff, Z.eqb_neq in Hne.
    apply findCluster_In in Hc. destruct Hc as [Hrow [Hlive Hroot]].
    split; [assumption|]. exists c. repeat split; auto.
    destruct Hroot as [[E | []] | [l [Hl [E | []]]]]; [congruence|].
    now subst l.
  - intros [Hne [c [Hrow [<- [Hlive Hl]]]]]. exists c. split; [reflexivity|].
    apply filter_In. split; [|now apply negb_true_iff, Z.eqb_neq].
    apply findCluster_In. split; [assumption|]. split; [assumption|].
    right. exists (primaryContactId r). split; [assumption | now left].
Qed.

Lemma secondaries_are_the_linked_rows_witness :
  let run := processContact 3 calm 0 hillValleyDb
               (JsString "george@hillvalley.edu") (JsString "717171") in
  let r := mkResponse 1 ["george@hillvalley.edu"; "biffsucks@hillvalley.edu"]
                        ["919191"; "717171"] [2] in
  In 2 (secondaryContactIds r) <->
  2 <> primaryContactId r /\
  exists c, In c (rows (final run)) /\ id c = 2 /\ deletedAt c = None /\
            linkedId c = Some (primaryContactId r).
Proof.
  apply (secondaries_are_the_linked_rows 3 calm 0 hillValleyDb
           (JsString "george@hillvalley.edu") (JsString "717171")
           (mkResponse 1 ["george@hillvalley.edu"; "biffsucks@hillvalley.edu"]
                         ["919191"; "717171"] [2])
           hillValleyDb_wellFormed eq_refl 2).
Defined.

Lemma emailRegex_accepts_witness :
  matchesAll emailRegex "doc@hillvalley.edu" = true.
Proof.
  apply (proj2 (emailRegex_accepts "doc@hillvalley.edu")).
  exists "doc"%string, "hillvalley"%string, "edu"%string.
  repeat split; try reflexivity; discriminate.
Defined.

Lemma requery_finds_oldest_match_witness :
  findFirstExisting (Some "lorraine@hillvalley.edu") (Some "123456")
    (rows deletedTwinDb) = None.
Proof.
  apply (proj2 (proj2 (requery_finds_oldest_match (Some "lorraine@hillvalley.edu")
                         (Some "123456") (rows deletedTwinDb)))).
  reflexivity.
Defined.
